(** * zed_extension_release.py: release helper of the Zed extension

    A shallow embedding of [skills/zed-extension-release/scripts/
    zed_extension_release.py] and of the parts of Python's [str] and [re]
    the script calls, followed by the properties of the release steps.

    Text is a list of characters.  A character is one of the code points
    U+0000..U+00FF (the type [ascii] read as Latin-1); the classes [\s], [\d],
    [\w] and the line boundaries of [str.splitlines] are Python's for these
    code points. *)

From Stdlib Require Import Ascii String List Bool Arith Lia.
Import ListNotations.

Set Implicit Arguments.

(* ===================================================================== *)
(** ** Characters and strings *)
(* ===================================================================== *)

Definition str := list ascii.

Definition lit (s : string) : str := list_ascii_of_string s.

Definition code (c : ascii) : nat := nat_of_ascii c.

Definition NL : ascii := "010"%char.
Definition CR : ascii := "013"%char.
Definition DQUOTE : ascii := "034"%char.
Definition SQUOTE : ascii := "039"%char.
Definition BACKSLASH : ascii := "092"%char.

Definition in_range (lo hi : nat) (c : ascii) : bool :=
  (lo <=? code c) && (code c <=? hi).

(** [str.isspace] on one character, also the class [\s] of [re]. *)
Definition is_space (c : ascii) : bool :=
  in_range 9 13 c || in_range 28 32 c || (code c =? 133) || (code c =? 160).

(** The class [\d] of [re] (Unicode decimal digits). *)
Definition is_digit (c : ascii) : bool := in_range 48 57 c.

Definition is_octdigit (c : ascii) : bool := in_range 48 55 c.

Definition is_ascii_letter (c : ascii) : bool :=
  in_range 65 90 c || in_range 97 122 c.

(** Letters of Latin-1 above U+007F. *)
Definition is_latin1_letter (c : ascii) : bool :=
  (code c =? 170) || (code c =? 181) || (code c =? 186)
  || in_range 192 214 c || in_range 216 246 c || in_range 248 255 c.

(** The class [\w] of [re]: [str.isalnum] or underscore. *)
Definition is_word (c : ascii) : bool :=
  is_digit c || is_ascii_letter c || (code c =? 95) || is_latin1_letter c
  || (code c =? 178) || (code c =? 179) || (code c =? 185)
  || in_range 188 190 c.

(** Line boundaries of [str.splitlines]. *)
Definition is_linebreak (c : ascii) : bool :=
  in_range 10 13 c || in_range 28 30 c || (code c =? 133).

Definition str_eqb (a b : str) : bool :=
  if list_eq_dec ascii_dec a b then true else false.

Fixpoint startswith (s p : str) {struct p} : bool :=
  match p, s with
  | [], _ => true
  | c :: p', x :: s' => Ascii.eqb x c && startswith s' p'
  | _ :: _, [] => false
  end.

Fixpoint lstrip (s : str) : str :=
  match s with
  | c :: s' => if is_space c then lstrip s' else s
  | [] => []
  end.

Definition rstrip (s : str) : str := rev (lstrip (rev s)).

Definition strip (s : str) : str := rstrip (lstrip s).

(** [sep.join(parts)]. *)
Fixpoint join (sep : str) (parts : list str) : str :=
  match parts with
  | [] => []
  | [p] => p
  | p :: ps => p ++ sep ++ join sep ps
  end.

(** [str.splitlines()]: lines without their terminators; CR LF is one
    terminator; no empty last line. *)
Fixpoint splitlines (s : str) : list str :=
  match s with
  | [] => []
  | c :: s' =>
      if is_linebreak c then
        [] :: (if Ascii.eqb c CR
               then match s' with
                    | d :: s'' => if Ascii.eqb d NL then splitlines s''
                                  else splitlines s'
                    | [] => splitlines s'
                    end
               else splitlines s')
      else match splitlines s' with
           | [] => [[c]]
           | l :: ls => (c :: l) :: ls
           end
  end.

(** [s[a:b]] for [0 <= a], [0 <= b]. *)
Definition slice (s : str) (a b : nat) : str := firstn (b - a) (skipn a s).

(* ===================================================================== *)
(** ** The regular expressions of the script

    The script's patterns use literals, character classes, greedy and lazy
    repetition of one class, the assertions [^], [$] (both under
    [re.MULTILINE]) and [\b], and numbered groups.  A pattern is the list of
    its items; [matcher] is the backtracking matcher of [re] on such a list. *)
(* ===================================================================== *)

Module Re.

Inductive cls :=
| Space            (* \s *)
| Digit            (* \d *)
| NotDquote        (* any character but the double quote *)
| Dot              (* .  (no DOTALL) *)
| Quote.           (* a double or a single quote *)

Definition cls_has (k : cls) (c : ascii) : bool :=
  match k with
  | Space => is_space c
  | Digit => is_digit c
  | NotDquote => negb (Ascii.eqb c DQUOTE)
  | Dot => negb (Ascii.eqb c NL)
  | Quote => Ascii.eqb c DQUOTE || Ascii.eqb c SQUOTE
  end.

Inductive item :=
| Lit (c : ascii)      (* one literal character *)
| Cls (k : cls)        (* one character of a class *)
| Star (k : cls)       (* greedy star of a class *)
| Plus (k : cls)       (* greedy plus of a class *)
| StarLazy (k : cls)   (* lazy star of a class *)
| Bol                  (* ^ under MULTILINE *)
| Eol                  (* $ under MULTILINE *)
| Wordb                (* \b *)
| Open (g : nat)       (* group g opens *)
| Close (g : nat).     (* group g closes *)

Definition regex := list item.

(** A literal string as a pattern; also what [re.escape(s)] denotes once
    compiled. *)
Definition lits (s : str) : regex := map Lit s.

(** Group spans: [opened] holds the start of the groups entered,
    [closed] the spans of the groups left. *)
Record caps := { opened : list (nat * nat); closed : list (nat * (nat * nat)) }.

Definition no_caps : caps := {| opened := []; closed := [] |}.

Fixpoint assoc {A} (g : nat) (l : list (nat * A)) : option A :=
  match l with
  | [] => None
  | (h, v) :: l' => if h =? g then Some v else assoc g l'
  end.

Definition open_group (g pos : nat) (cs : caps) : caps :=
  {| opened := (g, pos) :: opened cs; closed := closed cs |}.

Definition close_group (g pos : nat) (cs : caps) : caps :=
  match assoc g (opened cs) with
  | Some a => {| opened := opened cs; closed := (g, (a, pos)) :: closed cs |}
  | None => cs
  end.

(** A match position: the character before it (if any), the rest of the
    text, the index. *)
Definition at_bol (prev : option ascii) : bool :=
  match prev with None => true | Some c => Ascii.eqb c NL end.

Definition at_eol (rest : str) : bool :=
  match rest with [] => true | c :: _ => Ascii.eqb c NL end.

Definition wordy (o : option ascii) : bool :=
  match o with None => false | Some c => is_word c end.

Definition at_wordb (prev : option ascii) (rest : str) : bool :=
  xorb (wordy prev) (wordy (hd_error rest)).

Definition result := (nat * caps)%type.          (* end index, groups *)
Definition cont := option ascii -> str -> nat -> caps -> option result.

(** Greedy repetition: as many as possible first, then one fewer, ... *)
Fixpoint greedy (k : cls) (kont : cont)
    (prev : option ascii) (rest : str) (pos : nat) (cs : caps)
    : option result :=
  match rest with
  | c :: rest' =>
      if cls_has k c then
        match greedy k kont (Some c) rest' (S pos) cs with
        | Some r => Some r
        | None => kont prev rest pos cs
        end
      else kont prev rest pos cs
  | [] => kont prev rest pos cs
  end.

(** Lazy repetition: as few as possible first. *)
Fixpoint lazy (k : cls) (kont : cont)
    (prev : option ascii) (rest : str) (pos : nat) (cs : caps)
    : option result :=
  match kont prev rest pos cs with
  | Some r => Some r
  | None =>
      match rest with
      | c :: rest' =>
          if cls_has k c then lazy k kont (Some c) rest' (S pos) cs else None
      | [] => None
      end
  end.

Definition one (ok : ascii -> bool) (kont : cont) : cont :=
  fun prev rest pos cs =>
    match rest with
    | c :: rest' => if ok c then kont (Some c) rest' (S pos) cs else None
    | [] => None
    end.

Definition guard (ok : option ascii -> str -> bool) (kont : cont) : cont :=
  fun prev rest pos cs => if ok prev rest then kont prev rest pos cs else None.

Fixpoint matcher (r : regex) : cont :=
  match r with
  | [] => fun _ _ pos cs => Some (pos, cs)
  | Lit c :: r' => one (fun x => Ascii.eqb x c) (matcher r')
  | Cls k :: r' => one (cls_has k) (matcher r')
  | Star k :: r' => greedy k (matcher r')
  | Plus k :: r' => one (cls_has k) (greedy k (matcher r'))
  | StarLazy k :: r' => lazy k (matcher r')
  | Bol :: r' => guard (fun prev _ => at_bol prev) (matcher r')
  | Eol :: r' => guard (fun _ rest => at_eol rest) (matcher r')
  | Wordb :: r' => guard at_wordb (matcher r')
  | Open g :: r' => fun prev rest pos cs => matcher r' prev rest pos (open_group g pos cs)
  | Close g :: r' => fun prev rest pos cs => matcher r' prev rest pos (close_group g pos cs)
  end.

(** A match object: start, end, group spans. *)
Record mtch := { m_start : nat; m_end : nat; m_caps : caps }.

(** Leftmost match at or after the current position. *)
Fixpoint search_at (r : regex) (prev : option ascii) (rest : str) (pos : nat)
    : option mtch :=
  match matcher r prev rest pos no_caps with
  | Some (e, cs) => Some {| m_start := pos; m_end := e; m_caps := cs |}
  | None =>
      match rest with
      | [] => None
      | c :: rest' => search_at r (Some c) rest' (S pos)
      end
  end.

(** [re.search(r, text)]. *)
Definition search (r : regex) (text : str) : option mtch :=
  search_at r None text 0.

(** [m.group(g)] for a group that took part in the match. *)
Definition group (text : str) (m : mtch) (g : nat) : option str :=
  match assoc g (closed (m_caps m)) with
  | Some (a, b) => Some (slice text a b)
  | None => None
  end.

End Re.

(* ===================================================================== *)
(** ** Outcomes of a call

    A Python call returns, stops the process through [die] (message on
    stderr, [sys.exit(1)]), or raises an exception nobody catches. *)
(* ===================================================================== *)

Inductive exn :=
| ReError (msg : string)               (* re.error *)
| IndexError (msg : string)
| CalledProcessError (cmd : list str).  (* subprocess.run(check=True) *)

Inductive outcome (A : Type) :=
| Ok (a : A)
| Died (msg : str)
| Raised (e : exn).

Arguments Ok {A} a.
Arguments Died {A} msg.
Arguments Raised {A} e.

Definition obind {A B} (o : outcome A) (f : A -> outcome B) : outcome B :=
  match o with
  | Ok a => f a
  | Died m => Died m
  | Raised e => Raised e
  end.

(* ===================================================================== *)
(** ** Replacement templates and [re.subn] *)
(* ===================================================================== *)

Module Template.

Inductive part :=
| Chr (c : ascii)     (* a literal character *)
| Group (g : nat).    (* the text of group g *)

Definition digit_val (c : ascii) : nat := code c - 48.

(** Whitespace that [int(s)] strips. *)
Definition is_int_space (c : ascii) : bool :=
  in_range 9 13 c || (code c =? 32) || (code c =? 133) || (code c =? 160).

Fixpoint lstrip_int (s : str) : str :=
  match s with
  | c :: s' => if is_int_space c then lstrip_int s' else s
  | [] => []
  end.

(** Digits with single underscores between them; [acc] is the value read so
    far, [after_digit] tells whether the last character was a digit. *)
Fixpoint int_digits (s : str) (acc : nat) (after_digit : bool) : option nat :=
  match s with
  | [] => if after_digit then Some acc else None
  | c :: s' =>
      if is_digit c then int_digits s' (10 * acc + digit_val c) true
      else if (code c =? 95) && after_digit then int_digits s' acc false
      else None
  end.

(** [int(name)] when it succeeds with a value that is not negative. *)
Definition int_nonneg (name : str) : option nat :=
  let s := rev (lstrip_int (rev (lstrip_int name))) in
  match s with
  | c :: s' =>
      if code c =? 43 then int_digits s' 0 false
      else if code c =? 45 then
        match int_digits s' 0 false with
        | Some 0 => Some 0
        | _ => None
        end
      else int_digits s 0 false
  | [] => None
  end.

Definition is_id_start (c : ascii) : bool :=
  is_ascii_letter c || (code c =? 95) || is_latin1_letter c.

Definition is_id_continue (c : ascii) : bool :=
  is_id_start c || is_digit c || (code c =? 183).

(** [str.isidentifier]. *)
Definition isidentifier (s : str) : bool :=
  match s with
  | c :: s' => is_id_start c && forallb is_id_continue s'
  | [] => false
  end.

(** Split at the first [stop]: the text before it and the text after. *)
Fixpoint getuntil (stop : ascii) (s : str) : option (str * str) :=
  match s with
  | [] => None
  | c :: s' =>
      if Ascii.eqb c stop then Some ([], s')
      else match getuntil stop s' with
           | Some (a, b) => Some (c :: a, b)
           | None => None
           end
  end.

(** The escapes of a template that stand for one character. *)
Definition escape_char (c : ascii) : option ascii :=
  match code c with
  | 97 => Some "007"%char    (* \a *)
  | 98 => Some "008"%char    (* \b *)
  | 102 => Some "012"%char   (* \f *)
  | 110 => Some "010"%char   (* \n *)
  | 114 => Some "013"%char   (* \r *)
  | 116 => Some "009"%char   (* \t *)
  | 118 => Some "011"%char   (* \v *)
  | 92 => Some BACKSLASH
  | _ => None
  end.

Definition addgroup (groups index : nat) (k : outcome (list part))
    : outcome (list part) :=
  if groups <? index then Raised (ReError "invalid group reference")
  else obind k (fun ps => Ok (Group index :: ps)).

Definition emit (c : ascii) (k : outcome (list part)) : outcome (list part) :=
  obind k (fun ps => Ok (Chr c :: ps)).

(** [re._parser.parse_template] for a pattern with [groups] groups, none of
    them named.  [fuel] bounds the number of tokens. *)
Fixpoint parse_template (fuel groups : nat) (s : str) : outcome (list part) :=
  match fuel with
  | 0 => Ok []
  | S fuel' =>
    let go := parse_template fuel' groups in
    match s with
    | [] => Ok []
    | c :: s1 =>
      if negb (Ascii.eqb c BACKSLASH) then emit c (go s1)
      else
        match s1 with
        | [] => Raised (ReError "bad escape (end of pattern)")
        | e :: s2 =>
          if code e =? 103 then                      (* \g<name> *)
            match s2 with
            | lt :: s3 =>
                if code lt =? 60 then
                  match getuntil ">"%char s3 with
                  | None => Raised (ReError "missing >, unterminated name")
                  | Some ([], _) => Raised (ReError "missing group name")
                  | Some (name, s4) =>
                      if isidentifier name
                      then Raised (IndexError "unknown group name")
                      else match int_nonneg name with
                           | Some index => addgroup groups index (go s4)
                           | None =>
                               Raised (ReError "bad character in group name")
                           end
                  end
                else Raised (ReError "missing <")
            | [] => Raised (ReError "missing <")
            end
          else if code e =? 48 then                  (* \0, \0o, \0oo *)
            match s2 with
            | o1 :: s3 =>
                if is_octdigit o1 then
                  match s3 with
                  | o2 :: s4 =>
                      if is_octdigit o2
                      then emit (ascii_of_nat
                                   ((8 * digit_val o1 + digit_val o2) mod 256))
                                (go s4)
                      else emit (ascii_of_nat (digit_val o1)) (go s3)
                  | [] => emit (ascii_of_nat (digit_val o1)) (go s3)
                  end
                else emit zero (go s2)
            | [] => emit zero (go s2)
            end
          else if is_digit e then                    (* \1 .. \99, \ooo *)
            match s2 with
            | d2 :: s3 =>
                if is_digit d2 then
                  match s3 with
                  | d3 :: s4 =>
                      if is_octdigit e && is_octdigit d2 && is_octdigit d3 then
                        let v := 64 * digit_val e + 8 * digit_val d2
                                 + digit_val d3 in
                        if 255 <? v
                        then Raised (ReError "octal escape value outside of range 0-0o377")
                        else emit (ascii_of_nat v) (go s4)
                      else addgroup groups (10 * digit_val e + digit_val d2) (go s3)
                  | [] => addgroup groups (10 * digit_val e + digit_val d2) (go s3)
                  end
                else addgroup groups (digit_val e) (go s2)
            | [] => addgroup groups (digit_val e) (go s2)
            end
          else
            match escape_char e with
            | Some x => emit x (go s2)
            | None =>
                if is_ascii_letter e then Raised (ReError "bad escape")
                else emit BACKSLASH (emit e (go s2))
            end
        end
    end
  end.

End Template.

Module Sub.
Import Re Template.

(** Number of groups of a pattern. *)
Definition ngroups (r : regex) : nat :=
  length (filter (fun i => match i with Open _ => true | _ => false end) r).

(** A replacement without backslash is used as it is; any other is handed
    to the template parser before the text is searched. *)
Definition compile_repl (groups : nat) (repl : str) : outcome (list part) :=
  if existsb (Ascii.eqb BACKSLASH) repl
  then parse_template (S (length repl)) groups repl
  else Ok (map Chr repl).

(** The replacement text of one match; a group that took no part in the
    match gives the empty string. *)
Definition expand (text : str) (m : mtch) (ps : list part) : str :=
  flat_map (fun p =>
    match p with
    | Chr c => [c]
    | Group 0 => slice text (m_start m) (m_end m)
    | Group g => match group text m g with Some s => s | None => [] end
    end) ps.

(** The loop of [re.subn]: [count = 0] replaces every match, leftmost
    first, without overlap.  [rest] is the text from index [pos] on, [n] the
    number of replacements made.  Every pattern of the script holds a
    literal, so no match is empty; after an empty match the loop here copies
    one character and goes on. *)
Fixpoint subn_loop (fuel : nat) (r : regex) (text : str) (ps : list part)
    (count n : nat) (prev : option ascii) (rest : str) (pos : nat)
    : str * nat :=
  match fuel with
  | 0 => (rest, n)
  | S fuel' =>
      if negb (count =? 0) && (count <=? n) then (rest, n)
      else
        match search_at r prev rest pos with
        | None => (rest, n)
        | Some m =>
            let b := m_start m - pos in
            let e := m_end m - pos in
            let piece := firstn b rest ++ expand text m ps in
            if e =? b then
              match skipn b rest with
              | [] => (piece, S n)
              | c :: rest' =>
                  let (out, n') :=
                    subn_loop fuel' r text ps count (S n)
                              (Some c) rest' (S (m_end m)) in
                  (piece ++ c :: out, n')
              end
            else
              let (out, n') :=
                subn_loop fuel' r text ps count (S n)
                          (nth_error rest (e - 1)) (skipn e rest) (m_end m) in
              (piece ++ out, n')
        end
  end.

(** [re.subn(r, repl, text, count)]. *)
Definition subn (r : regex) (repl text : str) (count : nat)
    : outcome (str * nat) :=
  obind (compile_repl (ngroups r) repl) (fun ps =>
    Ok (subn_loop (S (length text)) r text ps count 0 None text 0)).

(** [re.sub(r, repl, text, count)]. *)
Definition sub (r : regex) (repl text : str) (count : nat) : outcome str :=
  obind (subn r repl text count) (fun p => Ok (fst p)).

End Sub.

(* ===================================================================== *)
(** ** The world the script runs in

    Files by path, the external commands ([cargo], [git], the test
    scripts), and the trace of what the script did. *)
(* ===================================================================== *)

Definition path := str.
Definition command := list str.
Definition filesystem := path -> option str.

Inductive event :=
| Wrote (p : path) (content : str)    (* write_text / write_bytes *)
| Ran (cmd : command)                 (* a subprocess that exited with 0 *)
| Stderr (line : str)
| Stdout (line : str).

Record World := {
  files : filesystem;
  (** what a command run through [run] does: [None] when it exits with a
      status other than 0, else the files it leaves *)
  exec : command -> filesystem -> option filesystem;
  (** the standard output of a command whose output is read; [None] when it
      exits with a status other than 0 *)
  capture : command -> option str;
  trace : list event
}.

Definition M (A : Type) : Type := World -> outcome A * World.

Definition ret {A} (a : A) : M A := fun w => (Ok a, w).

Definition bind {A B} (m : M A) (f : A -> M B) : M B :=
  fun w =>
    match m w with
    | (Ok a, w') => f a w'
    | (Died msg, w') => (Died msg, w')
    | (Raised e, w') => (Raised e, w')
    end.

Declare Scope release_scope.
Delimit Scope release_scope with release.
Notation "x <- m ;; k" := (bind m (fun x => k))
  (at level 61, m at next level, right associativity) : release_scope.
Notation "' p <- m ;; k" := (bind m (fun p => k))
  (at level 61, p pattern, m at next level, right associativity)
  : release_scope.
Notation "m ;;; k" := (bind m (fun _ => k))
  (at level 61, right associativity) : release_scope.
Open Scope release_scope.

Definition lift {A} (o : outcome A) : M A := fun w => (o, w).

Definition log (e : event) : M unit :=
  fun w => (Ok tt, {| files := files w; exec := exec w; capture := capture w;
                      trace := trace w ++ [e] |}).

Definition when (b : bool) (m : M unit) : M unit := if b then m else ret tt.

Definition path_exists (p : path) : M bool :=
  fun w => (Ok (match files w p with Some _ => true | None => false end), w).

Fixpoint for_each {A} (l : list A) (body : A -> M unit) : M unit :=
  match l with
  | [] => ret tt
  | a :: l' => body a ;;; for_each l' body
  end.

(** [ROOT / name], [ROOT] being the working directory ([Path.cwd()]). *)
Definition path_join (root name : str) : path :=
  if str_eqb root (lit "/") then root ++ name else root ++ lit "/" ++ name.

(* ===================================================================== *)
(** ** The script *)
(* ===================================================================== *)

(** The parsed command line ([argparse.Namespace]).  [note] is empty when no
    [--note] was given. *)
Record Args := {
  version : str;
  note : list str;
  notes_file : option str;
  allow_empty_notes : bool;
  build : bool;
  run_tests_flag : bool;
  commit : bool;
  tag : bool;
  push : bool;
  remote : str;
  allow_dirty : bool
}.

Section Script.

(** [ROOT = pathlib.Path.cwd()] *)
Variable ROOT : str.

Definition die {A} (message : str) : M A :=
  log (Stderr (lit "error: " ++ message)) ;;; lift (Died message).

Definition read_text (p : path) : M str :=
  fun w =>
    match files w p with
    | Some content => (Ok content, w)
    | None => die (lit "missing required file: " ++ p) w
    end.

Definition write_text (p : path) (content : str) : M unit :=
  fun w => (Ok tt, {| files := fun q => if str_eqb q p then Some content
                                        else files w q;
                      exec := exec w; capture := capture w;
                      trace := trace w ++ [Wrote p content] |}).

(** [subprocess.run(cmd, check=True)] *)
Definition run (cmd : command) : M unit :=
  fun w =>
    match exec w cmd (files w) with
    | Some fs => (Ok tt, {| files := fs; exec := exec w; capture := capture w;
                            trace := trace w ++ [Ran cmd] |})
    | None => (Raised (CalledProcessError cmd), w)
    end.

(** [subprocess.run(cmd, check=True, stdout=PIPE, text=True).stdout] *)
Definition run_stdout (cmd : command) : M str :=
  fun w =>
    match capture w cmd with
    | Some out => (Ok out, w)
    | None => (Raised (CalledProcessError cmd), w)
    end.

Definition nonempty (s : str) : bool :=
  match s with [] => false | _ :: _ => true end.

Definition nonempty_list {A} (l : list A) : bool :=
  match l with [] => false | _ :: _ => true end.

Definition placeholder_note : str := lit "TODO: add release notes".

(** The lines of the notes file that [parse_notes] keeps. *)
Definition notes_of_file (content : str) : list str :=
  filter (fun stripped => nonempty stripped && negb (startswith stripped (lit "#")))
         (map strip (splitlines content)).

Definition parse_notes (args : Args) : M (list str) :=
  let notes := note args in
  notes <-
    match notes_file args with
    | Some (c :: f) =>
        let notes_path := c :: f in
        ex <- path_exists notes_path ;;
        if negb ex then die (lit "notes file not found: " ++ notes_path)
        else content <- read_text notes_path ;;
             ret (notes ++ notes_of_file content)
    | _ => ret notes
    end ;;
  let cleaned := map strip (filter (fun n => nonempty (strip n)) notes) in
  match cleaned with
  | [] =>
      if negb (allow_empty_notes args)
      then die (lit "provide --note/--notes-file or pass --allow-empty-notes")
      else ret [placeholder_note]
  | _ :: _ => ret cleaned
  end.

Import Re.

(** [^version\s*=\s*Q([^Q]+)Q] with [re.M], Q being the double quote *)
Definition version_re : regex :=
  [Bol] ++ lits (lit "version")
  ++ [Star Space; Lit "="; Star Space; Lit DQUOTE;
      Open 1; Plus NotDquote; Close 1; Lit DQUOTE].

Definition opt_str_eqb (a : option str) (b : str) : bool :=
  match a with Some x => str_eqb x b | None => false end.

Definition update_extension_toml_text (text version : str)
    : outcome (str * str) :=
  match search version_re text with
  | None => Died (lit "extension.toml missing version field")
  | Some m =>
      let current := group text m 1 in
      if opt_str_eqb current version
      then Died (lit "extension.toml already at version " ++ version)
      else
        obind (Sub.sub version_re
                 (lit "version = " ++ [DQUOTE] ++ version ++ [DQUOTE]) text 1)
              (fun updated => Ok (text, updated))
  end.

Definition update_extension_toml (p : path) (version : str) : M (str * str) :=
  text <- read_text p ;;
  match update_extension_toml_text text version with
  | Died msg => die msg
  | o => lift o
  end.

(** [^##\s+{re.escape(version)}\b] with [re.M] *)
Definition changelog_version_re (version : str) : regex :=
  [Bol; Lit "#"; Lit "#"; Plus Space] ++ lits version ++ [Wordb].

(** [\n##\s] *)
Definition heading_re : regex := [Lit NL; Lit "#"; Lit "#"; Cls Space].

Definition changelog_section (version : str) (notes : list str) : str :=
  let bullets := join [NL] (map (fun n => lit "- " ++ n) notes) in
  [NL] ++ lit "## " ++ version ++ [NL; NL] ++ bullets ++ [NL].

Definition insert_changelog_text (text version : str) (notes : list str)
    : outcome (str * str) :=
  match search (changelog_version_re version) text with
  | Some _ => Died (lit "CHANGELOG already contains version " ++ version)
  | None =>
      let section := changelog_section version notes in
      let updated :=
        match search heading_re text with
        | Some m => firstn (m_start m) text ++ section ++ skipn (m_start m) text
        | None => rstrip text ++ section ++ [NL]
        end in
      Ok (text, updated)
  end.

Definition insert_changelog (p : path) (version : str) (notes : list str)
    : M (str * str) :=
  text <- read_text p ;;
  match insert_changelog_text text version notes with
  | Died msg => die msg
  | o => lift o
  end.

(** [(?m)^### Latest:\s*v\d+\.\d+\.\d+\s*$] *)
Definition latest_re : regex :=
  [Bol] ++ lits (lit "### Latest:")
  ++ [Star Space; Lit "v"; Plus Digit; Lit "."; Plus Digit; Lit ".";
      Plus Digit; Star Space; Eol].

Definition replace_latest_readme_text (text version : str)
    : outcome (str * str * bool) :=
  obind (Sub.subn latest_re (lit "### Latest: v" ++ version) text 1)
        (fun '(updated, count) => Ok (text, updated, 0 <? count)).

Definition replace_latest_readme (p : path) (version : str)
    : M (str * str * bool) :=
  text <- read_text p ;;
  lift (replace_latest_readme_text text version).

(** [(?m)^- \[x\] `extension\.toml` version: .*?$] *)
Definition publishing_version_re : regex :=
  [Bol] ++ lits (lit "- [x] `extension.toml` version: ") ++ [StarLazy Dot; Eol].

(** [(?m)^## Release Checklist for v\d+\.\d+\.\d+\s*$] *)
Definition publishing_header_re : regex :=
  [Bol] ++ lits (lit "## Release Checklist for v")
  ++ [Plus Digit; Lit "."; Plus Digit; Lit "."; Plus Digit; Star Space; Eol].

(** [(?m)^- \[ \] Create git tag v\d+\.\d+\.\d+\s*$] *)
Definition publishing_tag_re : regex :=
  [Bol] ++ lits (lit "- [ ] Create git tag v")
  ++ [Plus Digit; Lit "."; Plus Digit; Lit "."; Plus Digit; Star Space; Eol].

Definition warn_version : str :=
  lit "PUBLISHING.md: extension.toml version line not found".
Definition warn_header : str :=
  lit "PUBLISHING.md: release checklist header not found".
Definition warn_tag : str :=
  lit "PUBLISHING.md: create git tag line not found".

Definition update_publishing_text (text version : str)
    : outcome (str * str * list str) :=
  let warnings := [] in
  obind (Sub.subn publishing_version_re
           (lit "- [x] `extension.toml` version: " ++ version) text 1)
  (fun '(updated, count) =>
  let warnings := if count =? 0 then warnings ++ [warn_version] else warnings in
  obind (Sub.subn publishing_header_re
           (lit "## Release Checklist for v" ++ version) updated 1)
  (fun '(updated, count) =>
  let warnings := if count =? 0 then warnings ++ [warn_header] else warnings in
  obind (Sub.subn publishing_tag_re
           (lit "- [ ] Create git tag v" ++ version) updated 1)
  (fun '(updated, count) =>
  let warnings := if count =? 0 then warnings ++ [warn_tag] else warnings in
  Ok (text, updated, warnings)))).

Definition update_publishing (p : path) (version : str)
    : M (str * str * list str) :=
  text <- read_text p ;;
  lift (update_publishing_text text version).

(** [(grep\s+-q\s+[Q'])(\d+\.\d+\.\d+)([Q']\s+extension\.toml)], Q being the
    double quote *)
Definition grep_version_re : regex :=
  [Open 1] ++ lits (lit "grep") ++ [Plus Space] ++ lits (lit "-q")
  ++ [Plus Space; Cls Quote; Close 1;
      Open 2; Plus Digit; Lit "."; Plus Digit; Lit "."; Plus Digit; Close 2;
      Open 3; Cls Quote; Plus Space] ++ lits (lit "extension.toml")
  ++ [Close 3].

(** The replacement is the raw f-string [\1{version}\3]. *)
Definition update_test_version_checks_text (text version : str)
    : outcome (str * str * bool) :=
  obind (Sub.subn grep_version_re
           ([BACKSLASH] ++ lit "1" ++ version ++ [BACKSLASH] ++ lit "3") text 0)
        (fun '(updated, count) => Ok (text, updated, 0 <? count)).

Definition update_test_version_checks (p : path) (version : str)
    : M (str * str * bool) :=
  text <- read_text p ;;
  lift (update_test_version_checks_text text version).

Definition ensure_repo_files : M unit :=
  let required := [lit "extension.toml"; lit "CHANGELOG.md"] in
  for_each required (fun name =>
    ex <- path_exists (path_join ROOT name) ;;
    if negb ex then die (lit "run from repo root; missing " ++ name)
    else ret tt).

Definition build_wasm : M unit :=
  run [lit "cargo"; lit "build"; lit "--release"; lit "--target";
       lit "wasm32-wasip1"] ;;;
  let built :=
    path_join ROOT (lit "target/wasm32-wasip1/release/zed_css_variables.wasm") in
  fun w =>
    match files w built with
    | None => die (lit "build succeeded but wasm file not found") w
    | Some bytes => write_text (path_join ROOT (lit "extension.wasm")) bytes w
    end.

Definition run_tests : M unit :=
  run [lit "cargo"; lit "test"; lit "--lib"] ;;;
  run [lit "./test_extension.sh"] ;;;
  run [lit "./test_clean_install.sh"].

Definition git_status_files : M (list str) :=
  out <- run_stdout [lit "git"; lit "status"; lit "--porcelain"] ;;
  let lines := filter nonempty (map strip (splitlines out)) in
  let files := map (skipn 3) (filter (fun line => 3 <? length line) lines) in
  ret files.

Definition git_add (paths : list path) : M unit :=
  for_each paths (fun p => run [lit "git"; lit "add"; lit "--"; p]).

Definition git_commit (message : str) : M unit :=
  run [lit "git"; lit "commit"; lit "-m"; message].

Definition git_tag (tag : str) : M unit :=
  out <- run_stdout [lit "git"; lit "tag"; lit "--list"; tag] ;;
  let existing := strip out in
  if nonempty existing then die (lit "git tag already exists: " ++ tag)
  else run [lit "git"; lit "tag"; tag].

Definition git_push (remote tag : str) : M unit :=
  run [lit "git"; lit "push"; remote; lit "HEAD"] ;;;
  run [lit "git"; lit "push"; remote; tag].

(** [if before != after: write_text(path, after); changed_files.append(path)],
    under the extra condition [updated] where the caller has one. *)
Definition write_if (cond : bool) (p : path) (after : str)
    (changed_files : list path) : M (list path) :=
  if cond then write_text p after ;;; ret (changed_files ++ [p])
  else ret changed_files.

Definition ext_path : path := path_join ROOT (lit "extension.toml").
Definition changelog_path : path := path_join ROOT (lit "CHANGELOG.md").
Definition readme_path : path := path_join ROOT (lit "README.md").
Definition publishing_path : path := path_join ROOT (lit "PUBLISHING.md").
Definition test_paths : list path :=
  [path_join ROOT (lit "test_extension.sh");
   path_join ROOT (lit ".github/workflows/test.yml")].
Definition wasm_path : path := path_join ROOT (lit "extension.wasm").

Definition edit_manifest (args : Args) (changed_files : list path)
    : M (list path) :=
  '(before, after) <- update_extension_toml ext_path (version args) ;;
  write_if (negb (str_eqb before after)) ext_path after changed_files.

Definition edit_changelog (args : Args) (notes : list str)
    (changed_files : list path) : M (list path) :=
  '(before, after) <- insert_changelog changelog_path (version args) notes ;;
  write_if (negb (str_eqb before after)) changelog_path after changed_files.

Definition edit_readme (args : Args) (changed_files : list path)
    : M (list path) :=
  ex <- path_exists readme_path ;;
  if ex then
    '(before, after, updated) <- replace_latest_readme readme_path (version args) ;;
    write_if (updated && negb (str_eqb before after)) readme_path after
             changed_files
  else ret changed_files.

Definition edit_publishing (args : Args) (changed_files : list path)
    : M (list path) :=
  ex <- path_exists publishing_path ;;
  if ex then
    '(before, after, warnings) <- update_publishing publishing_path (version args) ;;
    changed_files <-
      write_if (negb (str_eqb before after)) publishing_path after changed_files ;;
    for_each warnings (fun warning => log (Stderr (lit "warning: " ++ warning))) ;;;
    ret changed_files
  else ret changed_files.

Definition edit_test (args : Args) (test_path : path)
    (changed_files : list path) : M (list path) :=
  ex <- path_exists test_path ;;
  if ex then
    '(before, after, updated) <-
      update_test_version_checks test_path (version args) ;;
    write_if (updated && negb (str_eqb before after)) test_path after
             changed_files
  else ret changed_files.

Fixpoint edit_tests (args : Args) (paths : list path)
    (changed_files : list path) : M (list path) :=
  match paths with
  | [] => ret changed_files
  | test_path :: rest =>
      changed_files <- edit_test args test_path changed_files ;;
      edit_tests args rest changed_files
  end.

(** The file edits of [main], from [changed_files = []] to the end of the
    loop over [test_paths]. *)
Definition edit_files (args : Args) (notes : list str) : M (list path) :=
  let changed_files := [] in
  changed_files <- edit_manifest args changed_files ;;
  changed_files <- edit_changelog args notes changed_files ;;
  changed_files <- edit_readme args changed_files ;;
  changed_files <- edit_publishing args changed_files ;;
  edit_tests args test_paths changed_files.

Definition build_step (args : Args) (changed_files : list path)
    : M (list path) :=
  if build args then
    build_wasm ;;;
    ex <- path_exists wasm_path ;;
    ret (if ex then changed_files ++ [wasm_path] else changed_files)
  else ret changed_files.

Definition mem (x : str) (l : list str) : bool := existsb (str_eqb x) l.

Definition commit_step (args : Args) (changed_files : list path) : M unit :=
  when (commit args) (
    let changed_set := changed_files in
    status_files <- git_status_files ;;
    when (nonempty_list status_files && negb (allow_dirty args)) (
      let extras := filter (fun p => negb (mem p changed_set)) status_files in
      when (nonempty_list extras)
        (die (lit "working tree has unrelated changes: "
              ++ join (lit ", ") extras))) ;;;
    git_add changed_files ;;;
    git_commit (lit "Release v" ++ version args)).

Definition tag_step (args : Args) : M unit :=
  let tag_name := lit "v" ++ version args in
  when (tag args) (git_tag tag_name).

Definition push_step (args : Args) : M unit :=
  let tag_name := lit "v" ++ version args in
  when (push args) (
    when (negb (tag args)) (
      out <- run_stdout [lit "git"; lit "tag"; lit "--list"; tag_name] ;;
      let existing := strip out in
      when (negb (nonempty existing))
        (die (lit "--push requires --tag or an existing tag"))) ;;;
    git_push (remote args) tag_name).

Definition main (args : Args) : M unit :=
  ensure_repo_files ;;;
  notes <- parse_notes args ;;
  changed_files <- edit_files args notes ;;
  changed_files <- build_step args changed_files ;;
  when (run_tests_flag args) run_tests ;;;
  commit_step args changed_files ;;;
  tag_step args ;;;
  push_step args ;;;
  log (Stdout (lit "done")).

End Script.

(* ===================================================================== *)
(** ** Vocabulary of the statements *)
(* ===================================================================== *)

(** The character before the position reached after reading [u], [d] being
    the character before [u]. *)
Definition lastc (d : option ascii) (u : str) : option ascii :=
  fold_left (fun _ c => Some c) u d.

(** The longest prefix made of characters of a class, and what follows. *)
Fixpoint take_while (p : ascii -> bool) (s : str) : str :=
  match s with
  | c :: s' => if p c then c :: take_while p s' else []
  | [] => []
  end.

Fixpoint drop_while (p : ascii -> bool) (s : str) : str :=
  match s with
  | c :: s' => if p c then drop_while p s' else s
  | [] => []
  end.

Definition all (p : ascii -> bool) (s : str) : Prop := forallb p s = true.

(** [s] is empty or starts with a character outside the class. *)
Definition stops (p : ascii -> bool) (s : str) : Prop :=
  match s with [] => True | c :: _ => p c = false end.

(** [pre] ends where a line starts: it is empty or ends with a newline. *)
Definition line_start (pre : str) : Prop := Re.at_bol (lastc None pre) = true.

(** [post] starts where a line ends: it is empty or starts with a newline. *)
Definition line_end (post : str) : Prop := Re.at_eol post = true.

(** One component of a version: decimal digits, at least one. *)
Definition number (s : str) : Prop := s <> [] /\ all is_digit s.

(** A version string: three numbers separated by dots. *)
Definition version3 (v : str) : Prop :=
  exists a b c, v = a ++ lit "." ++ b ++ lit "." ++ c
                /\ number a /\ number b /\ number c.

(** [r] matches at the position between [pre] and [suf], up to index [e]. *)
Definition matches_at (r : Re.regex) (pre suf : str) (e : nat) (cs : Re.caps)
    : Prop :=
  Re.matcher r (lastc None pre) suf (length pre) Re.no_caps = Some (e, cs).

Definition no_match_at (r : Re.regex) (pre suf : str) : Prop :=
  Re.matcher r (lastc None pre) suf (length pre) Re.no_caps = None.

(** [r] matches nowhere in [text]. *)
Definition no_match (r : Re.regex) (text : str) : Prop :=
  forall pre suf, text = pre ++ suf -> no_match_at r pre suf.

(** The end of a trailing [\s*$]: the number of characters the greedy star
    keeps, when the end of a line can be reached. *)
Fixpoint trail (rest : str) : option nat :=
  match rest with
  | c :: rest' =>
      if is_space c then
        match trail rest' with
        | Some k => Some (S k)
        | None => if Re.at_eol rest then Some 0 else None
        end
      else if Re.at_eol rest then Some 0 else None
  | [] => Some 0
  end.

(** The continuation fails wherever the next character is in the class:
    a star in front of it cannot give a character back. *)
Definition fails_on (p : ascii -> bool) (kont : Re.cont) : Prop :=
  forall c rest prev pos cs, p c = true -> kont prev (c :: rest) pos cs = None.

(** *** Notes *)

(** The notes file named on the command line; an empty [--notes-file] value
    counts as none. *)
Definition named_notes_file (args : Args) : option path :=
  match notes_file args with
  | Some (c :: f) => Some (c :: f)
  | _ => None
  end.

(** A comment line starts with [#] once trimmed; a blank line is empty once
    trimmed. *)
Definition comment_line (l : str) : bool := startswith (strip l) (lit "#").
Definition blank_line (l : str) : bool := negb (nonempty (strip l)).

(** The combined list of trimmed, non-empty notes: the [--note] values, then
    the lines of the notes file that are neither blank nor comments.  There
    is no such list when the notes file that is named does not exist. *)
Definition combined_notes (args : Args) (w : World) : option (list str) :=
  let combine file_lines :=
    filter nonempty (map strip (note args ++ file_lines)) in
  match named_notes_file args with
  | Some p =>
      match files w p with
      | Some content =>
          Some (combine
                  (filter (fun l => negb (blank_line l) && negb (comment_line l))
                          (splitlines content)))
      | None => None
      end
  | None => Some (combine [])
  end.

(** *** Sample inputs *)

(** A text given by its lines, each ended by a newline. *)
Definition text_of (lines : list string) : str :=
  flat_map (fun l => lit l ++ [NL]) lines.

Definition quoted (s : string) : str := [DQUOTE] ++ lit s ++ [DQUOTE].

(** A repository under [/repo] with a manifest at version 0.0.8 and a
    changelog; every command succeeds and leaves the files alone; [git
    status --porcelain] reports the two files as modified, [git tag --list]
    prints nothing. *)
Definition sample_manifest : str :=
  lit "id = " ++ quoted "css-variables" ++ [NL]
  ++ lit "version = " ++ quoted "0.0.8" ++ [NL].

Definition sample_changelog : str :=
  text_of ["# Changelog"; ""; "## 0.0.8"; ""; "- Initial release"]%string.

Definition sample_files : filesystem :=
  fun p =>
    if str_eqb p (lit "/repo/extension.toml") then Some sample_manifest
    else if str_eqb p (lit "/repo/CHANGELOG.md") then Some sample_changelog
    else None.

Definition sample_world : World :=
  {| files := sample_files;
     exec := fun _ fs => Some fs;
     capture := fun cmd =>
       if list_eq_dec (list_eq_dec ascii_dec) cmd
            [lit "git"; lit "status"; lit "--porcelain"]
       then Some (text_of [" M CHANGELOG.md"; " M extension.toml"]%string)
       else Some [];
     trace := [] |}.

Definition sample_args : Args :=
  {| version := lit "0.0.9";
     note := [lit "Fix crash"];
     notes_file := None;
     allow_empty_notes := false;
     build := false;
     run_tests_flag := false;
     commit := false;
     tag := false;
     push := false;
     remote := lit "origin";
     allow_dirty := false |}.

Definition with_commit (a : Args) : Args :=
  {| version := version a; note := note a; notes_file := notes_file a;
     allow_empty_notes := allow_empty_notes a; build := build a;
     run_tests_flag := run_tests_flag a; commit := true; tag := tag a;
     push := push a; remote := remote a; allow_dirty := allow_dirty a |}.

Definition with_tag (a : Args) : Args :=
  {| version := version a; note := note a; notes_file := notes_file a;
     allow_empty_notes := allow_empty_notes a; build := build a;
     run_tests_flag := run_tests_flag a; commit := commit a; tag := true;
     push := push a; remote := remote a; allow_dirty := allow_dirty a |}.

(** *** Tags *)

Definition tag_name (args : Args) : str := lit "v" ++ version args.

Definition tag_list_cmd (args : Args) : command :=
  [lit "git"; lit "tag"; lit "--list"; tag_name args].

Definition tag_create_cmd (args : Args) : command :=
  [lit "git"; lit "tag"; tag_name args].

(** *** Traces *)

(** The paths written and the commands run, in order. *)
Definition written (evs : list event) : list path :=
  flat_map (fun e => match e with Wrote p _ => [p] | _ => [] end) evs.

Definition ran (evs : list event) : list command :=
  flat_map (fun e => match e with Ran cmd => [cmd] | _ => [] end) evs.

(** The files [git status --porcelain] reports, as the script reads them
    from the output [out]. *)
Definition status_files_of (out : str) : list str :=
  map (skipn 3)
      (filter (fun line => 3 <? length line)
              (filter nonempty (map strip (splitlines out)))).

(** *** The files a run edits *)

(** A text transformation: original text to (original, updated). *)
Definition transformation := str -> outcome (str * str).

Definition drop_flag {A} (o : outcome (str * str * A)) : outcome (str * str) :=
  obind o (fun '(b, a, _) => Ok (b, a)).

(** The target files of a run with the transformation applied to each:
    manifest, changelog, readme, publishing checklist, test scripts. *)
Definition targets (ROOT : str) (args : Args) (notes : list str)
    : list (path * transformation) :=
  [ (ext_path ROOT,
     fun t => update_extension_toml_text t (version args));
    (changelog_path ROOT,
     fun t => insert_changelog_text t (version args) notes);
    (readme_path ROOT,
     fun t => drop_flag (replace_latest_readme_text t (version args)));
    (publishing_path ROOT,
     fun t => drop_flag (update_publishing_text t (version args))) ]
  ++ map (fun p =>
            (p, fun t => drop_flag
                           (update_test_version_checks_text t (version args))))
         (test_paths ROOT).

(** What a step added to the trace. *)
Definition new_events (w w' : World) : list event :=
  skipn (length (trace w)) (trace w').

(** The transformation changes the content (whenever it returns). *)
Definition edits (f : transformation) (content : option str) : Prop :=
  forall text b a, content = Some text -> f text = Ok (b, a) -> b <> a.

(** The result [r] of a step started in [w] with the list [changed]: files
    other than the targets [T] are as before; a file is written, or added
    to the list, only if it is a target whose transformation changes it. *)
Definition framed (T : list (path * transformation)) (changed : list path)
    (w : World) (r : outcome (list path) * World) : Prop :=
  (forall q, ~ In q (map fst T) -> files (snd r) q = files w q)
  /\ (exists evs, trace (snd r) = trace w ++ evs
        /\ forall q c, In (Wrote q c) evs ->
             exists f, In (q, f) T /\ edits f (files w q))
  /\ (forall changed', fst r = Ok changed' ->
        exists l, changed' = changed ++ l
          /\ forall q, In q l -> exists f, In (q, f) T /\ edits f (files w q)).

Definition frame (T : list (path * transformation))
    (m : list path -> M (list path)) : Prop :=
  forall changed w, framed T changed w (m changed w).

(** The sample repository with a readme that has no line for the latest
    version. *)
Definition sample_readme : str := text_of ["# CSS variables"; ""; "Usage"]%string.

Definition sample_world_readme : World :=
  {| files := fun p => if str_eqb p (lit "/repo/README.md")
                       then Some sample_readme else sample_files p;
     exec := exec sample_world;
     capture := capture sample_world;
     trace := [] |}.

(** *** Headings of the changelog *)

(** Some line of [text] starts with [##], white space, then [V] followed by
    a word boundary. *)
Definition version_heading (V text : str) : Prop :=
  exists pre ws post,
    text = pre ++ lit "##" ++ ws ++ V ++ post
    /\ line_start pre /\ ws <> [] /\ all is_space ws
    /\ Re.at_wordb (lastc None (pre ++ lit "##" ++ ws ++ V)) post = true.

(** A call that returns a match. *)
Definition succeeds {A} (o : option A) : Prop := exists r, o = Some r.

(** *** Matches that cannot reach a replaced span

    [m] is a piece of text that ends with a newline; [X] and [Y] are two
    texts that may follow it. *)
Definition inside (m : str) : Prop := lastc None m = Some NL.

(** The pattern fails in front of [m ++ X] exactly when it fails in front of
    [m ++ Y]. *)
Definition same_fate (X Y : str) (r : Re.regex) : Prop :=
  forall m prev pos cs, inside m ->
    (Re.matcher r prev (m ++ X) pos cs = None
     <-> Re.matcher r prev (m ++ Y) pos cs = None).

(** [same_fate] for a continuation. *)
Definition kfate (X Y : str) (kont : Re.cont) : Prop :=
  forall m prev pos cs, inside m ->
    (kont prev (m ++ X) pos cs = None <-> kont prev (m ++ Y) pos cs = None).

(** The pattern fails on every text that starts with [b]. *)
Definition refuses (b : ascii) (r : Re.regex) : Prop :=
  forall prev rest pos cs, Re.matcher r prev (b :: rest) pos cs = None.

(** Patterns whose items stay on the line they started on, but for a star
    that may run over newlines and is followed by something that refuses
    [b]; [Q] holds of the end of the pattern. *)
Inductive bounded (b : ascii) (Q : Re.regex -> Prop) : Re.regex -> Prop :=
| B_end r : Q r -> bounded b Q r
| B_nil : bounded b Q []
| B_lit c r : c <> NL -> bounded b Q r -> bounded b Q (Re.Lit c :: r)
| B_cls k r : Re.cls_has k NL = false -> bounded b Q r ->
    bounded b Q (Re.Cls k :: r)
| B_plus k r : Re.cls_has k NL = false -> bounded b Q r ->
    bounded b Q (Re.Plus k :: r)
| B_lazy k r : Re.cls_has k NL = false -> bounded b Q r ->
    bounded b Q (Re.StarLazy k :: r)
| B_star k r : Re.cls_has k b = false -> refuses b r -> bounded b Q r ->
    bounded b Q (Re.Star k :: r)
| B_bol r : bounded b Q r -> bounded b Q (Re.Bol :: r)
| B_eol r : bounded b Q r -> bounded b Q (Re.Eol :: r)
| B_wordb r : bounded b Q r -> bounded b Q (Re.Wordb :: r)
| B_open g r : bounded b Q r -> bounded b Q (Re.Open g :: r)
| B_close g r : bounded b Q r -> bounded b Q (Re.Close g :: r).

(** *** Where a match ends *)

(** Whenever the continuation returns a match, the match ends [n]
    characters further, within the text, and what is left satisfies [C]. *)
Definition lands (C : str -> Prop) (kont : Re.cont) : Prop :=
  forall prev suf pos cs e cs',
    kont prev suf pos cs = Some (e, cs') ->
    exists n, e = pos + n /\ n <= length suf /\ C (skipn n suf).

(** *** The version at the end of a line

    [\d+\.\d+\.\d+\s*$], the end of three of the script's patterns. *)
Definition ver_tail : Re.regex :=
  [Re.Plus Re.Digit; Re.Lit "."; Re.Plus Re.Digit; Re.Lit ".";
   Re.Plus Re.Digit; Re.Star Re.Space; Re.Eol].

(** *** The version line of the manifest *)

Definition not_dquote (c : ascii) : bool := negb (Ascii.eqb c DQUOTE).

(** The text of a version line, [version = Q<cur>Q] with any white space
    around the equals sign (Q the double quote), between [pre] and [post]. *)
Definition version_line (pre ws1 ws2 cur post : str) : str :=
  pre ++ lit "version" ++ ws1 ++ lit "=" ++ ws2
  ++ [DQUOTE] ++ cur ++ [DQUOTE] ++ post.

Definition version_line_ok (pre ws1 ws2 cur : str) : Prop :=
  line_start pre /\ all is_space ws1 /\ all is_space ws2
  /\ cur <> [] /\ all not_dquote cur.

(** [text] has a line matching [version = Q<value>Q]. *)
Definition has_version_line (text : str) : Prop :=
  exists pre ws1 ws2 cur post,
    text = version_line pre ws1 ws2 cur post
    /\ version_line_ok pre ws1 ws2 cur.

(** The first such line of [text], with its value [cur]. *)
Definition first_version_line (text pre ws1 ws2 cur post : str) : Prop :=
  text = version_line pre ws1 ws2 cur post
  /\ version_line_ok pre ws1 ws2 cur
  /\ forall pre' ws1' ws2' cur' post',
       text = version_line pre' ws1' ws2' cur' post' ->
       version_line_ok pre' ws1' ws2' cur' ->
       length pre <= length pre'.

(** The version line the script writes. *)
Definition new_version_line (V : str) : str :=
  lit "version = " ++ [DQUOTE] ++ V ++ [DQUOTE].

(** The end of the manifest pattern: the quoted value. *)
Definition value_tail : Re.regex :=
  [Re.Open 1; Re.Plus Re.NotDquote; Re.Close 1; Re.Lit DQUOTE].

Definition latest_prefix : str := lit "### Latest:".

(** *** The publishing checklist *)

(** [re.search] finds the pattern in the text. *)
Definition found (r : Re.regex) (text : str) : bool :=
  match Re.search r text with Some _ => true | None => false end.

(** One warning for each of the three patterns that the text does not
    match, in the order of the substitutions. *)
Definition expected_warnings (text : str) : list str :=
  (if found publishing_version_re text then [] else [warn_version])
  ++ (if found publishing_header_re text then [] else [warn_header])
  ++ (if found publishing_tag_re text then [] else [warn_tag]).

(** In the span [u] followed by [v], no line starts with [c0] after the
    first character of [u]. *)
Definition calm (c0 : ascii) (u v : str) : Prop :=
  forall o1 o2, u = o1 ++ o2 -> lastc None o1 = Some NL ->
    forall x rest, o2 ++ v = x :: rest -> x <> c0.

Definition quiet_end (c0 : ascii) (u v : str) : Prop :=
  calm c0 u v /\ Re.at_eol v = true.

(** Whenever the continuation returns a match, the characters it read and
    the text left satisfy [F]. *)
Definition settles (F : str -> str -> Prop) (kont : Re.cont) : Prop :=
  forall prev suf pos cs e cs',
    kont prev suf pos cs = Some (e, cs') ->
    exists n, e = pos + n /\ n <= length suf
              /\ F (firstn n suf) (skipn n suf).

(** Items that read no newline. *)
Definition line_item (i : Re.item) : bool :=
  match i with
  | Re.Lit c => negb (Ascii.eqb c NL)
  | Re.Cls k | Re.Star k | Re.Plus k | Re.StarLazy k => negb (Re.cls_has k NL)
  | _ => true
  end.

(** The continuation fails or not whatever the index and the groups. *)
Definition blind (kont : Re.cont) : Prop :=
  forall prev rest pos cs pos' cs',
    kont prev rest pos cs = None -> kont prev rest pos' cs' = None.

Definition not_nl (c : ascii) : bool := negb (Ascii.eqb c NL).

(** The literal starts of the three checklist lines. *)
Definition version_echo_prefix : str := lit "- [x] `extension.toml` version: ".
Definition header_prefix : str := lit "## Release Checklist for v".
Definition tag_prefix : str := lit "- [ ] Create git tag v".

(** A span without newline, followed by the end of a line. *)
Definition on_one_line (u v : str) : Prop :=
  all not_nl u /\ Re.at_eol v = true.

(** *** Steps without effect on the files or on the commands *)

(** The step leaves the files and the commands as they are, writes no
    file and runs no command (it may print). *)
Definition silent {A} (m : M A) : Prop :=
  forall w,
    files (snd (m w)) = files w
    /\ exec (snd (m w)) = exec w /\ capture (snd (m w)) = capture w
    /\ written (trace (snd (m w))) = written (trace w)
    /\ ran (trace (snd (m w))) = ran (trace w).

(** The step runs no command (it may write files). *)
Definition runs_nothing {A} (m : M A) : Prop :=
  forall w,
    exec (snd (m w)) = exec w /\ capture (snd (m w)) = capture w
    /\ ran (trace (snd (m w))) = ran (trace w).

(** Every command succeeds, whatever the files. *)
Definition commands_succeed (w : World) : Prop :=
  forall cmd fs, exec w cmd fs <> None.

(** *** Commands *)

Definition status_cmd : command := [lit "git"; lit "status"; lit "--porcelain"].

Definition add_cmd (p : path) : command := [lit "git"; lit "add"; lit "--"; p].

Definition commit_cmd (args : Args) : command :=
  [lit "git"; lit "commit"; lit "-m"; lit "Release v" ++ version args].

Definition push_commands (args : Args) : list command :=
  [[lit "git"; lit "push"; remote args; lit "HEAD"];
   [lit "git"; lit "push"; remote args; tag_name args]].

Definition test_commands : list command :=
  [[lit "cargo"; lit "test"; lit "--lib"];
   [lit "./test_extension.sh"];
   [lit "./test_clean_install.sh"]].

Definition cargo_build_cmd : command :=
  [lit "cargo"; lit "build"; lit "--release"; lit "--target";
   lit "wasm32-wasip1"].

Definition built_path (ROOT : str) : path :=
  path_join ROOT (lit "target/wasm32-wasip1/release/zed_css_variables.wasm").

(** The files of the status output that the run did not change. *)
Definition unrelated (changed : list path) (out : str) : list str :=
  filter (fun p => negb (mem p changed)) (status_files_of out).

(** The sample repository with a clean working tree: [git status
    --porcelain] prints nothing. *)
Definition clean_world : World :=
  {| files := sample_files;
     exec := fun _ fs => Some fs;
     capture := fun _ => Some [];
     trace := [] |}.


(** The sample repository with a changelog that has the section of 0.0.9
    already, the manifest being at 0.0.8. *)
Definition stale_world : World :=
  {| files := fun p =>
       if str_eqb p (lit "/repo/CHANGELOG.md")
       then Some (text_of ["# Changelog"; ""; "## 0.0.9"; ""; "- Fix crash"]%string)
       else sample_files p;
     exec := fun _ fs => Some fs;
     capture := fun _ => Some [];
     trace := [] |}.

(** *** The edits of a run *)

(** The world after [write_text]. *)
Definition wrote (p : path) (content : str) (w : World) : World :=
  {| files := fun q => if str_eqb q p then Some content else files w q;
     exec := exec w; capture := capture w;
     trace := trace w ++ [Wrote p content] |}.

(** The edits after the changelog: readme, publishing checklist, tests. *)
Definition later_edits (ROOT : str) (args : Args) (changed_files : list path)
    : M (list path) :=
  changed_files <- edit_readme ROOT args changed_files ;;
  changed_files <- edit_publishing ROOT args changed_files ;;
  edit_tests args (test_paths ROOT) changed_files.

(** *** The output of [git status --porcelain] *)

(** One entry of the output: the two status characters and the path. *)
Record status_entry := { st_x : ascii; st_y : ascii; st_path : str }.

Definition status_line (e : status_entry) : str :=
  st_x e :: st_y e :: " "%char :: st_path e.

Definition status_output (entries : list status_entry) : str :=
  flat_map (fun e => status_line e ++ [NL]) entries.

(** A status character is a blank or a visible character, and the two are
    not both blank; the path has no line break, is not empty and has no
    white space at either end. *)
Definition status_entry_ok (e : status_entry) : Prop :=
  (st_x e = " "%char \/ is_space (st_x e) = false)
  /\ (st_y e = " "%char \/ is_space (st_y e) = false)
  /\ (st_x e = " "%char -> is_space (st_y e) = false)
  /\ forallb (fun c => negb (is_linebreak c)) (st_path e) = true
  /\ st_path e <> [] /\ strip (st_path e) = st_path e.

(** What the script reads from one entry: the path when the first status
    character is visible; else the path without its first character, and
    nothing for a path of one character. *)
Definition status_read (e : status_entry) : list str :=
  if is_space (st_x e)
  then match st_path e with
       | _ :: c :: rest => [c :: rest]
       | _ => []
       end
  else [st_path e].

(** *** Where the changelog section goes *)

(** A newline followed by [##] and a white space character. *)
Definition heading_start (s : str) : Prop :=
  exists c post, s = NL :: "#"%char :: "#"%char :: c :: post
                 /\ is_space c = true.

(** [suf] is where the first such newline of [text] starts. *)
Definition first_heading_start (text pre suf : str) : Prop :=
  text = pre ++ suf /\ heading_start suf
  /\ forall p1 p2, pre = p1 ++ p2 -> p2 <> [] -> ~ heading_start (p2 ++ suf).

(** *** The commands of a run that returns *)



(** *** Fatal errors *)

(** When [m] ends with a fatal error, the last thing it has written is the
    line [error: <message>] on the standard error. *)
Definition reports_fatal {A} (m : M A) : Prop :=
  forall w msg, fst (m w) = Died msg ->
    exists evs, trace (snd (m w)) = evs ++ [Stderr (lit "error: " ++ msg)].

(** An outcome other than a fatal error. *)
Definition never_dies {A} (o : outcome A) : Prop := forall msg, o <> Died msg.

(* ===================================================================== *)
(** * Properties *)
(* ===================================================================== *)

(** ** Lists of characters *)

Lemma str_eqb_eq (a b : str) : str_eqb a b = true <-> a = b.
Proof.
  unfold str_eqb. destruct (list_eq_dec ascii_dec a b); split; congruence.
Qed.

Lemma str_eqb_refl (a : str) : str_eqb a a = true.
Proof. now apply str_eqb_eq. Qed.

Lemma str_eqb_neq (a b : str) : str_eqb a b = false <-> a <> b.
Proof.
  unfold str_eqb. destruct (list_eq_dec ascii_dec a b); split; congruence.
Qed.

Lemma lastc_app d u v : lastc d (u ++ v) = lastc (lastc d u) v.
Proof. unfold lastc. apply fold_left_app. Qed.

Lemma lastc_cons d c u : lastc d (c :: u) = lastc (Some c) u.
Proof. reflexivity. Qed.

Lemma lastc_snoc d u c : lastc d (u ++ [c]) = Some c.
Proof. now rewrite lastc_app. Qed.

Lemma lastc_nonempty d d' u : u <> [] -> lastc d u = lastc d' u.
Proof. destruct u as [|c u]; [congruence | reflexivity]. Qed.

Lemma take_drop_while p s : take_while p s ++ drop_while p s = s.
Proof.
  induction s as [|c s IH]; simpl; [reflexivity|].
  destruct (p c); simpl; [now rewrite IH | reflexivity].
Qed.

Lemma take_while_all p s : all p (take_while p s).
Proof.
  unfold all. induction s as [|c s IH]; simpl; [reflexivity|].
  destruct (p c) eqn:E; simpl; [now rewrite E | reflexivity].
Qed.

Lemma drop_while_stops p s : stops p (drop_while p s).
Proof.
  induction s as [|c s IH]; simpl; [exact I|].
  destruct (p c) eqn:E; simpl; [exact IH | exact E].
Qed.

Lemma take_while_app p u v :
  all p u -> stops p v -> take_while p (u ++ v) = u.
Proof.
  unfold all. induction u as [|c u IH]; simpl; intros Hu Hv.
  - destruct v as [|d v]; simpl in *; [reflexivity | now rewrite Hv].
  - apply andb_true_iff in Hu as [Hc Hu]. rewrite Hc. f_equal. now apply IH.
Qed.

Lemma drop_while_app p u v :
  all p u -> stops p v -> drop_while p (u ++ v) = v.
Proof.
  unfold all. induction u as [|c u IH]; simpl; intros Hu Hv.
  - destruct v as [|d v]; simpl in *; [reflexivity | now rewrite Hv].
  - apply andb_true_iff in Hu as [Hc Hu]. rewrite Hc. now apply IH.
Qed.

Lemma all_app p u v : all p (u ++ v) <-> all p u /\ all p v.
Proof. unfold all. rewrite forallb_app. apply andb_true_iff. Qed.

Lemma startswith_app s rest : startswith (s ++ rest) s = true.
Proof.
  induction s as [|c s IH]; simpl; [reflexivity|].
  now rewrite Ascii.eqb_refl, IH.
Qed.

Lemma startswith_split x s :
  startswith x s = true -> x = s ++ skipn (length s) x.
Proof.
  revert x. induction s as [|c s IH]; intros x H; simpl in *; [reflexivity|].
  destruct x as [|d x]; [discriminate|].
  apply andb_true_iff in H as [Hc H]. apply Ascii.eqb_eq in Hc. subst d.
  simpl. f_equal. now apply IH.
Qed.

Lemma startswith_iff x s :
  startswith x s = true <-> exists rest, x = s ++ rest.
Proof.
  split.
  - intros H. eexists. now apply startswith_split.
  - intros [rest ->]. apply startswith_app.
Qed.

Lemma skipn_app_exact {A} (u v : list A) : skipn (length u) (u ++ v) = v.
Proof. induction u; simpl; auto. Qed.

Lemma firstn_app_exact {A} (u v : list A) : firstn (length u) (u ++ v) = u.
Proof. induction u; simpl; [reflexivity | now f_equal]. Qed.

(** ** The matcher *)

Module ReFacts.
Import Re.

(** A literal string in front of a pattern. *)
Lemma matcher_lits s r prev x pos cs :
  matcher (lits s ++ r) prev x pos cs =
  if startswith x s
  then matcher r (lastc prev s) (skipn (length s) x) (pos + length s) cs
  else None.
Proof.
  revert prev x pos. induction s as [|c s IH]; intros prev x pos; simpl.
  - now rewrite Nat.add_0_r.
  - unfold one. destruct x as [|d x]; [reflexivity|].
    destruct (Ascii.eqb d c) eqn:E; simpl; [|reflexivity].
    apply Ascii.eqb_eq in E. subst d. rewrite IH.
    now rewrite Nat.add_succ_r.
Qed.

Lemma matcher_lits_app s r prev rest pos cs :
  matcher (lits s ++ r) prev (s ++ rest) pos cs =
  matcher r (lastc prev s) rest (pos + length s) cs.
Proof. now rewrite matcher_lits, startswith_app, skipn_app_exact. Qed.

Lemma greedy_commit k kont prev rest pos cs :
  fails_on (cls_has k) kont ->
  greedy k kont prev rest pos cs =
  kont (lastc prev (take_while (cls_has k) rest))
       (drop_while (cls_has k) rest)
       (pos + length (take_while (cls_has k) rest)) cs.
Proof.
  intros F. revert prev pos.
  induction rest as [|c rest IH]; intros prev pos; simpl.
  - now rewrite Nat.add_0_r.
  - destruct (cls_has k c) eqn:E; simpl.
    + rewrite IH. rewrite Nat.add_succ_r.
      destruct (kont _ _ _ _) eqn:K; [reflexivity|].
      now apply F.
    + now rewrite Nat.add_0_r.
Qed.

Lemma greedy_app k kont prev u rest pos cs :
  fails_on (cls_has k) kont -> all (cls_has k) u -> stops (cls_has k) rest ->
  greedy k kont prev (u ++ rest) pos cs =
  kont (lastc prev u) rest (pos + length u) cs.
Proof.
  intros F Hu Hr. rewrite greedy_commit by assumption.
  now rewrite take_while_app, drop_while_app.
Qed.

(** Greedy plus under the same condition. *)
Lemma plus_commit k kont prev rest pos cs :
  fails_on (cls_has k) kont ->
  one (cls_has k) (greedy k kont) prev rest pos cs =
  match take_while (cls_has k) rest with
  | [] => None
  | u => kont (lastc prev u) (drop_while (cls_has k) rest) (pos + length u) cs
  end.
Proof.
  intros F. unfold one. destruct rest as [|c rest]; simpl; [reflexivity|].
  destruct (cls_has k c) eqn:E; [|reflexivity].
  rewrite greedy_commit by assumption. now rewrite Nat.add_succ_r.
Qed.

Lemma plus_app k kont prev u rest pos cs :
  fails_on (cls_has k) kont -> all (cls_has k) u -> stops (cls_has k) rest ->
  u <> [] ->
  one (cls_has k) (greedy k kont) prev (u ++ rest) pos cs =
  kont (lastc prev u) rest (pos + length u) cs.
Proof.
  intros F Hu Hr Hne. rewrite plus_commit by assumption.
  rewrite take_while_app, drop_while_app by assumption.
  destruct u; [congruence | reflexivity].
Qed.

(** The trailing [\s*$]. *)
Lemma greedy_trail prev rest pos cs :
  greedy Space (matcher [Eol]) prev rest pos cs =
  match trail rest with
  | Some k => Some (pos + k, cs)
  | None => None
  end.
Proof.
  revert prev pos. induction rest as [|c rest IH]; intros prev pos.
  - simpl. unfold guard. simpl. now rewrite Nat.add_0_r.
  - cbn [greedy trail cls_has]. destruct (is_space c) eqn:E.
    + rewrite IH. destruct (trail rest) as [k|].
      * now rewrite Nat.add_succ_r.
      * cbn [matcher]. unfold guard.
        destruct (at_eol (c :: rest)); [now rewrite Nat.add_0_r | reflexivity].
    + cbn [matcher]. unfold guard.
      destruct (at_eol (c :: rest)); [now rewrite Nat.add_0_r | reflexivity].
Qed.

End ReFacts.

(** ** [re.search] *)

Module SearchFacts.
Import Re.

Lemma search_at_none r prev rest pos :
  search_at r prev rest pos = None <->
  forall u suf, rest = u ++ suf ->
    matcher r (lastc prev u) suf (pos + length u) no_caps = None.
Proof.
  revert prev pos. induction rest as [|c rest IH]; intros prev pos; simpl.
  - destruct (matcher r prev [] pos no_caps) as [[e cs]|] eqn:M.
    + split; [discriminate|]. intros H.
      specialize (H [] [] eq_refl). simpl in H. rewrite Nat.add_0_r in H.
      congruence.
    + split; [|reflexivity]. intros _ u suf E.
      symmetry in E. apply app_eq_nil in E as [-> ->]. simpl.
      now rewrite Nat.add_0_r.
  - destruct (matcher r prev (c :: rest) pos no_caps) as [[e cs]|] eqn:M.
    + split; [discriminate|]. intros H.
      specialize (H [] (c :: rest) eq_refl). simpl in H.
      rewrite Nat.add_0_r in H. congruence.
    + rewrite IH. split.
      * intros H u suf E. destruct u as [|d u]; simpl in *.
        -- subst suf. now rewrite Nat.add_0_r.
        -- injection E as -> ->. rewrite Nat.add_succ_r. now apply H.
      * intros H u suf ->. specialize (H (c :: u) suf eq_refl).
        simpl in H. now rewrite Nat.add_succ_r in H.
Qed.

Lemma search_at_found r prev u suf pos e cs :
  (forall u1 u2, u = u1 ++ u2 -> u2 <> [] ->
     matcher r (lastc prev u1) (u2 ++ suf) (pos + length u1) no_caps = None) ->
  matcher r (lastc prev u) suf (pos + length u) no_caps = Some (e, cs) ->
  search_at r prev (u ++ suf) pos =
  Some {| m_start := pos + length u; m_end := e; m_caps := cs |}.
Proof.
  revert prev pos. induction u as [|c u IH]; intros prev pos Hbefore Hm.
  - simpl in *. rewrite Nat.add_0_r in *.
    destruct suf; simpl; now rewrite Hm.
  - pose proof (Hbefore [] (c :: u) eq_refl ltac:(discriminate)) as H0.
    simpl in H0. rewrite Nat.add_0_r in H0. simpl. rewrite H0.
    simpl in Hm. rewrite Nat.add_succ_r in Hm.
    rewrite (IH (Some c) (S pos)).
    + simpl. now rewrite Nat.add_succ_r.
    + intros u1 u2 -> Hne. specialize (Hbefore (c :: u1) u2 eq_refl Hne).
      simpl in Hbefore. now rewrite Nat.add_succ_r in Hbefore.
    + exact Hm.
Qed.

Lemma search_at_some r prev rest pos m :
  search_at r prev rest pos = Some m ->
  exists u suf,
    rest = u ++ suf /\ m_start m = pos + length u
    /\ matcher r (lastc prev u) suf (pos + length u) no_caps
       = Some (m_end m, m_caps m)
    /\ (forall u1 u2, u = u1 ++ u2 -> u2 <> [] ->
          matcher r (lastc prev u1) (u2 ++ suf) (pos + length u1) no_caps = None).
Proof.
  revert prev pos. induction rest as [|c rest IH]; intros prev pos; simpl.
  - destruct (matcher r prev [] pos no_caps) as [[e cs]|] eqn:M; [|discriminate].
    intros [= <-]. exists [], []. simpl. rewrite Nat.add_0_r.
    repeat split; auto. intros u1 u2 E Hne.
    symmetry in E. apply app_eq_nil in E as [_ ->]. congruence.
  - destruct (matcher r prev (c :: rest) pos no_caps) as [[e cs]|] eqn:M.
    + intros [= <-]. exists [], (c :: rest). simpl. rewrite Nat.add_0_r.
      repeat split; auto. intros u1 u2 E Hne.
      symmetry in E. apply app_eq_nil in E as [_ ->]. congruence.
    + intros H. apply IH in H as (u & suf & -> & Hs & Hm & Hb).
      exists (c :: u), suf. simpl. rewrite Nat.add_succ_r.
      repeat split; auto.
      intros u1 u2 E Hne. destruct u1 as [|d u1]; simpl in *.
      * subst u2. now rewrite Nat.add_0_r.
      * injection E as -> ->. rewrite Nat.add_succ_r. now apply Hb.
Qed.

(** [re.search] finds the leftmost position where the pattern matches. *)
Lemma search_found r pre suf e cs :
  matches_at r pre suf e cs ->
  (forall p1 p2, pre = p1 ++ p2 -> p2 <> [] -> no_match_at r p1 (p2 ++ suf)) ->
  search r (pre ++ suf) =
  Some {| m_start := length pre; m_end := e; m_caps := cs |}.
Proof.
  intros Hm Hb. unfold search.
  now rewrite (@search_at_found r None pre suf 0 e cs).
Qed.

Lemma search_some r text m :
  search r text = Some m ->
  exists pre suf,
    text = pre ++ suf /\ m_start m = length pre
    /\ matches_at r pre suf (m_end m) (m_caps m)
    /\ (forall p1 p2, pre = p1 ++ p2 -> p2 <> [] -> no_match_at r p1 (p2 ++ suf)).
Proof.
  intros H. apply search_at_some in H as (u & suf & E & Hs & Hm & Hb).
  exists u, suf. repeat split; auto.
Qed.

Lemma search_none r text : search r text = None <-> no_match r text.
Proof. unfold search, no_match, no_match_at. now rewrite search_at_none. Qed.

End SearchFacts.

(** ** [re.subn] with [count=1] *)

Module SubFacts.
Import Re Template Sub.

Lemma subn_loop_done fuel r text ps prev rest pos :
  subn_loop fuel r text ps 1 1 prev rest pos = (rest, 1).
Proof. destruct fuel; reflexivity. Qed.

Lemma subn_loop_once fuel r text ps :
  subn_loop (S fuel) r text ps 1 0 None text 0 =
  match search r text with
  | None => (text, 0)
  | Some m => (firstn (m_start m) text ++ expand text m ps
               ++ skipn (m_end m) text, 1)
  end.
Proof.
  cbn [subn_loop]. simpl negb. cbn [andb Nat.leb]. unfold search.
  destruct (search_at r None text 0) as [m|]; [|reflexivity].
  rewrite !Nat.sub_0_r.
  destruct (m_end m =? m_start m) eqn:E.
  - apply Nat.eqb_eq in E. rewrite E.
    destruct (skipn (m_start m) text) as [|c rest'] eqn:K.
    + now rewrite app_nil_r.
    + rewrite subn_loop_done. now rewrite <- app_assoc.
  - rewrite subn_loop_done. now rewrite <- app_assoc.
Qed.

Lemma subn_once r repl text ps :
  compile_repl (ngroups r) repl = Ok ps ->
  subn r repl text 1 =
  Ok match search r text with
     | None => (text, 0)
     | Some m => (firstn (m_start m) text ++ expand text m ps
                  ++ skipn (m_end m) text, 1)
     end.
Proof.
  intros H. unfold subn. rewrite H. cbn [obind]. now rewrite subn_loop_once.
Qed.

(** With [count=0], a text without a match comes back as it is. *)
Lemma subn_loop_no_match fuel r text ps count prev rest pos :
  search_at r prev rest pos = None ->
  subn_loop fuel r text ps count 0 prev rest pos = (rest, 0).
Proof.
  intros H. destruct fuel; [reflexivity|]. cbn [subn_loop].
  rewrite H. now destruct (negb (count =? 0) && (count <=? 0)).
Qed.

Lemma compile_repl_plain groups repl :
  existsb (Ascii.eqb BACKSLASH) repl = false ->
  compile_repl groups repl = Ok (map Chr repl).
Proof. intros H. unfold compile_repl. now rewrite H. Qed.

Lemma expand_plain text m repl : expand text m (map Chr repl) = repl.
Proof.
  unfold expand. induction repl as [|c repl IH]; simpl; [reflexivity|].
  now rewrite IH.
Qed.

(** A replacement without backslash, [count=1]. *)
Lemma subn_once_plain r repl text :
  existsb (Ascii.eqb BACKSLASH) repl = false ->
  subn r repl text 1 =
  Ok match search r text with
     | None => (text, 0)
     | Some m => (firstn (m_start m) text ++ repl ++ skipn (m_end m) text, 1)
     end.
Proof.
  intros H. rewrite (@subn_once r repl text (map Chr repl)).
  - destruct (search r text); [now rewrite expand_plain | reflexivity].
  - now apply compile_repl_plain.
Qed.

End SubFacts.

(** ** Characters of a version *)

Ltac each_char c :=
  destruct c as [[] [] [] [] [] [] [] []]; try reflexivity; try discriminate.

Lemma digit_not_space c : is_digit c = true -> is_space c = false.
Proof. each_char c. Qed.

Lemma digit_not_nl c : is_digit c = true -> Ascii.eqb c NL = false.
Proof. each_char c. Qed.

Lemma digit_not_dot c : is_digit c = true -> Ascii.eqb c "." = false.
Proof. each_char c. Qed.

Lemma digit_not_dquote c : is_digit c = true -> Ascii.eqb c DQUOTE = false.
Proof. each_char c. Qed.

Lemma digit_not_backslash c : is_digit c = true -> Ascii.eqb BACKSLASH c = false.
Proof. each_char c. Qed.

Lemma digit_is_word c : is_digit c = true -> is_word c = true.
Proof. each_char c. Qed.

Lemma space_not_nl_stop c : is_space c = false -> Ascii.eqb c NL = false.
Proof. each_char c. Qed.

(** The characters of a version: digits and dots. *)
Lemma version3_chars v :
  version3 v -> all (fun c => is_digit c || Ascii.eqb c ".") v.
Proof.
  intros (a & b & c & -> & [_ Ha] & [_ Hb] & [_ Hc]).
  assert (W : forall s, all is_digit s ->
                        all (fun c => is_digit c || Ascii.eqb c ".") s).
  { unfold all. intros s H. rewrite forallb_forall in *. intros x Hx.
    now rewrite (H x Hx). }
  repeat (apply all_app; split); auto; reflexivity.
Qed.

Lemma all_impl (p q : ascii -> bool) s :
  (forall c, p c = true -> q c = true) -> all p s -> all q s.
Proof.
  unfold all. rewrite !forallb_forall. intros I H x Hx. auto.
Qed.

Lemma all_none (p q : ascii -> bool) s :
  (forall c, p c = true -> q c = false) -> all p s -> existsb q s = false.
Proof.
  unfold all. intros I H. induction s as [|c s IH]; simpl in *; [reflexivity|].
  apply andb_true_iff in H as [Hc Hs]. now rewrite (I c Hc), IH.
Qed.

Lemma version3_no_backslash v :
  version3 v -> existsb (Ascii.eqb BACKSLASH) v = false.
Proof.
  intros H. apply version3_chars in H. revert H. apply all_none.
  intros c. each_char c.
Qed.

(** ** [str.strip] *)

Lemma lstrip_nonspace u c v :
  is_space c = false -> lstrip (u ++ c :: v) = lstrip u ++ c :: v.
Proof.
  intros Hc. induction u as [|d u IH]; simpl.
  - now rewrite Hc.
  - destruct (is_space d); [exact IH | reflexivity].
Qed.

Lemma lstrip_idem s : lstrip (lstrip s) = lstrip s.
Proof.
  induction s as [|c s IH]; simpl; [reflexivity|].
  destruct (is_space c) eqn:E; [exact IH | simpl; now rewrite E].
Qed.

Lemma rstrip_idem s : rstrip (rstrip s) = rstrip s.
Proof. unfold rstrip. now rewrite rev_involutive, lstrip_idem. Qed.

Lemma rstrip_cons c s : is_space c = false -> rstrip (c :: s) = c :: rstrip s.
Proof.
  intros Hc. unfold rstrip. simpl.
  rewrite lstrip_nonspace by assumption. rewrite rev_app_distr. reflexivity.
Qed.

Lemma lstrip_stops s : stops is_space (lstrip s).
Proof.
  induction s as [|c s IH]; simpl; [exact I|].
  destruct (is_space c) eqn:E; [exact IH | exact E].
Qed.

Lemma lstrip_fix s : stops is_space s -> lstrip s = s.
Proof. destruct s as [|c s]; simpl; [reflexivity | now intros ->]. Qed.

Lemma strip_idem s : strip (strip s) = strip s.
Proof.
  unfold strip. pose proof (lstrip_stops s) as H.
  destruct (lstrip s) as [|c t]; [reflexivity|]. simpl in H.
  rewrite rstrip_cons by assumption.
  rewrite lstrip_fix by exact H.
  rewrite rstrip_cons by assumption. now rewrite rstrip_idem.
Qed.

Lemma filter_map_swap {A B} (f : A -> B) (p : B -> bool) l :
  filter p (map f l) = map f (filter (fun x => p (f x)) l).
Proof.
  induction l as [|a l IH]; simpl; [reflexivity|].
  destruct (p (f a)); simpl; now rewrite IH.
Qed.

(** ** Notes: claim C4 *)

(** What [parse_notes] cleans is the combined list of the notes. *)
Lemma cleaned_is_combined notes content :
  map strip (filter (fun n => nonempty (strip n)) (notes ++ notes_of_file content))
  = filter nonempty
      (map strip (notes ++
         filter (fun l => negb (blank_line l) && negb (comment_line l))
                (splitlines content))).
Proof.
  rewrite <- filter_map_swap. f_equal. rewrite !map_app. f_equal.
  unfold notes_of_file. rewrite filter_map_swap, map_map.
  rewrite (filter_ext _ (fun l => negb (blank_line l) && negb (comment_line l))).
  - apply map_ext. intros l. apply strip_idem.
  - intros l. unfold blank_line, comment_line. now rewrite negb_involutive.
Qed.

Lemma parse_notes_cleaned args w notes :
  combined_notes args w = Some notes ->
  parse_notes args w =
  match notes with
  | [] => if negb (allow_empty_notes args)
          then die (lit "provide --note/--notes-file or pass --allow-empty-notes") w
          else (Ok [placeholder_note], w)
  | c :: l => (Ok (c :: l), w)
  end.
Proof.
  unfold combined_notes, named_notes_file, parse_notes.
  destruct (notes_file args) as [[|c f]|].
  - intros [= <-]. unfold bind, ret. rewrite <- filter_map_swap.
    destruct (filter nonempty (map strip (note args ++ []))) eqn:E;
      rewrite app_nil_r in E; rewrite E; [|reflexivity].
    now destruct (allow_empty_notes args).
  - destruct (files w (c :: f)) as [content|] eqn:F; [|discriminate].
    intros [= <-]. unfold bind at 1. unfold bind at 1. unfold path_exists.
    rewrite F. cbn [negb]. unfold bind at 1. unfold read_text. rewrite F.
    unfold ret at 1. rewrite cleaned_is_combined.
    destruct (filter nonempty _); [|reflexivity].
    now destruct (allow_empty_notes args).
  - intros [= <-]. unfold bind, ret. rewrite <- filter_map_swap.
    destruct (filter nonempty (map strip (note args ++ []))) eqn:E;
      rewrite app_nil_r in E; rewrite E; [|reflexivity].
    now destruct (allow_empty_notes args).
Qed.

(** A notes file that is named and does not exist stops the run. *)
Lemma parse_notes_missing_file args w :
  combined_notes args w = None ->
  exists msg, fst (parse_notes args w) = Died msg.
Proof.
  unfold combined_notes, named_notes_file, parse_notes.
  destruct (notes_file args) as [[|c f]|]; try discriminate.
  destruct (files w (c :: f)) eqn:F; [discriminate|]. intros _.
  unfold bind at 1. unfold bind at 1. unfold path_exists. rewrite F.
  cbn [negb]. eexists. reflexivity.
Qed.

(** C4.  When the combined list of trimmed, non-empty notes is empty,
    [parse_notes] stops the run if [--allow-empty-notes] is not set, and
    returns exactly the one placeholder note if it is set. *)
Theorem parse_notes_empty args w :
  combined_notes args w = Some [] ->
  (allow_empty_notes args = false ->
     fst (parse_notes args w)
     = Died (lit "provide --note/--notes-file or pass --allow-empty-notes"))
  /\ (allow_empty_notes args = true ->
        fst (parse_notes args w) = Ok [placeholder_note]).
Proof.
  intros E. rewrite (parse_notes_cleaned _ _ E). split; intros A; now rewrite A.
Qed.

(** ** Tags: claim C7 *)

Lemma written_app a b : written (a ++ b) = written a ++ written b.
Proof. unfold written. now rewrite flat_map_app. Qed.

Lemma ran_app a b : ran (a ++ b) = ran a ++ ran b.
Proof. unfold ran. now rewrite flat_map_app. Qed.

(** C7.  With [--tag], when [git tag --list v<version>] prints something
    other than white space the run stops with a fatal error and runs no
    command, so no tag is created; when it prints nothing, [git tag
    v<version>] is run (and, the command succeeding, the step returns). *)
Theorem tag_step_guard args w out :
  tag args = true ->
  capture w (tag_list_cmd args) = Some out ->
  (strip out <> [] ->
     fst (tag_step args w)
     = Died (lit "git tag already exists: " ++ tag_name args)
     /\ ran (trace (snd (tag_step args w))) = ran (trace w))
  /\ (strip out = [] ->
      forall fs, exec w (tag_create_cmd args) (files w) = Some fs ->
        fst (tag_step args w) = Ok tt
        /\ ran (trace (snd (tag_step args w)))
           = ran (trace w) ++ [tag_create_cmd args]).
Proof.
  intros T C.
  assert (Q : tag_step args w =
              if nonempty (strip out)
              then die (lit "git tag already exists: " ++ tag_name args) w
              else run (tag_create_cmd args) w).
  { unfold tag_step. rewrite T. cbn [when]. unfold git_tag.
    fold (tag_name args). unfold bind at 1, run_stdout.
    fold (tag_list_cmd args). rewrite C.
    now destruct (nonempty (strip out)). }
  rewrite Q. split.
  - intros N. destruct (strip out) as [|c s]; [congruence|].
    cbn [nonempty]. split; [reflexivity|].
    unfold die, bind, log, lift. cbn [snd trace]. rewrite ran_app.
    apply app_nil_r.
  - intros E fs X. rewrite E. cbn [nonempty]. unfold run. rewrite X.
    split; [reflexivity|]. cbn [snd trace]. now rewrite ran_app.
Qed.

(** ** Commit: claim C1 *)

(** The guard of the commit step compares the paths of [changed_files] with
    what it reads on the lines of [git status]: when none of the reported
    names is a member of [changed_files], the run stops. *)
Lemma commit_step_stops args changed w out :
  commit args = true -> allow_dirty args = false ->
  capture w [lit "git"; lit "status"; lit "--porcelain"] = Some out ->
  status_files_of out <> [] ->
  (forall p, In p (status_files_of out) -> mem p changed = false) ->
  exists msg, fst (commit_step args changed w) = Died msg
              /\ ran (trace (snd (commit_step args changed w))) = ran (trace w).
Proof.
  intros Hc Hd Hout Hne Hall.
  assert (F : filter (fun p : str => negb (mem p changed)) (status_files_of out)
              = status_files_of out).
  { apply forallb_filter_id. apply forallb_forall. intros p Hp.
    now rewrite (Hall p Hp). }
  assert (Q : commit_step args changed w =
              die (lit "working tree has unrelated changes: "
                   ++ join (lit ", ") (status_files_of out)) w).
  { unfold commit_step. rewrite Hc, Hd.
    cbn [when negb]. unfold bind at 1. unfold git_status_files.
    unfold bind at 1. unfold run_stdout. rewrite Hout. unfold ret at 1.
    fold (status_files_of out). rewrite F.
    destruct (status_files_of out) as [|f fs]; [congruence|].
    cbn [nonempty_list andb when]. unfold bind at 1. reflexivity. }
  rewrite Q. eexists. split; [reflexivity|].
  unfold die, bind, log, lift. cbn [snd trace]. rewrite ran_app.
  apply app_nil_r.
Qed.

(** C1, at a failing input.  The run edits [extension.toml] and
    [CHANGELOG.md] and nothing else has changed in the working tree, so that
    [git status --porcelain] reports exactly these two files; with [--commit]
    and without [--allow-dirty] the run stops at the guard and runs neither
    [git add] nor [git commit]. *)
Theorem commit_stops_on_own_changes :
  let r := main (lit "/repo") (with_commit sample_args) sample_world in
  status_files_of (text_of [" M CHANGELOG.md"; " M extension.toml"]%string)
  = [lit "HANGELOG.md"; lit "xtension.toml"]
  /\ written (trace (snd r))
     = [lit "/repo/extension.toml"; lit "/repo/CHANGELOG.md"]
  /\ fst r
     = Died (lit "working tree has unrelated changes: HANGELOG.md, xtension.toml")
  /\ ran (trace (snd r)) = [].
Proof. vm_compute. repeat split. Qed.

(** ** Changelog on a text whose first line is a heading: claim C2 *)

(** C2, at a failing input.  The changelog starts with the heading of
    version 0.0.8, on its first line; it holds no heading for 0.0.9.  The new
    section is not placed before that heading but appended at the end, after
    the older release. *)
Theorem insert_changelog_first_line_heading :
  insert_changelog_text
    (text_of ["## 0.0.8"; ""; "- Initial release"]%string)
    (lit "0.0.9") [lit "Fix crash"]
  = Ok (text_of ["## 0.0.8"; ""; "- Initial release"]%string,
        text_of ["## 0.0.8"; ""; "- Initial release";
                 "## 0.0.9"; ""; "- Fix crash"; ""]%string).
Proof. vm_compute. reflexivity. Qed.

(** ** The replacement template of the test scripts: claim C5 *)

(** A backslash, [1], one more digit and a character that is no octal digit
    read as the group with the two-digit number. *)
Lemma parse_template_two_digits fuel groups d tail :
  is_digit d = true ->
  Template.parse_template (S fuel) groups
    (BACKSLASH :: "1"%char :: d :: "."%char :: tail)
  = Template.addgroup groups (10 * Template.digit_val "1" + Template.digit_val d)
      (Template.parse_template fuel groups ("."%char :: tail)).
Proof.
  intros D.
  cbv beta iota delta [Template.parse_template]. fold Template.parse_template.
  cbv beta iota zeta.
  change (negb (Ascii.eqb BACKSLASH BACKSLASH)) with false. cbv iota.
  change (code "1" =? 103) with false. change (code "1" =? 48) with false.
  change (is_digit "1") with true. cbv iota. rewrite D.
  change (is_octdigit ".") with false. rewrite !andb_false_r.
  reflexivity.
Qed.

(** With a version whose first component is one digit, the template
    [\1{version}\3] reads as a reference to group 10 to 19, which the pattern
    does not have: [re.subn] raises before it looks at the text. *)
Lemma update_test_version_checks_raises text d tail :
  is_digit d = true ->
  update_test_version_checks_text text (d :: lit "." ++ tail)
  = Raised (ReError "invalid group reference").
Proof.
  intros D. unfold update_test_version_checks_text, Sub.subn, Sub.compile_repl.
  change ([BACKSLASH] ++ lit "1" ++ (d :: lit "." ++ tail)
          ++ [BACKSLASH] ++ lit "3")
    with (BACKSLASH :: "1"%char :: d :: "."%char
          :: (tail ++ [BACKSLASH] ++ lit "3")).
  cbn [existsb]. rewrite Ascii.eqb_refl. cbn [orb].
  rewrite parse_template_two_digits by assumption.
  unfold Template.addgroup.
  replace (Sub.ngroups grep_version_re <? _) with true; [reflexivity|].
  symmetry. apply Nat.ltb_lt. change (Sub.ngroups grep_version_re) with 3.
  change (Template.digit_val "1") with 1. lia.
Qed.

(** C5, at a failing input.  For version 0.0.9, whatever the text,
    [update_test_version_checks] ends with an exception. *)
Theorem update_test_version_checks_0_0_9 text :
  update_test_version_checks_text text (lit "0.0.9")
  = Raised (ReError "invalid group reference").
Proof. now apply (@update_test_version_checks_raises text "0" (lit "0.9")). Qed.

(** ** Sample runs *)

Lemma parse_notes_empty_witness :
  let args := {| version := lit "0.0.9"; note := [lit "  "];
                 notes_file := None; allow_empty_notes := true;
                 build := false; run_tests_flag := false; commit := false;
                 tag := false; push := false; remote := lit "origin";
                 allow_dirty := false |} in
  combined_notes args sample_world = Some []
  /\ allow_empty_notes args = true
  /\ fst (parse_notes args sample_world) = Ok [placeholder_note].
Proof.
  intros args. split; [reflexivity|]. split; [reflexivity|].
  exact (proj2 (@parse_notes_empty args sample_world eq_refl) eq_refl).
Defined.

Lemma tag_step_guard_witness :
  tag (with_tag sample_args) = true
  /\ capture sample_world (tag_list_cmd (with_tag sample_args)) = Some []
  /\ fst (tag_step (with_tag sample_args) sample_world) = Ok tt.
Proof.
  split; [reflexivity|]. split; [reflexivity|].
  apply (proj2 (@tag_step_guard (with_tag sample_args) sample_world []
                  eq_refl eq_refl) eq_refl (files sample_world) eq_refl).
Defined.

(** ** Files that come out unchanged: claim C6 *)

Section Frames.

Variable ROOT : str.

Lemma framed_weaken T T' changed w r :
  incl T T' -> (forall q, In q (map fst T) -> In q (map fst T')) ->
  framed T changed w r -> framed T' changed w r.
Proof.
  intros I I' (A & (evs & E & B) & C). repeat split.
  - intros q Hq. apply A. intros H. apply Hq. now apply I'.
  - exists evs. split; [exact E|]. intros q c H.
    destruct (B q c H) as (f & Hf & He). exists f. split; auto.
  - intros ch H. destruct (C ch H) as (l & -> & Hl). exists l. split; auto.
    intros q Hq. destruct (Hl q Hq) as (f & Hf & He). exists f. split; auto.
Qed.

(** A step that writes nothing and returns no list. *)
Lemma framed_quiet T changed w (o : outcome (list path)) w' evs :
  files w' = files w -> trace w' = trace w ++ evs ->
  (forall q c, ~ In (Wrote q c) evs) ->
  (forall ch, o = Ok ch -> ch = changed) ->
  framed T changed w (o, w').
Proof.
  intros F E N O. repeat split; cbn [fst snd].
  - intros q _. now rewrite F.
  - exists evs. split; [exact E|]. intros q c H. now apply N in H.
  - intros ch H. exists []. rewrite app_nil_r. split; [now apply O|].
    intros q [].
Qed.

Lemma framed_die T changed w msg :
  framed T changed w (die msg w).
Proof.
  apply framed_quiet with (evs := [Stderr (lit "error: " ++ msg)]);
    try reflexivity.
  - intros q c [H|[]]. discriminate.
  - intros ch H. discriminate.
Qed.

Lemma framed_write_if p f cond after changed w :
  (cond = true -> edits f (files w p)) ->
  framed [(p, f)] changed w (write_if cond p after changed w).
Proof.
  intros Hc. unfold write_if. destruct cond.
  - specialize (Hc eq_refl). unfold bind, write_text, ret.
    repeat split; cbn [fst snd files trace].
    + intros q Hq. destruct (str_eqb q p) eqn:E; [|reflexivity].
      apply str_eqb_eq in E. subst q. exfalso. apply Hq. now left.
    + exists [Wrote p after]. split; [reflexivity|].
      intros q c [H|[]]. injection H as <- <-. exists f. split; [now left|auto].
    + intros ch [= <-]. exists [p]. split; [reflexivity|].
      intros q [<-|[]]. exists f. split; [now left|auto].
  - apply framed_quiet with (evs := []); auto.
    + now rewrite app_nil_r.
    + intros ch [= <-]. reflexivity.
Qed.

(** Two steps in a row, on different targets. *)
Lemma framed_bind T1 T2 (m1 : M (list path)) (m2 : list path -> M (list path))
    changed w :
  framed T1 changed w (m1 w) -> frame T2 m2 ->
  (forall q, In q (map fst T2) -> ~ In q (map fst T1)) ->
  framed (T1 ++ T2) changed w (bind m1 m2 w).
Proof.
  intros H1 F2 D. unfold bind.
  destruct (m1 w) as [[ch1| |] w1] eqn:E1.
  2, 3: apply framed_weaken with (T := T1);
    [ intros x Hx; apply in_or_app; now left
    | intros q Hq; rewrite map_app; apply in_or_app; now left
    | exact H1 ].
  destruct H1 as (A1 & (evs1 & Ev1 & B1) & C1). cbn [fst snd] in *.
  destruct (C1 ch1 eq_refl) as (l1 & -> & L1).
  pose proof (F2 (changed ++ l1) w1) as (A2 & (evs2 & Ev2 & B2) & C2).
  assert (K : forall q f, In (q, f) T2 -> files w1 q = files w q).
  { intros q f H. apply A1. apply D. apply in_map_iff. now exists (q, f). }
  repeat split.
  - intros q Hq. rewrite map_app in Hq. rewrite A2, A1; auto.
    + intros H. apply Hq. apply in_or_app. now left.
    + intros H. apply Hq. apply in_or_app. now right.
  - exists (evs1 ++ evs2). split; [now rewrite Ev2, Ev1, app_assoc|].
    intros q c H. apply in_app_or in H as [H|H].
    + destruct (B1 q c H) as (f & Hf & He). exists f. split; auto.
      apply in_or_app. now left.
    + destruct (B2 q c H) as (f & Hf & He). exists f. split.
      * apply in_or_app. now right.
      * now rewrite <- (K q f Hf).
  - intros ch H. destruct (C2 ch H) as (l2 & -> & L2).
    exists (l1 ++ l2). split; [now rewrite app_assoc|].
    intros q Hq. apply in_app_or in Hq as [Hq|Hq].
    + destruct (L1 q Hq) as (f & Hf & He). exists f. split; auto.
      apply in_or_app. now left.
    + destruct (L2 q Hq) as (f & Hf & He). exists f. split.
      * apply in_or_app. now right.
      * now rewrite <- (K q f Hf).
Qed.

Lemma framed_bind_quiet T (m1 : M (list path)) (m2 : list path -> M (list path))
    changed w :
  framed T changed w (m1 w) -> frame [] m2 ->
  framed T changed w (bind m1 m2 w).
Proof.
  intros H1 F2. rewrite <- (app_nil_r T). apply framed_bind; auto.
Qed.

Lemma frame_bind T1 T2 m1 (m2 : list path -> M (list path)) :
  frame T1 m1 -> frame T2 m2 ->
  (forall q, In q (map fst T2) -> ~ In q (map fst T1)) ->
  frame (T1 ++ T2) (fun changed => bind (m1 changed) m2).
Proof.
  intros F1 F2 D changed w. apply framed_bind; auto.
Qed.

Lemma frame_ret : frame [] (fun changed => ret changed).
Proof.
  intros changed w. apply framed_quiet with (evs := []); auto.
  - now rewrite app_nil_r.
  - intros ch [= <-]. reflexivity.
Qed.

Ltac quiet evs0 :=
  apply framed_quiet with (evs := evs0);
  [ reflexivity
  | cbn [trace]; try reflexivity; now rewrite app_nil_r
  | intros ? ? HH; simpl in HH; intuition discriminate
  | intros ? HH; try discriminate; try (now injection HH as <-) ].

Lemma cond_edits (f : transformation) w p text b a (extra : bool) :
  files w p = Some text -> f text = Ok (b, a) ->
  extra && negb (str_eqb b a) = true -> edits f (files w p).
Proof.
  intros F T C text' b' a' F' T'. rewrite F in F'. injection F' as <-.
  rewrite T in T'. injection T' as <- <-.
  apply andb_true_iff in C as [_ C]. apply negb_true_iff in C.
  now apply str_eqb_neq.
Qed.

Lemma frame_manifest args :
  frame [(ext_path ROOT,
          fun t => update_extension_toml_text t (version args))]
        (edit_manifest ROOT args).
Proof.
  intros changed w. unfold edit_manifest, update_extension_toml.
  unfold bind at 1. unfold bind at 1. unfold read_text.
  destruct (files w (ext_path ROOT)) as [text|] eqn:F.
  2: { quiet [Stderr (lit "error: " ++ lit "missing required file: "
                       ++ ext_path ROOT)]. }
  destruct (update_extension_toml_text text (version args))
    as [[b a]|msg|e] eqn:T.
  - unfold lift. apply framed_write_if. intros C.
    apply (@cond_edits _ w _ text b a true F T). exact C.
  - quiet [Stderr (lit "error: " ++ msg)].
  - unfold lift. quiet (@nil event).
Qed.

Lemma frame_changelog args notes :
  frame [(changelog_path ROOT,
          fun t => insert_changelog_text t (version args) notes)]
        (edit_changelog ROOT args notes).
Proof.
  intros changed w. unfold edit_changelog, insert_changelog.
  unfold bind at 1. unfold bind at 1. unfold read_text.
  destruct (files w (changelog_path ROOT)) as [text|] eqn:F.
  2: { quiet [Stderr (lit "error: " ++ lit "missing required file: "
                       ++ changelog_path ROOT)]. }
  destruct (insert_changelog_text text (version args) notes)
    as [[b a]|msg|e] eqn:T.
  - unfold lift. apply framed_write_if. intros C.
    apply (@cond_edits _ w _ text b a true F T). exact C.
  - quiet [Stderr (lit "error: " ++ msg)].
  - unfold lift. quiet (@nil event).
Qed.

Lemma frame_readme args :
  frame [(readme_path ROOT,
          fun t => drop_flag (replace_latest_readme_text t (version args)))]
        (edit_readme ROOT args).
Proof.
  intros changed w. unfold edit_readme, replace_latest_readme.
  unfold bind at 1. unfold path_exists.
  destruct (files w (readme_path ROOT)) as [text|] eqn:F.
  2: { unfold ret. quiet (@nil event). }
  unfold bind at 1. unfold bind at 1. unfold read_text. rewrite F.
  unfold lift.
  destruct (replace_latest_readme_text text (version args))
    as [[[b a] u]|msg|e] eqn:T.
  - apply framed_write_if. intros C.
    apply (@cond_edits _ w _ text b a u F); [|exact C].
    unfold drop_flag. now rewrite T.
  - quiet (@nil event).
  - quiet (@nil event).
Qed.

Lemma frame_test args p :
  frame [(p, fun t => drop_flag
                        (update_test_version_checks_text t (version args)))]
        (edit_test args p).
Proof.
  intros changed w. unfold edit_test, update_test_version_checks.
  unfold bind at 1. unfold path_exists.
  destruct (files w p) as [text|] eqn:F.
  2: { unfold ret. quiet (@nil event). }
  unfold bind at 1. unfold bind at 1. unfold read_text. rewrite F.
  unfold lift.
  destruct (update_test_version_checks_text text (version args))
    as [[[b a] u]|msg|e] eqn:T.
  - apply framed_write_if. intros C.
    apply (@cond_edits _ w _ text b a u F); [|exact C].
    unfold drop_flag. now rewrite T.
  - quiet (@nil event).
  - quiet (@nil event).
Qed.

Lemma for_each_warnings (ws : list str) w :
  for_each ws (fun warning => log (Stderr (lit "warning: " ++ warning))) w
  = (Ok tt,
     {| files := files w; exec := exec w; capture := capture w;
        trace := trace w
                 ++ map (fun warning => Stderr (lit "warning: " ++ warning)) ws |}).
Proof.
  revert w. induction ws as [|x ws IH]; intros w; cbn [for_each map].
  - unfold ret. rewrite app_nil_r. now destruct w.
  - unfold bind, log. rewrite IH. cbn [files exec capture trace].
    now rewrite <- app_assoc.
Qed.

Lemma frame_warnings (ws : list str) :
  frame [] (fun changed =>
    for_each ws (fun warning => log (Stderr (lit "warning: " ++ warning))) ;;;
    ret changed).
Proof.
  intros changed w. unfold bind. rewrite for_each_warnings. unfold ret.
  apply framed_quiet
    with (evs := map (fun warning => Stderr (lit "warning: " ++ warning)) ws);
    try reflexivity.
  - intros q c H. apply in_map_iff in H as (x & Hx & _). discriminate.
  - now intros ch [= <-].
Qed.

Lemma frame_publishing args :
  frame [(publishing_path ROOT,
          fun t => drop_flag (update_publishing_text t (version args)))]
        (edit_publishing ROOT args).
Proof.
  intros changed w. unfold edit_publishing, update_publishing.
  unfold bind at 1. unfold path_exists.
  destruct (files w (publishing_path ROOT)) as [text|] eqn:F.
  2: { unfold ret. quiet (@nil event). }
  unfold bind at 1. unfold bind at 1. unfold read_text. rewrite F.
  unfold lift.
  destruct (update_publishing_text text (version args))
    as [[[b a] ws]|msg|e] eqn:T.
  - apply framed_bind_quiet.
    + apply framed_write_if. intros C.
      apply (@cond_edits _ w _ text b a true F); [|exact C].
      unfold drop_flag. now rewrite T.
    + apply frame_warnings.
  - quiet (@nil event).
  - quiet (@nil event).
Qed.

Lemma frame_tests args ps :
  NoDup ps ->
  frame (map (fun p =>
                (p, fun t => drop_flag
                      (update_test_version_checks_text t (version args)))) ps)
        (edit_tests args ps).
Proof.
  induction ps as [|p ps IH]; intros N; cbn [map edit_tests].
  - apply frame_ret.
  - inversion N as [|? ? Hp Hps]; subst.
    apply (@frame_bind [_] _ (edit_test args p) (edit_tests args ps)).
    + apply frame_test.
    + now apply IH.
    + intros q Hq [<-|[]]. apply Hp. rewrite map_map in Hq.
      cbn [fst] in Hq. now rewrite map_id in Hq.
Qed.

End Frames.

Lemma path_join_inj root a b : path_join root a = path_join root b -> a = b.
Proof.
  unfold path_join. destruct (str_eqb root (lit "/")); intros H.
  - now apply app_inv_head in H.
  - apply app_inv_head in H. now apply app_inv_head in H.
Qed.

Ltac other_path :=
  match goal with
  | H : path_join _ _ = path_join _ _ |- _ =>
      apply path_join_inj in H; discriminate H
  end.

Lemma target_paths_distinct ROOT args notes :
  NoDup (map fst (targets ROOT args notes)).
Proof.
  unfold targets, test_paths, ext_path, changelog_path, readme_path,
    publishing_path.
  cbn [map fst app].
  repeat (apply NoDup_cons;
          [ cbn [In]; intros H;
            repeat (destruct H as [H|H]; [other_path|]); exact H | ]).
  apply NoDup_nil.
Qed.

Lemma test_paths_distinct ROOT : NoDup (test_paths ROOT).
Proof.
  unfold test_paths.
  repeat (apply NoDup_cons;
          [ cbn [In]; intros H;
            repeat (destruct H as [H|H]; [other_path|]); exact H | ]).
  apply NoDup_nil.
Qed.

Lemma nodup_fst_functional {A B} (T : list (A * B)) p f f' :
  NoDup (map fst T) -> In (p, f) T -> In (p, f') T -> f = f'.
Proof.
  induction T as [|[q g] T IH]; cbn [map fst]; intros N H H'; [destruct H|].
  inversion N as [|? ? Hq HT]; subst.
  destruct H as [H|H], H' as [H'|H'].
  - congruence.
  - injection H as -> ->. exfalso. apply Hq. apply in_map_iff.
    now exists (p, f').
  - injection H' as -> ->. exfalso. apply Hq. apply in_map_iff.
    now exists (p, f).
  - now apply IH.
Qed.

Lemma in_written p evs : In p (written evs) <-> exists c, In (Wrote p c) evs.
Proof.
  unfold written. rewrite in_flat_map. split.
  - intros ([q c| | |] & H & Hp); cbn in Hp; try contradiction.
    destruct Hp as [<-|[]]. now exists c.
  - intros (c & H). exists (Wrote p c). split; [exact H | now left].
Qed.

Lemma frame_edit_files ROOT args notes :
  frame (targets ROOT args notes)
        (fun changed_files =>
           changed_files <- edit_manifest ROOT args changed_files ;;
           changed_files <- edit_changelog ROOT args notes changed_files ;;
           changed_files <- edit_readme ROOT args changed_files ;;
           changed_files <- edit_publishing ROOT args changed_files ;;
           edit_tests args (test_paths ROOT) changed_files).
Proof.
  pose proof (target_paths_distinct ROOT args notes) as N.
  unfold targets in *. cbn [map fst app] in N.
  inversion N as [|? ? N1 N']; subst. inversion N' as [|? ? N2 N'']; subst.
  inversion N'' as [|? ? N3 N''']; subst. inversion N''' as [|? ? N4 _]; subst.
  apply (@frame_bind [_] _ (edit_manifest ROOT args)).
  { apply frame_manifest. }
  2: { intros q Hq [<-|[]]. apply N1. exact Hq. }
  apply (@frame_bind [_] _ (edit_changelog ROOT args notes)).
  { apply frame_changelog. }
  2: { intros q Hq [<-|[]]. apply N2. exact Hq. }
  apply (@frame_bind [_] _ (edit_readme ROOT args)).
  { apply frame_readme. }
  2: { intros q Hq [<-|[]]. apply N3. exact Hq. }
  apply (@frame_bind [_] _ (edit_publishing ROOT args)).
  { apply frame_publishing. }
  2: { intros q Hq [<-|[]]. apply N4. exact Hq. }
  apply frame_tests. apply test_paths_distinct.
Qed.

(** C6.  For every target file of a run (manifest, changelog, readme,
    publishing checklist, test scripts): if its transformation returns an
    updated text equal to the original, the edits neither write the file nor
    add its path to the changed files. *)
Theorem unchanged_target_untouched ROOT args notes w p f text before after :
  In (p, f) (targets ROOT args notes) ->
  files w p = Some text ->
  f text = Ok (before, after) ->
  before = after ->
  let r := edit_files ROOT args notes w in
  ~ In p (written (new_events w (snd r)))
  /\ (forall changed_files, fst r = Ok changed_files -> ~ In p changed_files).
Proof.
  intros HT F E Eq r.
  pose proof (frame_edit_files ROOT args notes [] w)
    as (_ & (evs & Ev & B) & C).
  fold (edit_files ROOT args notes) in Ev, B, C. fold r in Ev, B, C.
  assert (K : forall g, In (p, g) (targets ROOT args notes) ->
                        ~ edits g (files w p)).
  { intros g Hg Hed.
    rewrite (nodup_fst_functional _ _ _ _ (target_paths_distinct ROOT args notes)
               Hg HT) in Hed.
    exact (Hed text before after F E Eq). }
  split.
  - unfold new_events. rewrite Ev, skipn_app_exact. intros H.
    apply in_written in H as (c & H).
    destruct (B p c H) as (g & Hg & Hed). exact (K g Hg Hed).
  - intros ch H. destruct (C ch H) as (l & -> & L). cbn [app]. intros Hp.
    destruct (L p Hp) as (g & Hg & Hed). exact (K g Hg Hed).
Qed.

Lemma unchanged_target_untouched_witness :
  let p := readme_path (lit "/repo") in
  let f : transformation :=
    fun t => drop_flag (replace_latest_readme_text t (version sample_args)) in
  let r := edit_files (lit "/repo") sample_args (note sample_args)
             sample_world_readme in
  In (p, f) (targets (lit "/repo") sample_args (note sample_args))
  /\ files sample_world_readme p = Some sample_readme
  /\ f sample_readme = Ok (sample_readme, sample_readme)
  /\ ~ In p (written (new_events sample_world_readme (snd r)))
  /\ (forall changed_files, fst r = Ok changed_files -> ~ In p changed_files).
Proof.
  intros p f r.
  assert (HT : In (p, f) (targets (lit "/repo") sample_args (note sample_args))).
  { right. right. left. reflexivity. }
  assert (F : files sample_world_readme p = Some sample_readme).
  { vm_compute. reflexivity. }
  assert (E : f sample_readme = Ok (sample_readme, sample_readme)).
  { vm_compute. reflexivity. }
  split; [exact HT|]. split; [exact F|]. split; [exact E|].
  exact (@unchanged_target_untouched (lit "/repo") sample_args
           (note sample_args) sample_world_readme p f sample_readme
           sample_readme sample_readme HT F E eq_refl).
Defined.

(** ** Existence of a match *)

Module MatchFacts.
Import Re.

Lemma succeeds_some {A} (r : A) : succeeds (Some r).
Proof. now exists r. Qed.

Lemma succeeds_none {A} : ~ succeeds (@None A).
Proof. intros [r H]. discriminate. Qed.

Lemma guard_succeeds ok kont prev rest pos cs :
  succeeds (guard ok kont prev rest pos cs) <->
  ok prev rest = true /\ succeeds (kont prev rest pos cs).
Proof.
  unfold guard. destruct (ok prev rest).
  - tauto.
  - split; [intros H; now apply succeeds_none in H | intros [H _]; discriminate].
Qed.

Lemma one_succeeds ok kont prev rest pos cs :
  succeeds (one ok kont prev rest pos cs) <->
  exists c v, rest = c :: v /\ ok c = true
              /\ succeeds (kont (Some c) v (S pos) cs).
Proof.
  unfold one. destruct rest as [|c v].
  - split; [intros H; now apply succeeds_none in H|].
    intros (c & v & H & _). discriminate.
  - destruct (ok c) eqn:E.
    + split.
      * intros H. now exists c, v.
      * intros (c' & v' & [= <- <-] & _ & H). exact H.
    + split; [intros H; now apply succeeds_none in H|].
      intros (c' & v' & [= <- <-] & H & _). congruence.
Qed.

(** A greedy star succeeds when the continuation succeeds after some prefix
    made of characters of the class. *)
Lemma greedy_succeeds k kont prev rest pos cs :
  succeeds (greedy k kont prev rest pos cs) <->
  exists u v, rest = u ++ v /\ all (cls_has k) u
              /\ succeeds (kont (lastc prev u) v (pos + length u) cs).
Proof.
  revert prev pos. induction rest as [|c rest IH]; intros prev pos.
  - cbn [greedy]. split.
    + intros H. exists [], []. cbn. rewrite Nat.add_0_r. now repeat split.
    + intros (u & v & E & _ & H). symmetry in E.
      apply app_eq_nil in E as [-> ->]. cbn in H.
      now rewrite Nat.add_0_r in H.
  - cbn [greedy]. split.
    + intros H. destruct (cls_has k c) eqn:E.
      * destruct (greedy k kont (Some c) rest (S pos) cs) as [r|] eqn:G.
        -- destruct (proj1 (IH (Some c) (S pos)))
             as (u & v & -> & Hu & Hk); [rewrite G; apply succeeds_some|].
           exists (c :: u), v. repeat split.
           ++ unfold all in *. cbn. now rewrite E.
           ++ cbn [length lastc fold_left]. rewrite Nat.add_succ_r. exact Hk.
        -- exists [], (c :: rest). cbn. rewrite Nat.add_0_r.
           now repeat split.
      * exists [], (c :: rest). cbn. rewrite Nat.add_0_r. now repeat split.
    + intros (u & v & E & Hu & Hk). destruct u as [|d u].
      * cbn in E, Hk. subst v. rewrite Nat.add_0_r in Hk.
        destruct (cls_has k c); [|exact Hk].
        destruct (greedy k kont (Some c) rest (S pos) cs);
          [apply succeeds_some | exact Hk].
      * injection E as <- ->. unfold all in Hu. cbn in Hu.
        apply andb_true_iff in Hu as [Hc Hu]. rewrite Hc.
        assert (G : succeeds (greedy k kont (Some c) (u ++ v) (S pos) cs)).
        { apply IH. exists u, v. repeat split; auto.
          cbn [length] in Hk. now rewrite Nat.add_succ_r in Hk. }
        destruct G as [r ->]. apply succeeds_some.
Qed.

Lemma lits_succeeds s r prev x pos cs :
  succeeds (matcher (lits s ++ r) prev x pos cs) <->
  exists rest, x = s ++ rest
               /\ succeeds (matcher r (lastc prev s) rest (pos + length s) cs).
Proof.
  rewrite ReFacts.matcher_lits. split.
  - destruct (startswith x s) eqn:E.
    + intros H. exists (skipn (length s) x). split; [|exact H].
      now apply startswith_split.
    + intros H. now apply succeeds_none in H.
  - intros (rest & -> & H).
    now rewrite startswith_app, skipn_app_exact.
Qed.

(** [re.search] returns a match exactly when the pattern matches
    somewhere. *)
Lemma search_succeeds r text :
  succeeds (search r text) <->
  exists pre suf, text = pre ++ suf
    /\ succeeds (matcher r (lastc None pre) suf (length pre) no_caps).
Proof.
  split.
  - intros [m H]. apply SearchFacts.search_some in H
      as (pre & suf & E & _ & Hm & _).
    exists pre, suf. split; [exact E|]. eexists. exact Hm.
  - intros (pre & suf & E & [r0 H]).
    destruct (search r text) eqn:S; [apply succeeds_some|].
    apply SearchFacts.search_none in S. specialize (S pre suf E).
    unfold no_match_at in S. congruence.
Qed.

End MatchFacts.

(** ** The duplicate guard of the changelog: claim C9 *)

Module ChangelogGuard.
Import Re MatchFacts.

(** The guard pattern at one position. *)
Lemma guard_at V prev suf pos cs :
  succeeds (matcher (changelog_version_re V) prev suf pos cs) <->
  at_bol prev = true
  /\ exists ws post,
       suf = lit "##" ++ ws ++ V ++ post
       /\ ws <> [] /\ all is_space ws
       /\ at_wordb (lastc prev (lit "##" ++ ws ++ V)) post = true.
Proof.
  change (matcher (changelog_version_re V))
    with (guard (fun prev _ => at_bol prev)
            (one (fun x => Ascii.eqb x "#")
               (one (fun x => Ascii.eqb x "#")
                  (one (cls_has Space)
                     (greedy Space (matcher (lits V ++ [Wordb]))))))).
  split.
  - intros H. apply guard_succeeds in H as [Hb H]. split; [exact Hb|].
    apply one_succeeds in H as (c1 & v1 & -> & E1 & H).
    apply one_succeeds in H as (c2 & v2 & -> & E2 & H).
    apply one_succeeds in H as (c3 & v3 & -> & E3 & H).
    apply greedy_succeeds in H as (u & v & -> & Hu & H).
    apply lits_succeeds in H as (post & -> & H).
    apply (guard_succeeds at_wordb) in H as [Hw _].
    apply Ascii.eqb_eq in E1, E2. subst c1 c2.
    exists (c3 :: u), post. repeat split.
    + discriminate.
    + unfold all. cbn. rewrite Hu. cbn in E3. now rewrite E3.
    + cbn [lit list_ascii_of_string app]. rewrite !lastc_cons.
      now rewrite lastc_app.
  - intros (Hb & ws & post & -> & Hne & Hws & Hw).
    destruct ws as [|c3 u]; [congruence|].
    unfold all in Hws. cbn in Hws. apply andb_true_iff in Hws as [E3 Hu].
    apply guard_succeeds. split; [exact Hb|].
    cbn [lit list_ascii_of_string app].
    apply one_succeeds. do 2 eexists. split; [reflexivity|].
    split; [reflexivity|].
    apply one_succeeds. do 2 eexists. split; [reflexivity|].
    split; [reflexivity|].
    apply one_succeeds. do 2 eexists. split; [reflexivity|].
    split; [exact E3|].
    apply greedy_succeeds. exists u, (V ++ post). repeat split; auto.
    apply lits_succeeds. exists post. split; [reflexivity|].
    apply (guard_succeeds at_wordb). split; [|apply succeeds_some].
    cbn [lit list_ascii_of_string app] in Hw. rewrite !lastc_cons in Hw.
    now rewrite lastc_app in Hw.
Qed.

Lemma search_guard V text :
  succeeds (search (changelog_version_re V) text) <-> version_heading V text.
Proof.
  rewrite search_succeeds. unfold version_heading, line_start. split.
  - intros (pre & suf & -> & H). apply guard_at in H
      as (Hb & ws & post & -> & Hne & Hws & Hw).
    exists pre, ws, post. repeat split; auto.
    now rewrite lastc_app.
  - intros (pre & ws & post & -> & Hb & Hne & Hws & Hw).
    exists pre, (lit "##" ++ ws ++ V ++ post). split; [reflexivity|].
    apply guard_at. split; [exact Hb|]. exists ws, post.
    repeat split; auto. now rewrite lastc_app in Hw.
Qed.

End ChangelogGuard.

(** C9.  [insert_changelog] stops with the duplicate error exactly when some
    line of the changelog starts with [##], white space, then the version
    followed by a word boundary.  So the heading [## 0.0.91] does not stop
    the insertion of version 0.0.9: the new section is inserted. *)
Theorem changelog_duplicate_guard :
  (forall text V notes,
     (exists msg, insert_changelog_text text V notes = Died msg)
     <-> version_heading V text)
  /\ insert_changelog_text
       (text_of ["# Changelog"; ""; "## 0.0.91"; ""; "- Later"]%string)
       (lit "0.0.9") [lit "Fix crash"]
     = Ok (text_of ["# Changelog"; ""; "## 0.0.91"; ""; "- Later"]%string,
           text_of ["# Changelog"; ""; "## 0.0.9"; ""; "- Fix crash"; "";
                    "## 0.0.91"; ""; "- Later"]%string).
Proof.
  split; [|vm_compute; reflexivity].
  intros text V notes. rewrite <- ChangelogGuard.search_guard.
  unfold insert_changelog_text, succeeds.
  destruct (Re.search (changelog_version_re V) text) as [m|].
  - split; intros _; eexists; reflexivity.
  - split; intros [x H]; discriminate.
Qed.

(** ** Matches in front of a replaced span *)

Module Barrier.
Import Re.

Lemma inside_cons x m : inside (x :: m) -> m <> [] -> inside m.
Proof.
  unfold inside. intros H Hne. rewrite lastc_cons in H.
  now rewrite (lastc_nonempty None (Some x)).
Qed.

Lemma inside_one x : inside [x] -> x = NL.
Proof. unfold inside. cbn. congruence. Qed.

Lemma inside_nonempty m : inside m -> m <> [].
Proof. intros H ->. discriminate. Qed.

(** What the first character of [m] allows: either [m] is the newline alone,
    or the rest of [m] still ends with the newline. *)
Lemma inside_cases x m :
  inside (x :: m) -> (m = [] /\ x = NL) \/ inside m.
Proof.
  intros H. destruct m as [|y m].
  - left. split; [reflexivity | now apply inside_one].
  - right. apply (inside_cons H). discriminate.
Qed.

Section Fate.

Variables (b : ascii) (X Y : str).
Hypothesis HX : exists X', X = b :: X'.
Hypothesis HY : exists Y', Y = b :: Y'.

Lemma one_fate ok kont :
  ok NL = false -> kfate X Y kont -> kfate X Y (one ok kont).
Proof.
  intros Hnl K m prev pos cs Hm. destruct m as [|x m]; [discriminate Hm|].
  cbn [app one]. destruct (ok x) eqn:E; [|tauto].
  destruct (inside_cases Hm) as [[-> ->]|Hm']; [congruence|].
  now apply K.
Qed.

Lemma greedy_fate_line k kont :
  cls_has k NL = false -> kfate X Y kont -> kfate X Y (greedy k kont).
Proof.
  intros Hnl K m. induction m as [|x m IH]; intros prev pos cs Hm;
    [discriminate Hm|].
  cbn [app greedy]. destruct (cls_has k x) eqn:E; [|now apply (K (x :: m))].
  destruct (inside_cases Hm) as [[-> ->]|Hm']; [congruence|].
  specialize (IH (Some x) (S pos) cs Hm').
  pose proof (K (x :: m) prev pos cs Hm) as Kx. cbn [app] in Kx.
  destruct (greedy k kont (Some x) (m ++ X) (S pos) cs),
           (greedy k kont (Some x) (m ++ Y) (S pos) cs);
    try (split; discriminate); try exact Kx;
    destruct IH as [I1 I2];
    first [ specialize (I2 eq_refl); discriminate
          | specialize (I1 eq_refl); discriminate ].
Qed.

Lemma greedy_fate_across k kont :
  cls_has k b = false ->
  (forall prev rest pos cs, kont prev (b :: rest) pos cs = None) ->
  kfate X Y kont -> kfate X Y (greedy k kont).
Proof.
  intros Hb R K m. induction m as [|x m IH]; intros prev pos cs Hm;
    [discriminate Hm|].
  cbn [app greedy]. destruct (cls_has k x) eqn:E; [|now apply (K (x :: m))].
  pose proof (K (x :: m) prev pos cs Hm) as Kx. cbn [app] in Kx.
  destruct (inside_cases Hm) as [[-> ->]|Hm'].
  - destruct HX as [X' ->], HY as [Y' ->]. cbn [app greedy].
    rewrite Hb, !R. exact Kx.
  - specialize (IH (Some x) (S pos) cs Hm').
    destruct (greedy k kont (Some x) (m ++ X) (S pos) cs),
             (greedy k kont (Some x) (m ++ Y) (S pos) cs);
      try (split; discriminate); try exact Kx;
      destruct IH as [I1 I2];
      first [ specialize (I2 eq_refl); discriminate
            | specialize (I1 eq_refl); discriminate ].
Qed.

Lemma lazy_fate k kont :
  cls_has k NL = false -> kfate X Y kont -> kfate X Y (lazy k kont).
Proof.
  intros Hnl K m. induction m as [|x m IH]; intros prev pos cs Hm;
    [discriminate Hm|].
  pose proof (K (x :: m) prev pos cs Hm) as Kx. cbn [app] in Kx.
  cbn [app lazy].
  destruct (kont prev (x :: m ++ X) pos cs), (kont prev (x :: m ++ Y) pos cs);
    try (split; discriminate).
  - destruct Kx as [K1 K2]. specialize (K2 eq_refl). discriminate.
  - destruct Kx as [K1 K2]. specialize (K1 eq_refl). discriminate.
  - destruct (cls_has k x) eqn:E; [|tauto].
    destruct (inside_cases Hm) as [[-> ->]|Hm']; [congruence|].
    now apply IH.
Qed.

Lemma guard_fate ok kont :
  (forall prev m, m <> [] -> ok prev (m ++ X) = ok prev (m ++ Y)) ->
  kfate X Y kont -> kfate X Y (guard ok kont).
Proof.
  intros Hok K m prev pos cs Hm. unfold guard.
  rewrite (Hok prev m (inside_nonempty Hm)).
  destruct (ok prev (m ++ Y)); [now apply K | tauto].
Qed.

(** A bounded pattern meets the same fate in front of [m ++ X] and of
    [m ++ Y]. *)
Lemma bounded_fate r :
  bounded b (same_fate X Y) r -> same_fate X Y r.
Proof.
  induction 1 as [r Q| |c r Hc _ IH|k r Hk _ IH|k r Hk _ IH|k r Hk _ IH
                 |k r Hk Hr _ IH|r _ IH|r _ IH|r _ IH|g r _ IH|g r _ IH].
  - exact Q.
  - intros m prev pos cs _. cbn. split; discriminate.
  - apply (@one_fate (fun x => Ascii.eqb x c)); [|exact IH].
    apply Ascii.eqb_neq. congruence.
  - now apply (@one_fate (cls_has k)).
  - apply (@one_fate (cls_has k)); [exact Hk|].
    now apply greedy_fate_line.
  - now apply lazy_fate.
  - now apply greedy_fate_across.
  - apply (@guard_fate (fun prev _ => at_bol prev)); [reflexivity | exact IH].
  - apply (@guard_fate (fun _ rest => at_eol rest)); [|exact IH].
    intros _ [|x m] Hne; [congruence | reflexivity].
  - apply (@guard_fate at_wordb); [|exact IH].
    intros prev [|x m] Hne; [congruence | reflexivity].
  - intros m prev pos cs Hm. cbn [matcher]. now apply IH.
  - intros m prev pos cs Hm. cbn [matcher]. now apply IH.
Qed.

End Fate.

End Barrier.

(** ** Where a match ends *)

Module Landing.
Import Re.

Lemma lands_one C ok kont : lands C kont -> lands C (one ok kont).
Proof.
  intros L prev suf pos cs e cs' H. unfold one in H.
  destruct suf as [|x suf]; [discriminate|].
  destruct (ok x); [|discriminate].
  apply L in H as (n & -> & Hn & HC).
  exists (S n). cbn [length skipn]. repeat split; auto; lia.
Qed.

Lemma lands_guard C ok kont : lands C kont -> lands C (guard ok kont).
Proof.
  intros L prev suf pos cs e cs' H. unfold guard in H.
  destruct (ok prev suf); [now apply L in H | discriminate].
Qed.

Lemma lands_greedy C k kont : lands C kont -> lands C (greedy k kont).
Proof.
  intros L prev suf. revert prev.
  induction suf as [|x suf IH]; intros prev pos cs e cs' H; cbn [greedy] in H.
  - now apply L in H.
  - destruct (cls_has k x); [|now apply L in H].
    destruct (greedy k kont (Some x) suf (S pos) cs) as [r|] eqn:G;
      [|now apply L in H].
    injection H as ->. apply IH in G as (n & -> & Hn & HC).
    exists (S n). cbn [length skipn]. repeat split; auto; lia.
Qed.

Lemma lands_lazy C k kont : lands C kont -> lands C (lazy k kont).
Proof.
  intros L prev suf. revert prev.
  induction suf as [|x suf IH]; intros prev pos cs e cs' H; cbn [lazy] in H.
  - destruct (kont prev [] pos cs) as [r|] eqn:K; [|discriminate].
    injection H as ->. now apply L in K.
  - destruct (kont prev (x :: suf) pos cs) as [r|] eqn:K.
    + injection H as ->. now apply L in K.
    + destruct (cls_has k x); [|discriminate].
      apply IH in H as (n & -> & Hn & HC).
      exists (S n). cbn [length skipn]. repeat split; auto; lia.
Qed.

Lemma lands_app C r1 r2 :
  lands C (matcher r2) -> lands C (matcher (r1 ++ r2)).
Proof.
  intros L. induction r1 as [|i r1 IH]; [exact L|].
  destruct i; cbn [app matcher].
  - now apply lands_one.
  - now apply lands_one.
  - now apply lands_greedy.
  - apply lands_one. now apply lands_greedy.
  - now apply lands_lazy.
  - now apply (@lands_guard C (fun prev _ => at_bol prev)).
  - now apply (@lands_guard C (fun _ rest => at_eol rest)).
  - now apply lands_guard.
  - intros prev suf pos cs e cs' H. now apply IH in H.
  - intros prev suf pos cs e cs' H. now apply IH in H.
Qed.

Lemma lands_nil : lands (fun _ => True) (matcher []).
Proof.
  intros prev suf pos cs e cs' [= <- <-]. exists 0.
  repeat split; lia.
Qed.

(** A pattern ends within the text. *)
Lemma lands_any r : lands (fun _ => True) (matcher r).
Proof.
  rewrite <- (app_nil_r r). apply lands_app, lands_nil.
Qed.

Lemma trail_skipn s k :
  trail s = Some k -> k <= length s /\ trail (skipn k s) = Some 0.
Proof.
  revert k. induction s as [|c s IH]; intros k H.
  - injection H as <-. split; [cbn; lia | reflexivity].
  - cbn [trail] in H. destruct (is_space c) eqn:E.
    + destruct (trail s) as [j|] eqn:T.
      * injection H as <-. destruct (IH j eq_refl) as [Hj Hs].
        cbn [length skipn]. split; [lia | exact Hs].
      * destruct (at_eol (c :: s)) eqn:A; [|discriminate].
        injection H as <-. cbn [skipn trail]. rewrite E, T, A.
        split; [lia | reflexivity].
    + destruct (at_eol (c :: s)) eqn:A; [|discriminate].
      injection H as <-. cbn [skipn trail]. rewrite E, A.
      split; [lia | reflexivity].
Qed.

(** After a trailing [\s*$] nothing more of the white space that follows can
    be taken. *)
Lemma lands_trail :
  lands (fun rest => trail rest = Some 0) (matcher [Star Space; Eol]).
Proof.
  intros prev suf pos cs e cs' H. cbn [matcher] in H.
  rewrite ReFacts.greedy_trail in H.
  destruct (trail suf) as [k|] eqn:T; [|discriminate].
  injection H as <- <-. apply trail_skipn in T as [Hk Hs].
  exists k. repeat split; auto.
Qed.

Lemma trail_zero_eol s : trail s = Some 0 -> at_eol s = true.
Proof.
  destruct s as [|c s]; [reflexivity|]. cbn [trail].
  destruct (is_space c).
  - destruct (trail s); [discriminate|].
    destruct (at_eol (c :: s)); [reflexivity | discriminate].
  - destruct (at_eol (c :: s)); [reflexivity | discriminate].
Qed.

End Landing.

(** ** The version at the end of a line *)

Module VerTail.
Import Re ReFacts.

Lemma fails_on_lit (p : ascii -> bool) l kont :
  (forall c, p c = true -> Ascii.eqb c l = false) ->
  fails_on p (one (fun x => Ascii.eqb x l) kont).
Proof. intros H c rest prev pos cs Hc. cbn. now rewrite (H c Hc). Qed.

Lemma fails_on_trail : fails_on is_digit (greedy Space (matcher [Eol])).
Proof.
  intros c rest prev pos cs Hc. cbn [greedy cls_has].
  rewrite (digit_not_space c Hc). cbn [matcher]. unfold guard.
  cbn [at_eol]. now rewrite (digit_not_nl c Hc).
Qed.

Lemma trail_stops_digit post k : trail post = Some k -> stops is_digit post.
Proof.
  destruct post as [|c post]; [intros _; exact I|]. cbn [trail stops].
  destruct (is_space c) eqn:E.
  - intros _. destruct (is_digit c) eqn:D; [|reflexivity].
    apply digit_not_space in D. congruence.
  - cbn [at_eol]. destruct (Ascii.eqb c NL) eqn:N; [|discriminate].
    apply Ascii.eqb_eq in N. subst c. discriminate.
Qed.

(** A number and a dot. *)
Lemma num_dot r prev a rest pos cs :
  number a ->
  matcher (Plus Digit :: Lit "." :: r) prev (a ++ "."%char :: rest) pos cs
  = matcher r (Some "."%char) rest (pos + length a + 1) cs.
Proof.
  intros [Hne Ha].
  change (matcher (Plus Digit :: Lit "." :: r))
    with (one (cls_has Digit)
            (greedy Digit (one (fun x => Ascii.eqb x ".") (matcher r)))).
  rewrite plus_app; auto.
  - cbn [one]. rewrite Ascii.eqb_refl. f_equal. lia.
  - apply fails_on_lit. exact digit_not_dot.
  - reflexivity.
Qed.

(** The last number and the end of the line. *)
Lemma num_trail prev c post pos cs k :
  number c -> trail post = Some k ->
  matcher [Plus Digit; Star Space; Eol] prev (c ++ post) pos cs
  = Some (pos + length c + k, cs).
Proof.
  intros [Hne Hc] T.
  change (matcher [Plus Digit; Star Space; Eol])
    with (one (cls_has Digit) (greedy Digit (greedy Space (matcher [Eol])))).
  rewrite plus_app; auto.
  - now rewrite greedy_trail, T.
  - exact fails_on_trail.
  - now apply trail_stops_digit in T.
Qed.

Lemma ver_tail_match prev a b c post pos cs k :
  number a -> number b -> number c -> trail post = Some k ->
  matcher ver_tail prev (a ++ lit "." ++ b ++ lit "." ++ c ++ post) pos cs
  = Some (pos + length (a ++ lit "." ++ b ++ lit "." ++ c) + k, cs).
Proof.
  intros Ha Hb Hc T. unfold ver_tail. cbn [lit list_ascii_of_string app].
  rewrite num_dot by assumption. rewrite num_dot by assumption.
  rewrite num_trail with (k := k) by assumption.
  repeat (rewrite ?length_app; cbn [length]). do 2 f_equal. lia.
Qed.

End VerTail.

(** ** The readme line of the latest version: claim C10 *)

Module Latest.
Import Re ReFacts.

Lemma latest_re_eq :
  latest_re = Bol :: (lits latest_prefix ++ [Star Space; Lit "v"] ++ ver_tail).
Proof. reflexivity. Qed.

Lemma lastc_some d (u : str) : u <> [] -> exists c, lastc d u = Some c.
Proof.
  destruct u as [|x u] using rev_ind; [congruence|]. intros _.
  exists x. apply lastc_snoc.
Qed.

Lemma line_start_inside p1 p2 :
  line_start (p1 ++ p2) -> p2 <> [] -> inside p2.
Proof.
  unfold line_start, inside. intros H Hne. rewrite lastc_app in H.
  rewrite (lastc_nonempty _ None) in H by assumption.
  destruct (lastc_some None Hne) as [c Hc]. rewrite Hc in *.
  cbn in H. apply Ascii.eqb_eq in H. now subst c.
Qed.

(** The pattern on the line it writes. *)
Lemma latest_match pre V post :
  line_start pre -> version3 V -> trail post = Some 0 ->
  matches_at latest_re pre (lit "### Latest: v" ++ V ++ post)
    (length pre + length (lit "### Latest: v" ++ V)) no_caps.
Proof.
  intros Hpre (a & b & c & -> & Ha & Hb & Hc) T.
  unfold matches_at. rewrite latest_re_eq. cbn [matcher]. unfold guard.
  unfold line_start in Hpre. rewrite Hpre.
  change (lit "### Latest: v" ++ (a ++ lit "." ++ b ++ lit "." ++ c) ++ post)
    with (latest_prefix ++ " "%char :: "v"%char
            :: ((a ++ lit "." ++ b ++ lit "." ++ c) ++ post)).
  rewrite matcher_lits_app.
  change (matcher ([Star Space; Lit "v"] ++ ver_tail))
    with (greedy Space (one (fun x => Ascii.eqb x "v") (matcher ver_tail))).
  set (rest := (a ++ lit "." ++ b ++ lit "." ++ c) ++ post).
  change (" "%char :: "v"%char :: rest)
    with ([" "%char] ++ "v"%char :: rest).
  rewrite greedy_app; try reflexivity.
  2: { apply VerTail.fails_on_lit. intros x. each_char x. }
  cbn [one]. rewrite Ascii.eqb_refl. subst rest.
  rewrite <- !app_assoc.
  rewrite VerTail.ver_tail_match with (k := 0) by assumption.
  repeat (rewrite ?length_app; cbn [length]). do 2 f_equal.
  change (length latest_prefix) with 11. change (length (lit "### Latest: v")) with 13.
  change (length (lit ".")) with 1. lia.
Qed.

End Latest.

(** ** The first match of a line pattern and the text after its
    replacement *)

Module Replace.
Import Re ReFacts.

(** The first match of a pattern that starts with [^] and a literal. *)
Lemma first_match_line P R C text m :
  lands C (matcher R) ->
  search (Bol :: lits P ++ R) text = Some m ->
  exists pre rest n,
    text = pre ++ P ++ rest /\ line_start pre
    /\ m_start m = length pre /\ m_end m = length pre + length P + n
    /\ n <= length rest /\ C (skipn n rest)
    /\ (forall p1 p2, pre = p1 ++ p2 -> p2 <> [] ->
          no_match_at (Bol :: lits P ++ R) p1 (p2 ++ P ++ rest)).
Proof.
  intros L S. apply SearchFacts.search_some in S
    as (pre & suf & -> & Hs & Hm & Hb).
  unfold matches_at in Hm. cbn [matcher] in Hm. unfold guard in Hm.
  destruct (at_bol (lastc None pre)) eqn:B; [|discriminate].
  rewrite matcher_lits in Hm.
  destruct (startswith suf P) eqn:E; [|discriminate].
  apply startswith_split in E. set (rest := skipn (length P) suf) in *.
  apply L in Hm as (n & He & Hn & HC).
  exists pre, rest, n. rewrite <- E. repeat split; auto.
Qed.

Lemma skipn_app_more {A} (u v : list A) n :
  skipn (length u + n) (u ++ v) = skipn n v.
Proof. induction u; simpl; auto. Qed.

Lemma splice (pre P rest : str) n :
  firstn (length pre) (pre ++ P ++ rest) = pre
  /\ skipn (length pre + length P + n) (pre ++ P ++ rest) = skipn n rest.
Proof.
  split; [apply firstn_app_exact|].
  now rewrite <- Nat.add_assoc, !skipn_app_more.
Qed.

Lemma splice_same (pre N post : str) :
  firstn (length pre) (pre ++ N ++ post) ++ N
  ++ skipn (length pre + length N) (pre ++ N ++ post)
  = pre ++ N ++ post.
Proof.
  destruct (splice pre N post 0) as [E1 E2]. rewrite Nat.add_0_r in E2.
  now rewrite E1, E2.
Qed.

(** The matches in front of a replaced span are those of the original
    text. *)
Lemma search_after_replace r b pre X Y e cs :
  bounded b (same_fate X Y) r ->
  (exists X', X = b :: X') -> (exists Y', Y = b :: Y') ->
  line_start pre ->
  (forall p1 p2, pre = p1 ++ p2 -> p2 <> [] -> no_match_at r p1 (p2 ++ X)) ->
  matches_at r pre Y e cs ->
  search r (pre ++ Y) = Some {| m_start := length pre; m_end := e; m_caps := cs |}.
Proof.
  intros Hb HX HY Hpre Hbefore Hm. apply SearchFacts.search_found; [exact Hm|].
  intros p1 p2 -> Hne. specialize (Hbefore p1 p2 eq_refl Hne).
  unfold no_match_at in *.
  apply (Barrier.bounded_fate HX HY Hb); [|exact Hbefore].
  now apply Latest.line_start_inside with (p1 := p1).
Qed.

Lemma plain_repl prefix V :
  existsb (Ascii.eqb BACKSLASH) prefix = false -> version3 V ->
  existsb (Ascii.eqb BACKSLASH) (prefix ++ V) = false.
Proof.
  intros H HV. rewrite existsb_app, H. now apply version3_no_backslash.
Qed.

End Replace.

Module LatestIdem.
Import Re ReFacts Replace.

Lemma latest_bounded X Y :
  bounded "#" (same_fate X Y) latest_re.
Proof.
  rewrite Latest.latest_re_eq. unfold latest_prefix, ver_tail.
  cbn [lits lit list_ascii_of_string map app].
  repeat first
    [ apply B_bol | apply B_eol | apply B_nil
    | apply B_lit; [discriminate|]
    | apply B_plus; [reflexivity|]
    | apply B_star; [reflexivity | intros prev rest pos cs; reflexivity |] ].
Qed.

Lemma latest_lands :
  lands (fun rest => trail rest = Some 0)
        (matcher ([Star Space; Lit "v"] ++ ver_tail)).
Proof.
  change ([Star Space; Lit "v"] ++ ver_tail)
    with ([Star Space; Lit "v"; Plus Digit; Lit "."; Plus Digit; Lit ".";
           Plus Digit] ++ [Star Space; Eol]).
  apply Landing.lands_app, Landing.lands_trail.
Qed.

(** The text that comes out of [replace_latest_readme]. *)
Lemma replace_latest_once text V :
  version3 V ->
  replace_latest_readme_text text V =
  Ok match search latest_re text with
     | None => (text, text, false)
     | Some m => (text, firstn (m_start m) text ++ (lit "### Latest: v" ++ V)
                        ++ skipn (m_end m) text, true)
     end.
Proof.
  intros HV. unfold replace_latest_readme_text.
  rewrite SubFacts.subn_once_plain by (now apply plain_repl).
  cbn [obind]. now destruct (search latest_re text).
Qed.

End LatestIdem.

(** C10.  The text of [replace_latest_readme] is idempotent: with a version
    [V], applied to its own output it returns that output unchanged. *)
Theorem replace_latest_readme_idempotent text V :
  version3 V ->
  exists updated flag flag',
    replace_latest_readme_text text V = Ok (text, updated, flag)
    /\ replace_latest_readme_text updated V = Ok (updated, updated, flag').
Proof.
  intros HV. rewrite (LatestIdem.replace_latest_once text HV).
  destruct (Re.search latest_re text) as [m|] eqn:S.
  - rewrite Latest.latest_re_eq in S.
    destruct (@Replace.first_match_line _ _ _ _ _ LatestIdem.latest_lands S)
      as (pre & rest & n & -> & Hpre & Hs & He & Hn & HT & Hb).
    rewrite Hs, He. destruct (Replace.splice pre latest_prefix rest n) as [-> ->].
    set (post := skipn n rest) in *.
    exists (pre ++ (lit "### Latest: v" ++ V) ++ post), true, true.
    split; [reflexivity|].
    rewrite (LatestIdem.replace_latest_once _ HV).
    rewrite <- Latest.latest_re_eq in Hb.
    rewrite (@Replace.search_after_replace latest_re "#"%char pre
               (latest_prefix ++ rest) ((lit "### Latest: v" ++ V) ++ post)
               (length pre + length (lit "### Latest: v" ++ V)) Re.no_caps).
    + cbn [Re.m_start Re.m_end]. now rewrite Replace.splice_same.
    + apply LatestIdem.latest_bounded.
    + eexists. reflexivity.
    + eexists. reflexivity.
    + exact Hpre.
    + exact Hb.
    + rewrite <- app_assoc. now apply Latest.latest_match.
  - exists text, false, false. split; [reflexivity|].
    rewrite (LatestIdem.replace_latest_once text HV). now rewrite S.
Qed.

Lemma version3_sample : version3 (lit "0.0.9").
Proof.
  exists (lit "0"), (lit "0"), (lit "9").
  repeat split; try discriminate; reflexivity.
Qed.

Lemma replace_latest_readme_idempotent_witness :
  version3 (lit "0.0.9")
  /\ exists updated flag flag',
       replace_latest_readme_text
         (text_of ["# CSS variables"; "### Latest: v0.0.8"; ""; "Usage"]%string)
         (lit "0.0.9")
       = Ok (text_of ["# CSS variables"; "### Latest: v0.0.8"; ""; "Usage"]%string,
             updated, flag)
       /\ replace_latest_readme_text updated (lit "0.0.9")
          = Ok (updated, updated, flag').
Proof.
  split; [exact version3_sample|].
  exact (@replace_latest_readme_idempotent
           (text_of ["# CSS variables"; "### Latest: v0.0.8"; ""; "Usage"]%string)
           (lit "0.0.9") version3_sample).
Defined.

(** ** The version line of the manifest: claim C3 *)

Module Manifest.
Import Re ReFacts MatchFacts.

Lemma version_re_eq :
  version_re
  = Bol :: (lits (lit "version")
            ++ [Star Space; Lit "="; Star Space; Lit DQUOTE] ++ value_tail).
Proof. reflexivity. Qed.

Lemma space_not c l : is_space l = false ->
  is_space c = true -> Ascii.eqb c l = false.
Proof.
  intros Hl Hc. destruct (Ascii.eqb c l) eqn:E; [|reflexivity].
  apply Ascii.eqb_eq in E. congruence.
Qed.

(** The quoted value. *)
Lemma value_tail_match prev cur post pos cs :
  cur <> [] -> all not_dquote cur ->
  matcher value_tail prev (cur ++ DQUOTE :: post) pos cs
  = Some (pos + length cur + 1,
          close_group 1 (pos + length cur) (open_group 1 pos cs)).
Proof.
  intros Hne Hc.
  change (matcher value_tail prev (cur ++ DQUOTE :: post) pos cs)
    with (one (cls_has NotDquote)
            (greedy NotDquote
               (fun prev rest pos cs =>
                  matcher [Lit DQUOTE] prev rest pos (close_group 1 pos cs)))
            prev (cur ++ DQUOTE :: post) pos (open_group 1 pos cs)).
  rewrite plus_app; auto.
  - cbn. now rewrite Nat.add_1_r.
  - intros c rest p q k H. cbn. cbn in H.
    apply negb_true_iff in H. now rewrite H.
  - reflexivity.
Qed.

Lemma version_at pre ws1 ws2 cur post :
  version_line_ok pre ws1 ws2 cur ->
  let a := length (pre ++ lit "version" ++ ws1 ++ lit "=" ++ ws2 ++ [DQUOTE]) in
  matches_at version_re pre
    (lit "version" ++ ws1 ++ lit "=" ++ ws2 ++ [DQUOTE] ++ cur ++ [DQUOTE] ++ post)
    (a + length cur + 1)
    {| opened := [(1, a)]; closed := [(1, (a, a + length cur))] |}.
Proof.
  intros (Hpre & H1 & H2 & Hne & Hc) a. unfold matches_at.
  rewrite version_re_eq. cbn [matcher]. unfold guard.
  unfold line_start in Hpre. rewrite Hpre.
  rewrite matcher_lits_app.
  change (matcher ([Star Space; Lit "="; Star Space; Lit DQUOTE] ++ value_tail))
    with (greedy Space
            (one (fun x => Ascii.eqb x "=")
               (greedy Space
                  (one (fun x => Ascii.eqb x DQUOTE) (matcher value_tail))))).
  cbn [lit list_ascii_of_string app].
  rewrite greedy_app; auto.
  2: { intros c rest p q k H. cbn. now rewrite (@space_not c "="). }
  2: { reflexivity. }
  cbn [one]. rewrite Ascii.eqb_refl.
  rewrite greedy_app; auto.
  2: { intros c rest p q k H. cbn. now rewrite (@space_not c DQUOTE). }
  2: { reflexivity. }
  cbn [one]. rewrite Ascii.eqb_refl.
  rewrite value_tail_match by assumption.
  match goal with
  | |- context [open_group 1 ?x no_caps] =>
      replace x with a; [reflexivity|]
  end.
  unfold a. repeat (rewrite ?length_app; cbn [length]).
  change (length (lit "version")) with 7. change (length (lit "=")) with 1.
  lia.
Qed.

(** Any match of the pattern is a version line. *)
Lemma version_at_inv prev suf pos cs :
  succeeds (matcher version_re prev suf pos cs) ->
  at_bol prev = true
  /\ exists ws1 ws2 cur post,
       suf = lit "version" ++ ws1 ++ lit "=" ++ ws2
             ++ [DQUOTE] ++ cur ++ [DQUOTE] ++ post
       /\ all is_space ws1 /\ all is_space ws2
       /\ cur <> [] /\ all not_dquote cur.
Proof.
  rewrite version_re_eq. intros H.
  apply (guard_succeeds (fun prev _ => at_bol prev)) in H as [Hb H].
  split; [exact Hb|].
  apply lits_succeeds in H as (r1 & -> & H).
  change (matcher ([Star Space; Lit "="; Star Space; Lit DQUOTE] ++ value_tail))
    with (greedy Space
            (one (fun x => Ascii.eqb x "=")
               (greedy Space
                  (one (fun x => Ascii.eqb x DQUOTE)
                     (fun prev rest pos cs =>
                        one (cls_has NotDquote)
                          (greedy NotDquote
                             (fun prev rest pos cs =>
                                one (fun x => Ascii.eqb x DQUOTE)
                                    (matcher [])
                                    prev rest pos (close_group 1 pos cs)))
                          prev rest pos (open_group 1 pos cs)))))) in H.
  apply greedy_succeeds in H as (ws1 & r2 & -> & H1 & H).
  apply one_succeeds in H as (c1 & r3 & -> & E1 & H).
  apply greedy_succeeds in H as (ws2 & r4 & -> & H2 & H).
  apply one_succeeds in H as (c2 & r5 & -> & E2 & H).
  apply one_succeeds in H as (c3 & r6 & -> & E3 & H).
  apply greedy_succeeds in H as (u & r7 & -> & Hu & H).
  apply one_succeeds in H as (c4 & post & -> & E4 & _).
  apply Ascii.eqb_eq in E1, E2, E4. subst c1 c2 c4.
  exists ws1, ws2, (c3 :: u), post. repeat split; auto.
  - discriminate.
  - unfold all in *. cbn. cbn in E3. unfold not_dquote at 1. now rewrite E3.
Qed.

(** No match starts in front of the first version line. *)
Lemma before_first text pre ws1 ws2 cur post :
  first_version_line text pre ws1 ws2 cur post ->
  forall p1 p2, pre = p1 ++ p2 -> p2 <> [] ->
    no_match_at version_re p1
      (p2 ++ lit "version" ++ ws1 ++ lit "=" ++ ws2
       ++ [DQUOTE] ++ cur ++ [DQUOTE] ++ post).
Proof.
  intros (-> & Hok & Hmin) p1 p2 -> Hne. unfold no_match_at.
  destruct (matcher version_re (lastc None p1) _ (length p1) no_caps)
    as [r|] eqn:M; [|reflexivity].
  exfalso.
  destruct (@version_at_inv (lastc None p1)
              (p2 ++ lit "version" ++ ws1 ++ lit "=" ++ ws2 ++ [DQUOTE]
               ++ cur ++ [DQUOTE] ++ post) (length p1) no_caps)
    as (Hb & w1 & w2 & c & q & E & Hw1 & Hw2 & Hc & Hq);
    [rewrite M; apply succeeds_some|].
  assert (L : length (p1 ++ p2) <= length p1).
  { apply (Hmin p1 w1 w2 c q).
    - unfold version_line. rewrite <- app_assoc. now rewrite E.
    - repeat split; auto. }
  rewrite length_app in L. destruct p2; [congruence | cbn in L; lia].
Qed.

(** [re.search] on a text whose first version line is known. *)
Lemma search_first text pre ws1 ws2 cur post :
  first_version_line text pre ws1 ws2 cur post ->
  let a := length (pre ++ lit "version" ++ ws1 ++ lit "=" ++ ws2 ++ [DQUOTE]) in
  search version_re text
  = Some {| m_start := length pre; m_end := a + length cur + 1;
            m_caps := {| opened := [(1, a)];
                         closed := [(1, (a, a + length cur))] |} |}.
Proof.
  intros F a. pose proof (before_first F) as Hb.
  destruct F as (-> & Hok & Hmin). unfold version_line.
  apply SearchFacts.search_found; [now apply version_at | exact Hb].
Qed.

Lemma search_none_iff text :
  search version_re text = None <-> ~ has_version_line text.
Proof.
  split.
  - intros S (pre & ws1 & ws2 & cur & post & -> & Hok).
    apply SearchFacts.search_none in S.
    specialize (S pre _ eq_refl). unfold no_match_at in S.
    pose proof (version_at post Hok) as M. unfold matches_at in M.
    cbv zeta in M. congruence.
  - intros N. destruct (search version_re text) as [m|] eqn:S; [|reflexivity].
    exfalso. apply N.
    destruct (proj1 (search_succeeds version_re text))
      as (pre & suf & -> & H); [rewrite S; apply succeeds_some|].
    apply version_at_inv in H as (Hb & ws1 & ws2 & cur & post & -> & H1 & H2 & Hc & Hq).
    exists pre, ws1, ws2, cur, post. split; [reflexivity|].
    repeat split; auto.
Qed.

End Manifest.

Module ManifestUpdate.
Import Re ReFacts Manifest.

Lemma slice_mid (A cur rest : str) :
  slice (A ++ cur ++ rest) (length A) (length A + length cur) = cur.
Proof.
  unfold slice. rewrite skipn_app_exact.
  replace (length A + length cur - length A) with (length cur) by lia.
  apply firstn_app_exact.
Qed.

Lemma version3_not_dquote V : version3 V -> all not_dquote V.
Proof.
  intros H. apply version3_chars in H. revert H. apply all_impl.
  intros c. each_char c.
Qed.

Lemma version3_nonempty V : version3 V -> V <> [].
Proof.
  intros (a & b & c & -> & [Ha _] & _). destruct a; [congruence | discriminate].
Qed.

(** What the updater does once the first match is known. *)
Lemma update_at text pre ws1 ws2 cur post V :
  version3 V ->
  text = version_line pre ws1 ws2 cur post ->
  (let a := length (pre ++ lit "version" ++ ws1 ++ lit "=" ++ ws2 ++ [DQUOTE]) in
   search version_re text
   = Some {| m_start := length pre; m_end := a + length cur + 1;
             m_caps := {| opened := [(1, a)];
                          closed := [(1, (a, a + length cur))] |} |}) ->
  update_extension_toml_text text V
  = if str_eqb cur V
    then Died (lit "extension.toml already at version " ++ V)
    else Ok (text, pre ++ new_version_line V ++ post).
Proof.
  intros HV E S. cbv zeta in S. unfold update_extension_toml_text.
  unfold Sub.sub.
  rewrite SubFacts.subn_once_plain.
  2: { change (lit "version = " ++ [DQUOTE] ++ V ++ [DQUOTE])
         with ((lit "version = " ++ [DQUOTE]) ++ V ++ [DQUOTE]).
       rewrite !existsb_app, (version3_no_backslash HV). reflexivity. }
  rewrite S. unfold group. cbn [m_caps closed assoc Nat.eqb m_start m_end].
  assert (G : slice text
                (length (pre ++ lit "version" ++ ws1 ++ lit "=" ++ ws2 ++ [DQUOTE]))
                (length (pre ++ lit "version" ++ ws1 ++ lit "=" ++ ws2 ++ [DQUOTE])
                 + length cur) = cur).
  { rewrite E. unfold version_line.
    replace (pre ++ lit "version" ++ ws1 ++ lit "=" ++ ws2 ++ [DQUOTE]
             ++ cur ++ [DQUOTE] ++ post)
      with ((pre ++ lit "version" ++ ws1 ++ lit "=" ++ ws2 ++ [DQUOTE])
            ++ cur ++ [DQUOTE] ++ post)
      by (now rewrite <- !app_assoc).
    apply slice_mid. }
  rewrite G. cbn [opt_str_eqb]. destruct (str_eqb cur V); [reflexivity|].
  cbn [obind fst]. do 2 f_equal.
  fold (new_version_line V). f_equal.
  - rewrite E. unfold version_line. apply firstn_app_exact.
  - f_equal. rewrite E. unfold version_line.
    replace (pre ++ lit "version" ++ ws1 ++ lit "=" ++ ws2 ++ [DQUOTE]
             ++ cur ++ [DQUOTE] ++ post)
      with (((pre ++ lit "version" ++ ws1 ++ lit "=" ++ ws2 ++ [DQUOTE])
             ++ cur ++ [DQUOTE]) ++ post)
      by (now rewrite <- !app_assoc).
    replace (length (pre ++ lit "version" ++ ws1 ++ lit "=" ++ ws2 ++ [DQUOTE])
             + length cur + 1)
      with (length ((pre ++ lit "version" ++ ws1 ++ lit "=" ++ ws2 ++ [DQUOTE])
                    ++ cur ++ [DQUOTE])).
    + apply skipn_app_exact.
    + repeat (rewrite ?length_app; cbn [length]). lia.
Qed.

(** The quoted value in front of a text that holds a double quote: the fate
    of a match depends on its first character alone. *)
Lemma drop_while_dquote s :
  In DQUOTE s -> exists t, drop_while not_dquote s = DQUOTE :: t.
Proof.
  induction s as [|c s IH]; [intros []|]. intros H. cbn [drop_while].
  unfold not_dquote at 1. destruct (Ascii.eqb c DQUOTE) eqn:E; cbn [negb].
  - apply Ascii.eqb_eq in E. subst c. now exists s.
  - destruct H as [->|H]; [now rewrite Ascii.eqb_refl in E | now apply IH].
Qed.

Lemma value_tail_none s prev pos cs :
  In DQUOTE s ->
  (matcher value_tail prev s pos cs = None <-> take_while not_dquote s = []).
Proof.
  intros H.
  change (matcher value_tail prev s pos cs)
    with (one (cls_has NotDquote)
            (greedy NotDquote
               (fun prev rest pos cs =>
                  matcher [Lit DQUOTE] prev rest pos (close_group 1 pos cs)))
            prev s pos (open_group 1 pos cs)).
  rewrite plus_commit.
  2: { intros c rest p q k Hc. cbn. cbn in Hc.
       apply negb_true_iff in Hc. now rewrite Hc. }
  change (cls_has NotDquote) with not_dquote.
  destruct (take_while not_dquote s) as [|x u]; [tauto|].
  destruct (drop_while_dquote s H) as [t ->]. cbn. split; discriminate.
Qed.

Lemma value_tail_fate X Y :
  In DQUOTE X -> In DQUOTE Y -> same_fate X Y value_tail.
Proof.
  intros HX HY m prev pos cs Hm.
  rewrite !value_tail_none by (apply in_or_app; now right).
  destruct m as [|x m]; [discriminate Hm|]. cbn [app take_while].
  destruct (not_dquote x); [split; discriminate | tauto].
Qed.

Lemma version_bounded X Y :
  In DQUOTE X -> In DQUOTE Y -> bounded "v" (same_fate X Y) version_re.
Proof.
  intros HX HY. rewrite version_re_eq.
  cbn [lits lit list_ascii_of_string map app].
  repeat first
    [ apply B_bol
    | apply B_end; now apply value_tail_fate
    | apply B_lit; [discriminate|]
    | apply B_star; [reflexivity | intros prev rest pos cs; reflexivity |] ].
Qed.

End ManifestUpdate.

Module ManifestTwice.
Import Re Manifest ManifestUpdate.

Lemma new_line_eq pre V post :
  pre ++ new_version_line V ++ post
  = version_line pre [" "%char] [" "%char] V post.
Proof.
  unfold new_version_line, version_line. now rewrite <- !app_assoc.
Qed.

Lemma new_line_ok pre V :
  line_start pre -> version3 V ->
  version_line_ok pre [" "%char] [" "%char] V.
Proof.
  intros Hpre HV. repeat split; auto.
  - now apply version3_nonempty.
  - now apply version3_not_dquote.
Qed.

(** The updater on its own output. *)
Lemma update_again text pre ws1 ws2 cur post V :
  version3 V ->
  first_version_line text pre ws1 ws2 cur post ->
  update_extension_toml_text (pre ++ new_version_line V ++ post) V
  = Died (lit "extension.toml already at version " ++ V).
Proof.
  intros HV F. pose proof (before_first F) as Hb.
  destruct F as (E & Hok & _).
  assert (Hpre : line_start pre) by apply Hok.
  rewrite (@update_at _ pre [" "%char] [" "%char] V post V HV
             (new_line_eq pre V post)).
  - now rewrite str_eqb_refl.
  - cbv zeta. rewrite new_line_eq. unfold version_line.
    apply (@Replace.search_after_replace version_re "v"%char pre
             (lit "version" ++ ws1 ++ lit "=" ++ ws2
              ++ [DQUOTE] ++ cur ++ [DQUOTE] ++ post)).
    + apply version_bounded; do 4 (apply in_or_app; right); now left.
    + eexists. reflexivity.
    + eexists. reflexivity.
    + exact Hpre.
    + exact Hb.
    + apply (version_at post (new_line_ok Hpre HV)).
Qed.

End ManifestTwice.

(** C3.  For a version [V] and a manifest text: without a line matching
    [version = Q<value>Q] (Q the double quote) the updater stops the run; so
    it does when the value of the first such line is [V] already; otherwise
    it returns the original with the updated text, which differs from it in
    that first version line alone, now [version = QVQ], and applied to this
    updated text with the same [V] it stops the run. *)
Theorem update_extension_toml_once text V :
  version3 V ->
  (~ has_version_line text ->
     update_extension_toml_text text V
     = Died (lit "extension.toml missing version field"))
  /\ (forall pre ws1 ws2 cur post,
        first_version_line text pre ws1 ws2 cur post ->
        (cur = V ->
           update_extension_toml_text text V
           = Died (lit "extension.toml already at version " ++ V))
        /\ (cur <> V ->
              update_extension_toml_text text V
              = Ok (text, pre ++ new_version_line V ++ post)
              /\ update_extension_toml_text
                   (pre ++ new_version_line V ++ post) V
                 = Died (lit "extension.toml already at version " ++ V))).
Proof.
  intros HV. split.
  - intros N. apply Manifest.search_none_iff in N.
    unfold update_extension_toml_text. now rewrite N.
  - intros pre ws1 ws2 cur post F.
    pose proof (@ManifestUpdate.update_at text pre ws1 ws2 cur post V HV
                  (proj1 F) (Manifest.search_first F)) as U.
    rewrite U. split.
    + intros ->. now rewrite str_eqb_refl.
    + intros Hne. apply str_eqb_neq in Hne. rewrite Hne.
      split; [reflexivity|]. now apply ManifestTwice.update_again with (1 := HV) (2 := F).
Qed.

Lemma update_extension_toml_once_witness :
  let text := lit "version = " ++ quoted "0.0.8" ++ [NL] in
  version3 (lit "0.0.9")
  /\ first_version_line text [] [" "%char] [" "%char] (lit "0.0.8") [NL]
  /\ lit "0.0.8" <> lit "0.0.9"
  /\ update_extension_toml_text text (lit "0.0.9")
     = Ok (text, new_version_line (lit "0.0.9") ++ [NL])
  /\ update_extension_toml_text (new_version_line (lit "0.0.9") ++ [NL])
       (lit "0.0.9")
     = Died (lit "extension.toml already at version " ++ lit "0.0.9").
Proof.
  intros text.
  assert (F : first_version_line text [] [" "%char] [" "%char] (lit "0.0.8") [NL]).
  { split; [reflexivity|]. split.
    - repeat split; try reflexivity; discriminate.
    - intros. cbn. lia. }
  assert (N : lit "0.0.8" <> lit "0.0.9") by discriminate.
  split; [exact version3_sample|]. split; [exact F|]. split; [exact N|].
  exact (proj2 (proj2 (@update_extension_toml_once text (lit "0.0.9")
                         version3_sample)
                  [] [" "%char] [" "%char] (lit "0.0.8") [NL] F) N).
Defined.

(** ** What a match of a line pattern reads *)

Module Settle.
Import Re.

Section Closed.

Variable F : str -> str -> Prop.
Hypothesis F_cons : forall x u v, x <> NL -> F u v -> F (x :: u) v.

Lemma settles_one (ok : ascii -> bool) kont :
  ok NL = false -> settles F kont -> settles F (one ok kont).
Proof.
  intros Hnl L prev suf pos cs e cs' H. unfold one in H.
  destruct suf as [|x suf]; [discriminate|].
  destruct (ok x) eqn:E; [|discriminate].
  apply L in H as (n & -> & Hn & HF).
  exists (S n). cbn [length skipn firstn]. repeat split; try lia.
  apply F_cons; [congruence | exact HF].
Qed.

Lemma settles_guard ok kont : settles F kont -> settles F (guard ok kont).
Proof.
  intros L prev suf pos cs e cs' H. unfold guard in H.
  destruct (ok prev suf); [now apply L in H | discriminate].
Qed.

Lemma settles_greedy k kont :
  cls_has k NL = false -> settles F kont -> settles F (greedy k kont).
Proof.
  intros Hnl L prev suf. revert prev.
  induction suf as [|x suf IH]; intros prev pos cs e cs' H; cbn [greedy] in H.
  - now apply L in H.
  - destruct (cls_has k x) eqn:E; [|now apply L in H].
    destruct (greedy k kont (Some x) suf (S pos) cs) as [r|] eqn:G;
      [|now apply L in H].
    injection H as ->. apply IH in G as (n & -> & Hn & HF).
    exists (S n). cbn [length skipn firstn]. repeat split; try lia.
    apply F_cons; [congruence | exact HF].
Qed.

Lemma settles_lazy k kont :
  cls_has k NL = false -> settles F kont -> settles F (lazy k kont).
Proof.
  intros Hnl L prev suf. revert prev.
  induction suf as [|x suf IH]; intros prev pos cs e cs' H; cbn [lazy] in H.
  - destruct (kont prev [] pos cs) as [r|] eqn:K; [|discriminate].
    injection H as ->. now apply L in K.
  - destruct (kont prev (x :: suf) pos cs) as [r|] eqn:K.
    + injection H as ->. now apply L in K.
    + destruct (cls_has k x) eqn:E; [|discriminate].
      apply IH in H as (n & -> & Hn & HF).
      exists (S n). cbn [length skipn firstn]. repeat split; try lia.
      apply F_cons; [congruence | exact HF].
Qed.

Lemma settles_app r1 r2 :
  forallb line_item r1 = true ->
  settles F (matcher r2) -> settles F (matcher (r1 ++ r2)).
Proof.
  intros Hl L. induction r1 as [|i r1 IH]; [exact L|].
  cbn [forallb] in Hl. apply andb_true_iff in Hl as [Hi Hl].
  specialize (IH Hl).
  destruct i; cbn [app matcher]; cbn [line_item] in Hi;
    try apply negb_true_iff in Hi.
  - apply settles_one; [|exact IH]. now rewrite Ascii.eqb_sym.
  - now apply settles_one.
  - now apply settles_greedy.
  - apply settles_one; [exact Hi|]. now apply settles_greedy.
  - now apply settles_lazy.
  - now apply (@settles_guard (fun prev _ => at_bol prev)).
  - now apply (@settles_guard (fun _ rest => at_eol rest)).
  - now apply settles_guard.
  - intros prev suf pos cs e cs' H. now apply IH in H.
  - intros prev suf pos cs e cs' H. now apply IH in H.
Qed.

End Closed.

Lemma calm_cons c0 x u v : x <> NL -> calm c0 u v -> calm c0 (x :: u) v.
Proof.
  intros Hx C o1 o2 E Hl y rest Ey.
  destruct o1 as [|a o1]; [discriminate|]. injection E as <- ->.
  destruct o1 as [|a' o1].
  - cbn in Hl. congruence.
  - apply (C (a' :: o1) o2 eq_refl) with (rest := rest); [|exact Ey].
    rewrite lastc_cons in Hl. now rewrite (lastc_nonempty None (Some x)).
Qed.

Lemma quiet_end_cons c0 x u v :
  x <> NL -> quiet_end c0 u v -> quiet_end c0 (x :: u) v.
Proof. intros Hx [C E]. split; [now apply calm_cons | exact E]. Qed.

Lemma calm_nil c0 v : calm c0 [] v.
Proof.
  intros o1 o2 E Hl. symmetry in E. apply app_eq_nil in E as [-> _].
  discriminate.
Qed.

(** Base: the end of a line. *)
Lemma settles_eol c0 : settles (quiet_end c0) (matcher [Eol]).
Proof.
  intros prev suf pos cs e cs' H. cbn [matcher] in H. unfold guard in H.
  destruct (at_eol suf) eqn:E; [|discriminate]. injection H as <- <-.
  exists 0. cbn [firstn skipn]. repeat split; try lia.
  - apply calm_nil.
  - exact E.
Qed.

Lemma trail_firstn s k : trail s = Some k -> all is_space (firstn k s).
Proof.
  revert k. induction s as [|c s IH]; intros k H.
  - injection H as <-. reflexivity.
  - cbn [trail] in H. destruct (is_space c) eqn:E.
    + destruct (trail s) as [j|] eqn:T.
      * injection H as <-. cbn [firstn]. unfold all. cbn.
        rewrite E. exact (IH j eq_refl).
      * destruct (at_eol (c :: s)); [|discriminate]. injection H as <-.
        reflexivity.
    + destruct (at_eol (c :: s)); [|discriminate]. injection H as <-.
      reflexivity.
Qed.

Lemma calm_spaces c0 u v :
  is_space c0 = false -> all is_space u -> at_eol v = true -> calm c0 u v.
Proof.
  intros Hc Hu Hv o1 o2 -> _ x rest E.
  apply all_app in Hu as [_ Ho2]. destruct o2 as [|y o2].
  - cbn in E. subst v. cbn in Hv. apply Ascii.eqb_eq in Hv. subst x.
    intros <-. discriminate.
  - injection E as <- _. unfold all in Ho2. cbn in Ho2.
    apply andb_true_iff in Ho2 as [Hy _]. congruence.
Qed.

(** Base: the trailing white space and the end of a line. *)
Lemma settles_trail c0 :
  is_space c0 = false -> settles (quiet_end c0) (matcher [Star Space; Eol]).
Proof.
  intros Hc prev suf pos cs e cs' H. cbn [matcher] in H.
  rewrite ReFacts.greedy_trail in H.
  destruct (trail suf) as [k|] eqn:T; [|discriminate].
  injection H as <- <-. pose proof (trail_firstn _ T) as Hs.
  apply Landing.trail_skipn in T as [Hk Hz].
  apply Landing.trail_zero_eol in Hz.
  exists k. repeat split; auto. now apply calm_spaces.
Qed.

End Settle.

(** ** The index and the groups do not decide a match *)

Module Blind.
Import Re.

Lemma blind_one ok kont : blind kont -> blind (one ok kont).
Proof.
  intros B prev rest pos cs pos' cs' H. unfold one in *.
  destruct rest as [|x rest]; [reflexivity|].
  destruct (ok x); [|reflexivity]. exact (B _ _ _ _ _ _ H).
Qed.

Lemma blind_guard ok kont : blind kont -> blind (guard ok kont).
Proof.
  intros B prev rest pos cs pos' cs' H. unfold guard in *.
  destruct (ok prev rest); [|reflexivity]. exact (B _ _ _ _ _ _ H).
Qed.

Lemma blind_greedy k kont : blind kont -> blind (greedy k kont).
Proof.
  intros B prev rest. revert prev.
  induction rest as [|x rest IH]; intros prev pos cs pos' cs' H;
    cbn [greedy] in *.
  - exact (B _ _ _ _ _ _ H).
  - destruct (cls_has k x).
    + destruct (greedy k kont (Some x) rest (S pos) cs) eqn:G; [discriminate|].
      rewrite (IH _ _ _ (S pos') cs' G).
      exact (B _ _ _ _ _ _ H).
    + exact (B _ _ _ _ _ _ H).
Qed.

Lemma blind_lazy k kont : blind kont -> blind (lazy k kont).
Proof.
  intros B prev rest. revert prev.
  induction rest as [|x rest IH]; intros prev pos cs pos' cs' H;
    cbn [lazy] in *.
  - destruct (kont prev [] pos cs) eqn:K; [discriminate|].
    now rewrite (B _ _ _ _ pos' cs' K).
  - destruct (kont prev (x :: rest) pos cs) eqn:K; [discriminate|].
    rewrite (B _ _ _ _ pos' cs' K).
    destruct (cls_has k x); [|reflexivity].
    exact (IH _ _ _ _ _ H).
Qed.

Lemma blind_matcher r : blind (matcher r).
Proof.
  induction r as [|i r IH].
  - intros prev rest pos cs pos' cs' H. discriminate.
  - destruct i; cbn [matcher].
    + now apply blind_one.
    + now apply blind_one.
    + now apply blind_greedy.
    + apply blind_one. now apply blind_greedy.
    + now apply blind_lazy.
    + now apply (@blind_guard (fun prev _ => at_bol prev)).
    + now apply (@blind_guard (fun _ rest => at_eol rest)).
    + now apply blind_guard.
    + intros prev rest pos cs pos' cs' H. exact (IH _ _ _ _ _ _ H).
    + intros prev rest pos cs pos' cs' H. exact (IH _ _ _ _ _ _ H).
Qed.

Lemma succeeds_anywhere r prev rest pos cs pos' cs' :
  succeeds (matcher r prev rest pos cs) ->
  succeeds (matcher r prev rest pos' cs').
Proof.
  intros [x H]. destruct (matcher r prev rest pos' cs') eqn:M.
  - now eexists.
  - pose proof (@blind_matcher r _ _ _ _ pos cs M). congruence.
Qed.

End Blind.

(** ** Whether a pattern is found, before and after a replacement *)

Module Transfer.
Import Re MatchFacts.

Lemma line_match_inv c0 R prev B pos cs :
  succeeds (matcher (Bol :: Lit c0 :: R) prev B pos cs) ->
  at_bol prev = true /\ exists rest, B = c0 :: rest.
Proof.
  intros H.
  apply (guard_succeeds (fun prev _ => at_bol prev)) in H as [Hb H].
  apply one_succeeds in H as (c & v & -> & E & _).
  apply Ascii.eqb_eq in E. subst c. split; [exact Hb | now exists v].
Qed.

Lemma at_line_start l : l <> [] -> at_bol (lastc None l) = true ->
  lastc None l = Some NL.
Proof.
  intros Hne H. destruct (Latest.lastc_some None Hne) as [c Hc].
  rewrite Hc in *. cbn in H. apply Ascii.eqb_eq in H. now subst c.
Qed.

Section OneWay.

Variables (c0 b : ascii) (R : regex) (pre OLD NEW post : str).
Let r := Bol :: Lit c0 :: R.

Hypothesis Hbounded : bounded b (same_fate (OLD ++ post) (NEW ++ post)) r.
Hypothesis HOLD : exists o, OLD = b :: o.
Hypothesis HNEW : exists n, NEW = b :: n.
Hypothesis Hpre : line_start pre.
Hypothesis Hrefuse :
  forall prev pos cs, matcher r prev (OLD ++ post) pos cs = None.
Hypothesis Hcalm : calm c0 OLD post.

Lemma transfer :
  succeeds (search r (pre ++ OLD ++ post)) ->
  succeeds (search r (pre ++ NEW ++ post)).
Proof.
  intros H. apply search_succeeds in H as (A & B & E & Hm).
  apply search_succeeds.
  assert (Refuted : A = pre -> B = OLD ++ post -> False).
  { intros -> ->. destruct Hm as [x Hx]. rewrite Hrefuse in Hx. discriminate. }
  assert (Inner : forall o1 o2, OLD = o1 ++ o2 -> o1 <> [] ->
                    A = pre ++ o1 -> B = o2 ++ post -> False).
  { intros o1 o2 E1 Hne -> ->.
    apply line_match_inv in Hm as (Hb & rest & Er).
    rewrite lastc_app, (lastc_nonempty _ None) in Hb by assumption.
    apply at_line_start in Hb; [|assumption].
    exact (Hcalm o1 o2 E1 Hb Er eq_refl). }
  assert (HX : exists X', OLD ++ post = b :: X').
  { destruct HOLD as [o ->]. now exists (o ++ post). }
  assert (HY : exists Y', NEW ++ post = b :: Y').
  { destruct HNEW as [n ->]. now exists (n ++ post). }
  apply app_eq_app in E as [l [[Ep EB]|[EA E]]].
  - (* the position is in front of the replaced span *)
    destruct l as [|x l].
    + exfalso. apply Refuted; [now rewrite Ep, app_nil_r | exact EB].
    + exists A, ((x :: l) ++ NEW ++ post).
      split; [now rewrite Ep, <- app_assoc|].
      destruct (matcher r (lastc None A) ((x :: l) ++ NEW ++ post)
                  (length A) no_caps) eqn:M; [apply succeeds_some|].
      exfalso.
      apply (Barrier.bounded_fate HX HY Hbounded) in M.
      * destruct Hm as [z Hz]. rewrite EB in Hz. congruence.
      * apply Latest.line_start_inside with (p1 := A); [|discriminate].
        now rewrite <- Ep.
  - apply app_eq_app in E as [l2 [[E1 E2]|[E1 E2]]].
    + (* the position is inside the replaced span *)
      destruct l as [|x l].
      * exfalso. apply Refuted; [now rewrite EA, app_nil_r|].
        cbn in E1. subst l2. now cbn in E2.
      * exfalso. apply (Inner (x :: l) l2); auto. discriminate.
    + (* the position is after the replaced span *)
      destruct l2 as [|y l2].
      * exfalso. destruct HOLD as [o Ho]. rewrite app_nil_r in E1.
        cbn in E2.
        apply (Inner OLD []); auto.
        -- now rewrite app_nil_r.
        -- rewrite Ho. discriminate.
        -- now rewrite EA, E1.
      * exists (pre ++ NEW ++ y :: l2), B.
        split; [now rewrite E2, <- !app_assoc|].
        apply Blind.succeeds_anywhere with (pos := length A) (cs := no_caps).
        replace (lastc None (pre ++ NEW ++ y :: l2)) with (lastc None A);
          [exact Hm|].
        rewrite EA, E1. now rewrite !lastc_app, !lastc_cons.
Qed.

End OneWay.

End Transfer.

Module FoundFacts.
Import Re MatchFacts.

Lemma found_true r text : found r text = true <-> succeeds (search r text).
Proof.
  unfold found. destruct (search r text).
  - split; [intros _; apply succeeds_some | reflexivity].
  - split; [discriminate | intros H; now apply succeeds_none in H].
Qed.

Lemma found_iff r t1 t2 :
  (succeeds (search r t1) <-> succeeds (search r t2)) ->
  found r t1 = found r t2.
Proof.
  intros H. destruct (found r t1) eqn:E1, (found r t2) eqn:E2; auto.
  - apply found_true in E1. apply H, found_true in E1. congruence.
  - apply found_true in E2. apply H, found_true in E2. congruence.
Qed.

(** Replacing a span that starts a line, by another that starts with the
    same character, does not change whether a line pattern is found. *)
Lemma found_after_replace c0 b R pre OLD NEW post :
  (forall Q, bounded b Q (Bol :: Lit c0 :: R)) ->
  (exists o, OLD = b :: o) -> (exists n, NEW = b :: n) ->
  line_start pre ->
  (forall prev pos cs,
     matcher (Bol :: Lit c0 :: R) prev (OLD ++ post) pos cs = None) ->
  (forall prev pos cs,
     matcher (Bol :: Lit c0 :: R) prev (NEW ++ post) pos cs = None) ->
  calm c0 OLD post -> calm c0 NEW post ->
  found (Bol :: Lit c0 :: R) (pre ++ NEW ++ post)
  = found (Bol :: Lit c0 :: R) (pre ++ OLD ++ post).
Proof.
  intros Hb HO HN Hpre RO RN CO CN. apply found_iff. split.
  - now apply Transfer.transfer with (b := b).
  - now apply Transfer.transfer with (b := b).
Qed.

Lemma calm_line c0 u v : all not_nl u -> calm c0 u v.
Proof.
  intros Hu o1 o2 -> Hl. exfalso. apply all_app in Hu as [Ho _].
  destruct o1 as [|x o1] using rev_ind; [discriminate|].
  rewrite lastc_snoc in Hl. injection Hl as ->.
  apply all_app in Ho as [_ Hn]. discriminate Hn.
Qed.

End FoundFacts.

Module Shape.
Import Re ReFacts.

Section WithF.

Variable F : str -> str -> Prop.
Hypothesis F_cons : forall x u v, x <> NL -> F u v -> F (x :: u) v.

Lemma F_app P u v : all not_nl P -> F u v -> F (P ++ u) v.
Proof.
  intros HP HF. induction P as [|x P IH]; [exact HF|].
  unfold all in HP. cbn in HP. apply andb_true_iff in HP as [Hx HP].
  cbn [app]. apply F_cons; [|now apply IH].
  intros ->. discriminate Hx.
Qed.

(** The first match of [^], a literal, line items and an end that
    settles. *)
Lemma first_match_shape P R1 R2 text m :
  all not_nl P -> forallb line_item R1 = true -> settles F (matcher R2) ->
  search (Bol :: lits P ++ R1 ++ R2) text = Some m ->
  exists pre o post,
    text = pre ++ (P ++ o) ++ post /\ line_start pre
    /\ m_start m = length pre /\ m_end m = length pre + length (P ++ o)
    /\ F (P ++ o) post
    /\ (forall p1 p2, pre = p1 ++ p2 -> p2 <> [] ->
          no_match_at (Bol :: lits P ++ R1 ++ R2) p1 (p2 ++ (P ++ o) ++ post)).
Proof.
  intros HP HR L S. apply SearchFacts.search_some in S
    as (pre & suf & -> & Hs & Hm & Hb).
  unfold matches_at in Hm. cbn [matcher] in Hm. unfold guard in Hm.
  destruct (at_bol (lastc None pre)) eqn:B; [|discriminate].
  rewrite matcher_lits in Hm.
  destruct (startswith suf P) eqn:E; [|discriminate].
  apply startswith_split in E. set (rest := skipn (length P) suf) in *.
  apply (@Settle.settles_app F F_cons R1 R2 HR L) in Hm as (n & He & Hn & HF).
  exists pre, (firstn n rest), (skipn n rest).
  assert (Es : suf = (P ++ firstn n rest) ++ skipn n rest).
  { now rewrite <- app_assoc, firstn_skipn. }
  rewrite <- Es. repeat split; auto.
  - rewrite He, length_app, length_firstn. lia.
  - now apply F_app.
Qed.

End WithF.

End Shape.

(** ** The publishing checklist: claim C8 *)

Module Publishing.
Import Re ReFacts FoundFacts.

Lemma version_re_shape :
  publishing_version_re
  = Bol :: lits version_echo_prefix ++ [StarLazy Dot] ++ [Eol].
Proof. reflexivity. Qed.

Lemma header_re_shape :
  publishing_header_re
  = Bol :: lits header_prefix
           ++ [Plus Digit; Lit "."; Plus Digit; Lit "."; Plus Digit]
           ++ [Star Space; Eol].
Proof. reflexivity. Qed.

Ltac bounded_line :=
  cbn [lits lit list_ascii_of_string map app];
  repeat first
    [ apply B_bol | apply B_eol | apply B_nil
    | apply B_lit; [discriminate|]
    | apply B_plus; [reflexivity|]
    | apply B_lazy; [reflexivity|]
    | apply B_star; [reflexivity | intros prev rest pos cs; reflexivity |] ].

Lemma header_bounded Q : bounded "-" Q publishing_header_re.
Proof. unfold publishing_header_re. bounded_line. Qed.

Lemma tag_bounded_dash Q : bounded "-" Q publishing_tag_re.
Proof. unfold publishing_tag_re. bounded_line. Qed.

Lemma tag_bounded_hash Q : bounded "#" Q publishing_tag_re.
Proof. unfold publishing_tag_re. bounded_line. Qed.

Lemma on_one_line_cons x u v :
  x <> NL -> on_one_line u v -> on_one_line (x :: u) v.
Proof.
  intros Hx [Hu Hv]. split; [|exact Hv]. unfold all in *. cbn.
  rewrite Hu. unfold not_nl. apply Ascii.eqb_neq in Hx. now rewrite Hx.
Qed.

Lemma settles_one_line : settles on_one_line (matcher [Eol]).
Proof.
  intros prev suf pos cs e cs' H. cbn [matcher] in H. unfold guard in H.
  destruct (at_eol suf) eqn:E; [|discriminate]. injection H as <- <-.
  exists 0. cbn [firstn skipn]. repeat split; auto; lia.
Qed.

Lemma version3_one_line V : version3 V -> all not_nl V.
Proof.
  intros H. apply version3_chars in H. revert H. apply all_impl.
  intros c. each_char c.
Qed.

Lemma new_line_one_line P V : all not_nl P -> version3 V -> all not_nl (P ++ V).
Proof. intros HP HV. apply all_app. split; [exact HP | now apply version3_one_line]. Qed.

(** The header and the tag pattern fail on a version-echo line. *)
Lemma header_refuses_echo x prev pos cs :
  matcher publishing_header_re prev (version_echo_prefix ++ x) pos cs = None.
Proof.
  unfold publishing_header_re. cbn [app matcher]. unfold guard.
  now destruct (at_bol prev).
Qed.

Lemma tag_refuses_echo x prev pos cs :
  matcher publishing_tag_re prev (version_echo_prefix ++ x) pos cs = None.
Proof.
  unfold publishing_tag_re. cbn [app matcher]. unfold guard.
  now destruct (at_bol prev).
Qed.

Lemma tag_refuses_header x prev pos cs :
  matcher publishing_tag_re prev (header_prefix ++ x) pos cs = None.
Proof.
  unfold publishing_tag_re. cbn [app matcher]. unfold guard.
  now destruct (at_bol prev).
Qed.

Lemma found_some r text m : search r text = Some m -> found r text = true.
Proof. unfold found. now intros ->. Qed.

Lemma found_none r text : search r text = None -> found r text = false.
Proof. unfold found. now intros ->. Qed.

(** The first substitution: the version-echo line. *)
Lemma step_version text V :
  version3 V ->
  exists u1,
    Sub.subn publishing_version_re (version_echo_prefix ++ V) text 1
    = Ok (u1, if found publishing_version_re text then 1 else 0)
    /\ found publishing_header_re u1 = found publishing_header_re text
    /\ found publishing_tag_re u1 = found publishing_tag_re text.
Proof.
  intros HV. rewrite SubFacts.subn_once_plain
    by (now apply Replace.plain_repl).
  destruct (search publishing_version_re text) as [m|] eqn:S.
  2: { exists text. rewrite (found_none _ _ S). now repeat split. }
  rewrite (found_some _ _ S). rewrite version_re_shape in S.
  destruct (@Shape.first_match_shape on_one_line on_one_line_cons
              version_echo_prefix [StarLazy Dot] [Eol] text m
              eq_refl eq_refl settles_one_line S)
    as (pre & o & post & -> & Hpre & Hs & He & [Ho Hpost] & _).
  rewrite Hs, He.
  destruct (Replace.splice pre (version_echo_prefix ++ o) post 0) as [E1 E2].
  rewrite Nat.add_0_r in E2. cbn [skipn] in E2. rewrite E1, E2.
  eexists. split; [reflexivity|].
  assert (HN : all not_nl (version_echo_prefix ++ V))
    by (now apply new_line_one_line).
  split.
  - apply (@found_after_replace "#" "-" (tl (tl publishing_header_re))).
    + apply header_bounded.
    + eexists. reflexivity.
    + eexists. reflexivity.
    + exact Hpre.
    + intros. rewrite <- app_assoc. apply header_refuses_echo.
    + intros. rewrite <- app_assoc. apply header_refuses_echo.
    + now apply calm_line.
    + now apply calm_line.
  - apply (@found_after_replace "-" "-" (tl (tl publishing_tag_re))).
    + apply tag_bounded_dash.
    + eexists. reflexivity.
    + eexists. reflexivity.
    + exact Hpre.
    + intros. rewrite <- app_assoc. apply tag_refuses_echo.
    + intros. rewrite <- app_assoc. apply tag_refuses_echo.
    + now apply calm_line.
    + now apply calm_line.
Qed.

(** The second substitution: the checklist heading. *)
Lemma step_header text V :
  version3 V ->
  exists u2,
    Sub.subn publishing_header_re (header_prefix ++ V) text 1
    = Ok (u2, if found publishing_header_re text then 1 else 0)
    /\ found publishing_tag_re u2 = found publishing_tag_re text.
Proof.
  intros HV. rewrite SubFacts.subn_once_plain
    by (now apply Replace.plain_repl).
  destruct (search publishing_header_re text) as [m|] eqn:S.
  2: { exists text. rewrite (found_none _ _ S). now repeat split. }
  rewrite (found_some _ _ S). rewrite header_re_shape in S.
  destruct (@Shape.first_match_shape (quiet_end "-")
              (@Settle.quiet_end_cons "-")
              header_prefix
              [Plus Digit; Lit "."; Plus Digit; Lit "."; Plus Digit]
              [Star Space; Eol] text m
              eq_refl eq_refl (@Settle.settles_trail "-" eq_refl) S)
    as (pre & o & post & -> & Hpre & Hs & He & [Hcalm Hpost] & _).
  rewrite Hs, He.
  destruct (Replace.splice pre (header_prefix ++ o) post 0) as [E1 E2].
  rewrite Nat.add_0_r in E2. cbn [skipn] in E2. rewrite E1, E2.
  eexists. split; [reflexivity|].
  apply (@found_after_replace "-" "#" (tl (tl publishing_tag_re))).
  - apply tag_bounded_hash.
  - eexists. reflexivity.
  - eexists. reflexivity.
  - exact Hpre.
  - intros. rewrite <- app_assoc. apply tag_refuses_header.
  - intros. rewrite <- app_assoc. apply tag_refuses_header.
  - exact Hcalm.
  - apply calm_line. now apply new_line_one_line.
Qed.

(** The third substitution: the line that creates the tag. *)
Lemma step_tag text V :
  version3 V ->
  exists u3,
    Sub.subn publishing_tag_re (tag_prefix ++ V) text 1
    = Ok (u3, if found publishing_tag_re text then 1 else 0).
Proof.
  intros HV. rewrite SubFacts.subn_once_plain
    by (now apply Replace.plain_repl).
  unfold found. destruct (search publishing_tag_re text); eexists; reflexivity.
Qed.

End Publishing.

(** C8.  For a version [V], [update_publishing] always returns: the
    original text, an updated text, and the warnings, one for each of the
    three patterns that the text does not match.  Whether a pattern matches
    does not depend on the substitutions made before it. *)
Theorem update_publishing_warnings text V :
  version3 V ->
  exists updated,
    update_publishing_text text V = Ok (text, updated, expected_warnings text).
Proof.
  intros HV. unfold update_publishing_text, expected_warnings.
  fold version_echo_prefix header_prefix tag_prefix.
  destruct (Publishing.step_version text HV) as (u1 & -> & H2 & H3).
  cbn [obind].
  destruct (Publishing.step_header u1 HV) as (u2 & -> & H3').
  cbn [obind].
  destruct (Publishing.step_tag u2 HV) as (u3 & ->).
  cbn [obind]. exists u3. rewrite H3', H3, H2.
  destruct (found publishing_version_re text),
           (found publishing_header_re text),
           (found publishing_tag_re text); reflexivity.
Qed.

Lemma update_publishing_warnings_witness :
  version3 (lit "0.0.9")
  /\ exists updated,
       update_publishing_text
         (text_of ["## Release Checklist for v0.0.8"; "";
                   "- [x] `extension.toml` version: 0.0.8"]%string)
         (lit "0.0.9")
       = Ok (text_of ["## Release Checklist for v0.0.8"; "";
                      "- [x] `extension.toml` version: 0.0.8"]%string,
             updated, [warn_tag]).
Proof.
  split; [exact version3_sample|].
  exact (@update_publishing_warnings
           (text_of ["## Release Checklist for v0.0.8"; "";
                     "- [x] `extension.toml` version: 0.0.8"]%string)
           (lit "0.0.9") version3_sample).
Defined.

(** ** The readme without a line for the latest version *)

(** With a version [V], [replace_latest_readme] always returns; on a text
    where the pattern matches nowhere it returns the text unchanged and
    the flag false. *)
Lemma replace_latest_readme_no_match text V :
  version3 V -> no_match latest_re text ->
  replace_latest_readme_text text V = Ok (text, text, false).
Proof.
  intros HV N. rewrite (LatestIdem.replace_latest_once text HV).
  apply SearchFacts.search_none in N. now rewrite N.
Qed.

(** ** Where the changelog section goes *)

(** Without a heading for the version, the section goes in front of the
    first newline that is followed by [##] and white space; a heading on
    the first line of the text has no newline in front of it. *)
Lemma insert_changelog_before_heading text V notes pre c post :
  ~ version_heading V text ->
  text = pre ++ NL :: "#"%char :: "#"%char :: c :: post ->
  is_space c = true ->
  (forall p1 p2, pre = p1 ++ p2 -> p2 <> [] ->
     no_match_at heading_re p1
       (p2 ++ NL :: "#"%char :: "#"%char :: c :: post)) ->
  insert_changelog_text text V notes
  = Ok (text, pre ++ changelog_section V notes
              ++ NL :: "#"%char :: "#"%char :: c :: post).
Proof.
  intros N -> Hc Hb. unfold insert_changelog_text.
  destruct (Re.search (changelog_version_re V) _) as [m|] eqn:S.
  { exfalso. apply N, ChangelogGuard.search_guard. rewrite S.
    apply MatchFacts.succeeds_some. }
  rewrite (@SearchFacts.search_found heading_re pre
             (NL :: "#"%char :: "#"%char :: c :: post)
             (length pre + 4) Re.no_caps).
  - cbn [Re.m_start]. now rewrite firstn_app_exact, skipn_app_exact.
  - unfold matches_at. cbn. rewrite Hc. do 2 f_equal. lia.
  - exact Hb.
Qed.

(** Without any such newline the section goes to the end of the text, after
    its trailing white space is removed. *)
Lemma insert_changelog_at_end text V notes :
  ~ version_heading V text ->
  no_match heading_re text ->
  insert_changelog_text text V notes
  = Ok (text, rstrip text ++ changelog_section V notes ++ [NL]).
Proof.
  intros N H. unfold insert_changelog_text.
  destruct (Re.search (changelog_version_re V) _) as [m|] eqn:S.
  { exfalso. apply N, ChangelogGuard.search_guard. rewrite S.
    apply MatchFacts.succeeds_some. }
  apply SearchFacts.search_none in H. now rewrite H.
Qed.

(* ===================================================================== *)
(** * Further properties of the script *)
(* ===================================================================== *)

(** ** Steps that touch nothing *)

Module Effects.

Lemma silent_ret {A} (a : A) : silent (ret a).
Proof. intros w. now repeat split. Qed.

Lemma silent_lift {A} (o : outcome A) : silent (lift o).
Proof. intros w. now repeat split. Qed.

Lemma silent_stderr line : silent (log (Stderr line)).
Proof.
  intros w. cbn. repeat split.
  - rewrite written_app. apply app_nil_r.
  - rewrite ran_app. apply app_nil_r.
Qed.

Lemma silent_stdout line : silent (log (Stdout line)).
Proof.
  intros w. cbn. repeat split.
  - rewrite written_app. apply app_nil_r.
  - rewrite ran_app. apply app_nil_r.
Qed.

Lemma silent_bind {A B} (m : M A) (f : A -> M B) :
  silent m -> (forall a, silent (f a)) -> silent (bind m f).
Proof.
  intros Hm Hf w. unfold bind. specialize (Hm w).
  destruct (m w) as [[a|msg|e] w1]; cbn [snd] in *; try exact Hm.
  destruct Hm as (F & X & C & W & R).
  destruct (Hf a w1) as (F' & X' & C' & W' & R').
  repeat split; congruence.
Qed.

Lemma silent_die {A} msg : silent (@die A msg).
Proof. unfold die. apply silent_bind; [apply silent_stderr | intros; apply silent_lift]. Qed.

Lemma silent_path_exists p : silent (path_exists p).
Proof. intros w. now repeat split. Qed.

Lemma silent_read_text p : silent (read_text p).
Proof.
  intros w. unfold read_text. destruct (files w p).
  - now repeat split.
  - apply silent_die.
Qed.


Lemma silent_for_each {A} (l : list A) body :
  (forall a, silent (body a)) -> silent (for_each l body).
Proof.
  intros H. induction l as [|a l IH]; cbn [for_each].
  - apply silent_ret.
  - apply silent_bind; [apply H | intros _; exact IH].
Qed.


Lemma silent_runs_nothing {A} (m : M A) : silent m -> runs_nothing m.
Proof. intros H w. destruct (H w) as (_ & X & C & _ & R). now repeat split. Qed.

Lemma runs_nothing_bind {A B} (m : M A) (f : A -> M B) :
  runs_nothing m -> (forall a, runs_nothing (f a)) -> runs_nothing (bind m f).
Proof.
  intros Hm Hf w. unfold bind. specialize (Hm w).
  destruct (m w) as [[a|msg|e] w1]; cbn [snd] in *; try exact Hm.
  destruct Hm as (X & C & R). destruct (Hf a w1) as (X' & C' & R').
  repeat split; congruence.
Qed.

Lemma runs_nothing_write p content : runs_nothing (write_text p content).
Proof.
  intros w. cbn. repeat split. rewrite ran_app. apply app_nil_r.
Qed.

Lemma runs_nothing_write_if cond p after changed :
  runs_nothing (write_if cond p after changed).
Proof.
  unfold write_if. destruct cond.
  - apply runs_nothing_bind; [apply runs_nothing_write|].
    intros _. apply silent_runs_nothing, silent_ret.
  - apply silent_runs_nothing, silent_ret.
Qed.

(** The checks at the start of [main] touch nothing. *)
Lemma silent_ensure_repo_files ROOT : silent (ensure_repo_files ROOT).
Proof.
  unfold ensure_repo_files. apply silent_for_each. intros name.
  apply silent_bind; [apply silent_path_exists|]. intros ex.
  destruct ex; cbn [negb]; [apply silent_ret | apply silent_die].
Qed.

Lemma silent_parse_notes args : silent (parse_notes args).
Proof.
  unfold parse_notes. apply silent_bind.
  - destruct (notes_file args) as [[|c f]|]; try apply silent_ret.
    apply silent_bind; [apply silent_path_exists|]. intros ex.
    destruct ex; cbn [negb]; [|apply silent_die].
    apply silent_bind; [apply silent_read_text|]. intros content.
    apply silent_ret.
  - intros notes.
    destruct (map strip (filter (fun n => nonempty (strip n)) notes));
      [|apply silent_ret].
    destruct (negb (allow_empty_notes args)); [apply silent_die | apply silent_ret].
Qed.

End Effects.

(** ** The checks before the first edit *)

Module Checks.

Lemma ensure_ok ROOT w :
  files w (ext_path ROOT) <> None -> files w (changelog_path ROOT) <> None ->
  ensure_repo_files ROOT w = (Ok tt, w).
Proof.
  unfold ensure_repo_files, ext_path, changelog_path. cbn [for_each].
  unfold bind, path_exists, ret. intros H1 H2.
  destruct (files w (path_join ROOT (lit "extension.toml"))); [|congruence].
  cbn [negb].
  destruct (files w (path_join ROOT (lit "CHANGELOG.md"))); [|congruence].
  reflexivity.
Qed.

Lemma ensure_dies ROOT w :
  files w (ext_path ROOT) = None \/ files w (changelog_path ROOT) = None ->
  exists name,
    fst (ensure_repo_files ROOT w)
    = Died (lit "run from repo root; missing " ++ name)
    /\ (name = lit "extension.toml" \/ name = lit "CHANGELOG.md")
    /\ files w (path_join ROOT name) = None.
Proof.
  unfold ensure_repo_files, ext_path, changelog_path. cbn [for_each].
  unfold bind, path_exists, ret. intros H.
  destruct (files w (path_join ROOT (lit "extension.toml"))) eqn:E1; cbn [negb].
  - destruct H as [H|H]; [discriminate|]. rewrite H. cbn [negb].
    exists (lit "CHANGELOG.md"). repeat split; auto.
  - exists (lit "extension.toml"). repeat split; auto.
Qed.

Lemma main_died_early ROOT args w msg :
  fst (bind (ensure_repo_files ROOT) (fun _ => parse_notes args) w) = Died msg ->
  main ROOT args w
  = (Died msg, snd (bind (ensure_repo_files ROOT) (fun _ => parse_notes args) w)).
Proof.
  unfold main, bind.
  destruct (ensure_repo_files ROOT w) as [[[]|m1|e1] w1]; cbn [fst snd];
    try (intros [= <-]; reflexivity); try discriminate.
  destruct (parse_notes args w1) as [[notes|m2|e2] w2]; cbn [fst snd];
    try (intros [= <-]; reflexivity); discriminate.
Qed.

End Checks.

(** X1.  When [extension.toml] or [CHANGELOG.md] is missing, when the notes
    file that is named does not exist, or when there is no note and
    [--allow-empty-notes] is not set, [main] stops with a fatal error before
    it writes a file or runs a command. *)
Theorem main_checks_before_edits ROOT args w :
  files w (ext_path ROOT) = None \/ files w (changelog_path ROOT) = None
  \/ combined_notes args w = None
  \/ (combined_notes args w = Some [] /\ allow_empty_notes args = false) ->
  (exists msg, fst (main ROOT args w) = Died msg)
  /\ files (snd (main ROOT args w)) = files w
  /\ written (trace (snd (main ROOT args w))) = written (trace w)
  /\ ran (trace (snd (main ROOT args w))) = ran (trace w).
Proof.
  intros H.
  assert (D : exists msg,
             fst (bind (ensure_repo_files ROOT) (fun _ => parse_notes args) w)
             = Died msg).
  { destruct (files w (ext_path ROOT)) eqn:E1.
    2: { destruct (@Checks.ensure_dies ROOT w) as (name & Hd & _);
           [now left|].
         exists (lit "run from repo root; missing " ++ name).
         unfold bind. destruct (ensure_repo_files ROOT w) as [o w1].
         cbn [fst] in Hd. now subst o. }
    destruct (files w (changelog_path ROOT)) eqn:E2.
    2: { destruct (@Checks.ensure_dies ROOT w) as (name & Hd & _);
           [now right|].
         exists (lit "run from repo root; missing " ++ name).
         unfold bind. destruct (ensure_repo_files ROOT w) as [o w1].
         cbn [fst] in Hd. now subst o. }
    unfold bind. rewrite Checks.ensure_ok by congruence.
    destruct H as [H|[H|[H|[H A]]]]; try discriminate.
    - now apply parse_notes_missing_file.
    - rewrite (parse_notes_cleaned _ _ H), A. eexists. reflexivity. }
  destruct D as [msg D]. rewrite (Checks.main_died_early _ _ _ D).
  cbn [fst snd]. split; [now exists msg|].
  assert (S : silent (bind (ensure_repo_files ROOT) (fun _ => parse_notes args))).
  { apply Effects.silent_bind; [apply Effects.silent_ensure_repo_files|].
    intros _. apply Effects.silent_parse_notes. }
  destruct (S w) as (F & _ & _ & W & R). now repeat split.
Qed.

Lemma main_checks_before_edits_witness :
  let w := {| files := fun _ => None; exec := fun _ fs => Some fs;
              capture := fun _ => Some []; trace := [] |} in
  files w (ext_path (lit "/repo")) = None
  /\ (exists msg, fst (main (lit "/repo") sample_args w) = Died msg)
  /\ written (trace (snd (main (lit "/repo") sample_args w))) = []
  /\ ran (trace (snd (main (lit "/repo") sample_args w))) = [].
Proof.
  intros w. split; [reflexivity|].
  destruct (@main_checks_before_edits (lit "/repo") sample_args w
              (or_introl eq_refl)) as (D & _ & W & R).
  split; [exact D|]. split; [exact W | exact R].
Defined.

(** ** The notes that [parse_notes] returns *)

Lemma combined_notes_clean args w l :
  combined_notes args w = Some l ->
  forall n, In n l -> n <> [] /\ strip n = n.
Proof.
  assert (K : forall X n, In n (filter nonempty (map strip X)) ->
                          n <> [] /\ strip n = n).
  { intros X n H. apply filter_In in H as [H Hn]. split.
    - intros ->. discriminate.
    - apply in_map_iff in H as (x & <- & _). apply strip_idem. }
  unfold combined_notes. destruct (named_notes_file args) as [p|].
  - destruct (files w p); [|discriminate]. intros [= <-]. apply K.
  - intros [= <-]. apply K.
Qed.

(** X2.  When [parse_notes] returns, the list has at least one note, and
    every note is non-empty and has no white space at either end. *)
Theorem parse_notes_returns_clean args w notes :
  fst (parse_notes args w) = Ok notes ->
  notes <> [] /\ forall n, In n notes -> n <> [] /\ strip n = n.
Proof.
  intros H. destruct (combined_notes args w) as [l|] eqn:E.
  - rewrite (parse_notes_cleaned _ _ E) in H. destruct l as [|c l].
    + destruct (negb (allow_empty_notes args)); [discriminate|].
      injection H as <-. split; [discriminate|].
      intros n [<-|[]]. split; [discriminate | reflexivity].
    + injection H as <-. split; [discriminate|].
      now apply combined_notes_clean with (args := args) (w := w).
  - apply parse_notes_missing_file in E as [msg E]. congruence.
Qed.

Lemma parse_notes_returns_clean_witness :
  let args := {| version := lit "0.0.9"; note := [lit "  Fix crash "; lit "  "];
                 notes_file := None; allow_empty_notes := false;
                 build := false; run_tests_flag := false; commit := false;
                 tag := false; push := false; remote := lit "origin";
                 allow_dirty := false |} in
  fst (parse_notes args sample_world) = Ok [lit "Fix crash"]
  /\ forall n, In n [lit "Fix crash"] -> n <> [] /\ strip n = n.
Proof.
  intros args. split; [reflexivity|].
  exact (proj2 (@parse_notes_returns_clean args sample_world [lit "Fix crash"]
                  eq_refl)).
Defined.

(** ** A run without flags *)

Module NoCommands.
Import Effects.

Ltac quiet_step :=
  repeat first
    [ apply runs_nothing_write_if
    | apply silent_runs_nothing;
      first [ apply silent_ret | apply silent_lift | apply silent_die
            | apply silent_read_text | apply silent_path_exists
            | apply silent_stderr ]
    | apply runs_nothing_bind; [|intros ?] ].

Lemma quiet_update_extension_toml p V : runs_nothing (update_extension_toml p V).
Proof.
  unfold update_extension_toml. quiet_step.
  destruct (update_extension_toml_text _ V); quiet_step.
Qed.

Lemma quiet_insert_changelog p V notes : runs_nothing (insert_changelog p V notes).
Proof.
  unfold insert_changelog. quiet_step.
  destruct (insert_changelog_text _ V notes); quiet_step.
Qed.

Lemma quiet_edit_manifest ROOT args changed :
  runs_nothing (edit_manifest ROOT args changed).
Proof.
  unfold edit_manifest. apply runs_nothing_bind.
  - apply quiet_update_extension_toml.
  - intros [b a]. apply runs_nothing_write_if.
Qed.

Lemma quiet_edit_changelog ROOT args notes changed :
  runs_nothing (edit_changelog ROOT args notes changed).
Proof.
  unfold edit_changelog. apply runs_nothing_bind.
  - apply quiet_insert_changelog.
  - intros [b a]. apply runs_nothing_write_if.
Qed.

Lemma quiet_edit_readme ROOT args changed :
  runs_nothing (edit_readme ROOT args changed).
Proof.
  unfold edit_readme, replace_latest_readme. quiet_step.
  match goal with a : bool |- _ => destruct a end; quiet_step.
  match goal with a : (str * str * bool)%type |- _ => destruct a as [[b a'] u] end.
  quiet_step.
Qed.

Lemma quiet_edit_test args p changed : runs_nothing (edit_test args p changed).
Proof.
  unfold edit_test, update_test_version_checks. quiet_step.
  match goal with a : bool |- _ => destruct a end; quiet_step.
  match goal with a : (str * str * bool)%type |- _ => destruct a as [[b a'] u] end.
  quiet_step.
Qed.

Lemma quiet_edit_tests args ps changed : runs_nothing (edit_tests args ps changed).
Proof.
  revert changed. induction ps as [|p ps IH]; intros changed; cbn [edit_tests].
  - quiet_step.
  - apply runs_nothing_bind; [apply quiet_edit_test | intros ch; apply IH].
Qed.

Lemma quiet_edit_publishing ROOT args changed :
  runs_nothing (edit_publishing ROOT args changed).
Proof.
  unfold edit_publishing, update_publishing. quiet_step.
  match goal with a : bool |- _ => destruct a end; quiet_step.
  match goal with a : (str * str * list str)%type |- _ =>
    destruct a as [[b a'] ws] end.
  quiet_step.
  apply silent_runs_nothing, silent_for_each. intros x. apply silent_stderr.
Qed.

(** The edits run no command. *)
Lemma quiet_edit_files ROOT args notes : runs_nothing (edit_files ROOT args notes).
Proof.
  unfold edit_files.
  apply runs_nothing_bind; [apply quiet_edit_manifest | intros ch1].
  apply runs_nothing_bind; [apply quiet_edit_changelog | intros ch2].
  apply runs_nothing_bind; [apply quiet_edit_readme | intros ch3].
  apply runs_nothing_bind; [apply quiet_edit_publishing | intros ch4].
  apply quiet_edit_tests.
Qed.

End NoCommands.

(** X3.  Without [--build], [--run-tests], [--commit], [--tag] and
    [--push], [main] runs no external command, whatever the files hold and
    however the run ends. *)
Theorem main_without_flags_runs_nothing ROOT args w :
  build args = false -> run_tests_flag args = false -> commit args = false ->
  tag args = false -> push args = false ->
  ran (trace (snd (main ROOT args w))) = ran (trace w).
Proof.
  intros Hb Hr Hc Ht Hp.
  assert (Q : runs_nothing (main ROOT args)).
  { unfold main, build_step, commit_step, tag_step, push_step.
    rewrite Hb, Hr, Hc, Ht, Hp. cbn [when].
    apply Effects.runs_nothing_bind;
      [apply Effects.silent_runs_nothing, Effects.silent_ensure_repo_files|].
    intros _. apply Effects.runs_nothing_bind;
      [apply Effects.silent_runs_nothing, Effects.silent_parse_notes|].
    intros notes. apply Effects.runs_nothing_bind;
      [apply NoCommands.quiet_edit_files|].
    intros ch. repeat (apply Effects.runs_nothing_bind;
      [apply Effects.silent_runs_nothing, Effects.silent_ret | intros ?]).
    apply Effects.silent_runs_nothing, Effects.silent_stdout. }
  apply Q.
Qed.

Lemma main_without_flags_runs_nothing_witness :
  build sample_args = false /\ run_tests_flag sample_args = false
  /\ commit sample_args = false /\ tag sample_args = false
  /\ push sample_args = false
  /\ fst (main (lit "/repo") sample_args sample_world) = Ok tt
  /\ ran (trace (snd (main (lit "/repo") sample_args sample_world))) = [].
Proof.
  repeat (split; [reflexivity|]).
  exact (@main_without_flags_runs_nothing (lit "/repo") sample_args sample_world
           eq_refl eq_refl eq_refl eq_refl eq_refl).
Defined.


(** ** The commands of a release *)

Module Commands.

Lemma run_ok w cmd fs :
  exec w cmd (files w) = Some fs ->
  run cmd w = (Ok tt, {| files := fs; exec := exec w; capture := capture w;
                         trace := trace w ++ [Ran cmd] |}).
Proof. intros H. unfold run. now rewrite H. Qed.

Lemma run_fails w cmd :
  exec w cmd (files w) = None ->
  run cmd w = (Raised (CalledProcessError cmd), w).
Proof. intros H. unfold run. now rewrite H. Qed.

Lemma ran_snoc evs cmd : ran (evs ++ [Ran cmd]) = ran evs ++ [cmd].
Proof. now rewrite ran_app. Qed.

Lemma written_snoc_ran evs cmd : written (evs ++ [Ran cmd]) = written evs.
Proof. rewrite written_app. apply app_nil_r. Qed.

(** Where every command succeeds, a list of commands is run in order. *)
Lemma git_add_runs ps : forall w,
  commands_succeed w ->
  exists w', git_add ps w = (Ok tt, w')
    /\ exec w' = exec w /\ capture w' = capture w
    /\ ran (trace w') = ran (trace w) ++ map add_cmd ps
    /\ written (trace w') = written (trace w).
Proof.
  unfold git_add. induction ps as [|p ps IH]; intros w S; cbn [for_each map].
  - exists w. rewrite app_nil_r. now repeat split.
  - destruct (exec w (add_cmd p) (files w)) as [fs|] eqn:E;
      [|now destruct (S (add_cmd p) (files w))].
    unfold bind at 1. fold (add_cmd p). rewrite (@run_ok _ _ _ E).
    set (w1 := {| files := fs; exec := exec w; capture := capture w;
                  trace := trace w ++ [Ran (add_cmd p)] |}).
    destruct (IH w1) as (w' & R & X & C & T & W); [exact S|].
    exists w'. rewrite R. repeat split; try assumption.
    + rewrite T. cbn [trace w1]. rewrite ran_snoc, <- app_assoc. reflexivity.
    + rewrite W. cbn [trace w1]. apply written_snoc_ran.
Qed.

Lemma mem_In x l : mem x l = true <-> In x l.
Proof.
  unfold mem. rewrite existsb_exists. split.
  - intros (y & Hy & E). apply str_eqb_eq in E. now subst.
  - intros H. exists x. split; [exact H | apply str_eqb_refl].
Qed.

Lemma unrelated_nil changed out :
  unrelated changed out = [] <->
  forall p, In p (status_files_of out) -> In p changed.
Proof.
  unfold unrelated. split.
  - intros H p Hp. destruct (mem p changed) eqn:M; [now apply mem_In|].
    assert (I : In p (filter (fun p => negb (mem p changed)) (status_files_of out))).
    { apply filter_In. split; [exact Hp | now rewrite M]. }
    rewrite H in I. destruct I.
  - intros H. induction (status_files_of out) as [|q l IH]; [reflexivity|].
    cbn [filter]. assert (M : mem q changed = true).
    { apply mem_In, H. now left. }
    rewrite M. cbn [negb]. apply IH. intros p Hp. apply H. now right.
Qed.

Lemma filter_nil_of_nil {A} (f : A -> bool) l : l = [] -> filter f l = [].
Proof. now intros ->. Qed.

End Commands.

(** X4.  With [--commit], the status being read: unless [--allow-dirty] is
    set, one reported file that the run did not change stops the run with a
    fatal error that lists these files, and no command is run; otherwise
    (every command succeeding) [git add --] is run for each changed file, in
    order, and then [git commit -m "Release v<version>"], nothing else. *)
Theorem commit_step_commands args changed w out :
  commit args = true ->
  capture w status_cmd = Some out ->
  (allow_dirty args = false -> unrelated changed out <> [] ->
     fst (commit_step args changed w)
     = Died (lit "working tree has unrelated changes: "
             ++ join (lit ", ") (unrelated changed out))
     /\ ran (trace (snd (commit_step args changed w))) = ran (trace w))
  /\ (allow_dirty args = true \/ unrelated changed out = [] ->
      commands_succeed w ->
      fst (commit_step args changed w) = Ok tt
      /\ ran (trace (snd (commit_step args changed w)))
         = ran (trace w) ++ map add_cmd changed ++ [commit_cmd args]).
Proof.
  intros Hc Hout.
  assert (Q : commit_step args changed w =
     (when (nonempty_list (status_files_of out) && negb (allow_dirty args))
        (when (nonempty_list (unrelated changed out))
           (die (lit "working tree has unrelated changes: "
                 ++ join (lit ", ") (unrelated changed out)))) ;;;
      git_add changed ;;;
      git_commit (lit "Release v" ++ version args)) w).
  { unfold commit_step. rewrite Hc. cbn [when]. unfold git_status_files.
    unfold bind at 1. unfold bind at 1. unfold run_stdout.
    fold status_cmd. rewrite Hout. reflexivity. }
  rewrite Q. clear Q. split.
  - intros Hd Hu. rewrite Hd. cbn [negb]. rewrite andb_true_r.
    assert (N : nonempty_list (status_files_of out) = true).
    { destruct (status_files_of out) eqn:E; [|reflexivity].
      exfalso. apply Hu. unfold unrelated. now rewrite E. }
    rewrite N. destruct (unrelated changed out) as [|u us] eqn:E; [easy|].
    cbn [when nonempty_list]. unfold bind at 1.
    pose proof (Effects.silent_die (A := unit)
                  (lit "working tree has unrelated changes: "
                   ++ join (lit ", ") (u :: us)) w) as (_ & _ & _ & _ & R).
    unfold die in *. unfold bind at 1 in R. unfold bind at 1.
    cbn in *. split; [reflexivity | exact R].
  - intros Hok S.
    assert (G : (when (nonempty_list (status_files_of out) && negb (allow_dirty args))
        (when (nonempty_list (unrelated changed out))
           (die (lit "working tree has unrelated changes: "
                 ++ join (lit ", ") (unrelated changed out))))) w = (Ok tt, w)).
    { destruct Hok as [Hd|Hn].
      - rewrite Hd. cbn [negb]. now rewrite andb_false_r.
      - rewrite Hn. cbn [nonempty_list when].
        now destruct (nonempty_list (status_files_of out) && negb (allow_dirty args)). }
    destruct (Commands.git_add_runs changed S) as (w' & R & X & C & T & W).
    match goal with |- fst (?m w) = _ /\ _ =>
      assert (A : m w = run (commit_cmd args) w')
        by (unfold bind at 1; rewrite G; unfold bind at 1; now rewrite R)
    end.
    rewrite A. clear A.
    destruct (exec w' (commit_cmd args) (files w')) as [fs|] eqn:E.
    + rewrite (@Commands.run_ok _ _ _ E). cbn [fst snd trace].
      split; [reflexivity|]. rewrite Commands.ran_snoc, T, <- app_assoc. reflexivity.
    + rewrite X in E. now destruct (S (commit_cmd args) (files w')).
Qed.

Lemma commit_step_commands_witness :
  let args := with_commit sample_args in
  let changed := [lit "/repo/extension.toml"] in
  commit args = true
  /\ capture clean_world status_cmd = Some []
  /\ fst (commit_step args changed clean_world) = Ok tt
  /\ ran (trace (snd (commit_step args changed clean_world)))
     = [add_cmd (lit "/repo/extension.toml"); commit_cmd args].
Proof.
  intros args changed. split; [reflexivity|]. split; [reflexivity|].
  refine (proj2 (@commit_step_commands args changed clean_world []
                   eq_refl eq_refl) _ _).
  - right. reflexivity.
  - intros cmd fs. discriminate.
Defined.


(** X5.  With [--push] and without [--tag], when [git tag --list
    v<version>] prints only white space the run stops with a fatal error and
    pushes nothing.  With [--tag], or when the tag is listed, the branch is
    pushed and then the tag (every command succeeding), and nothing else is
    run. *)
Theorem push_step_guard args w :
  push args = true ->
  (tag args = false ->
   forall out, capture w (tag_list_cmd args) = Some out -> strip out = [] ->
     fst (push_step args w) = Died (lit "--push requires --tag or an existing tag")
     /\ ran (trace (snd (push_step args w))) = ran (trace w))
  /\ (tag args = true
      \/ (exists out, capture w (tag_list_cmd args) = Some out /\ strip out <> []) ->
      commands_succeed w ->
      fst (push_step args w) = Ok tt
      /\ ran (trace (snd (push_step args w))) = ran (trace w) ++ push_commands args).
Proof.
  intros Hp. unfold push_step. rewrite Hp. cbn [when]. split.
  - intros Ht out Hout Hs. rewrite Ht. cbn [negb when].
    match goal with |- fst (?m w) = _ /\ _ =>
      assert (A : m w
                  = die (lit "--push requires --tag or an existing tag") w)
    end.
    { unfold bind at 1. unfold bind at 1. unfold run_stdout.
      change (capture w _) with (capture w (tag_list_cmd args)).
      rewrite Hout, Hs. reflexivity. }
    rewrite A. unfold die, bind, log, lift. cbn [fst snd trace].
    split; [reflexivity|]. rewrite ran_app. apply app_nil_r.
  - intros Hok S.
    match goal with |- fst (bind ?g _ w) = _ /\ _ =>
      assert (G : g w = (Ok tt, w))
    end.
    { destruct Hok as [Ht|(out & Hout & Hs)].
      - now rewrite Ht.
      - destruct (tag args); [reflexivity|]. cbn [negb when].
        unfold bind at 1. unfold run_stdout.
        change (capture w _) with (capture w (tag_list_cmd args)).
        rewrite Hout.
        destruct (strip out); [easy | reflexivity]. }
    match goal with |- fst (?m w) = _ /\ _ =>
      assert (A : m w = git_push (remote args) (tag_name args) w)
        by (unfold bind at 1; now rewrite G)
    end.
    rewrite A. clear A G. unfold git_push, push_commands.
    set (c1 := [lit "git"; lit "push"; remote args; lit "HEAD"]).
    set (c2 := [lit "git"; lit "push"; remote args; tag_name args]).
    destruct (exec w c1 (files w)) as [fs1|] eqn:E1; [|now destruct (S c1 (files w))].
    unfold bind. rewrite (@Commands.run_ok _ _ _ E1).
    destruct (exec w c2 fs1) as [fs2|] eqn:E2; [|now destruct (S c2 fs1)].
    unfold run. cbn [exec files]. rewrite E2. cbn [fst snd trace].
    split; [reflexivity|].
    rewrite !Commands.ran_snoc, <- app_assoc. reflexivity.
Qed.

Lemma push_step_guard_witness :
  let args := {| version := lit "0.0.9"; note := []; notes_file := None;
                 allow_empty_notes := false; build := false;
                 run_tests_flag := false; commit := false; tag := false;
                 push := true; remote := lit "origin"; allow_dirty := false |} in
  push args = true /\ tag args = false
  /\ capture clean_world (tag_list_cmd args) = Some []
  /\ fst (push_step args clean_world)
     = Died (lit "--push requires --tag or an existing tag")
  /\ ran (trace (snd (push_step args clean_world))) = [].
Proof.
  intros args. split; [reflexivity|]. split; [reflexivity|].
  split; [reflexivity|].
  exact (proj1 (@push_step_guard args clean_world eq_refl) eq_refl []
           eq_refl eq_refl).
Defined.

(** X6.  [run_tests] runs [cargo test --lib], [./test_extension.sh] and
    [./test_clean_install.sh] in this order and stops at the first that
    fails, with that command's error; it returns when all three have run.
    It writes no file itself. *)
Theorem run_tests_stops_at_first_failure w :
  exists n,
    ran (trace (snd (run_tests w))) = ran (trace w) ++ firstn n test_commands
    /\ fst (run_tests w)
       = match nth_error test_commands n with
         | Some cmd => Raised (CalledProcessError cmd)
         | None => Ok tt
         end
    /\ written (trace (snd (run_tests w))) = written (trace w).
Proof.
  unfold run_tests, test_commands.
  set (c1 := [lit "cargo"; lit "test"; lit "--lib"]).
  set (c2 := [lit "./test_extension.sh"]).
  set (c3 := [lit "./test_clean_install.sh"]).
  unfold bind, run.
  destruct (exec w c1 (files w)) as [fs1|] eqn:E1; cbn [exec files].
  2:{ exists 0. cbn. rewrite app_nil_r. now repeat split. }
  destruct (exec w c2 fs1) as [fs2|] eqn:E2; cbn [exec files].
  2:{ exists 1. cbn [fst snd trace firstn nth_error].
      rewrite Commands.ran_snoc, Commands.written_snoc_ran. now repeat split. }
  destruct (exec w c3 fs2) as [fs3|] eqn:E3; cbn [exec files].
  2:{ exists 2. cbn [fst snd trace firstn nth_error].
      rewrite !Commands.ran_snoc, !Commands.written_snoc_ran, <- app_assoc.
      now repeat split. }
  exists 3. cbn [fst snd trace firstn nth_error].
  rewrite !Commands.ran_snoc, !Commands.written_snoc_ran, <- !app_assoc.
  now repeat split.
Qed.

(** X7.  With [--build]: when [cargo build] fails the step fails with that
    command's error and changes nothing; when it succeeds and the built
    module is missing, the run stops with a fatal error and [extension.wasm]
    is not written; when the module is there, its bytes are written to
    [extension.wasm], no other file is touched, and [extension.wasm] is
    added to the changed files. *)
Theorem build_step_copies_module ROOT args changed w :
  build args = true ->
  let r := build_step ROOT args changed w in
  match exec w cargo_build_cmd (files w) with
  | None => r = (Raised (CalledProcessError cargo_build_cmd), w)
  | Some fs =>
      match fs (built_path ROOT) with
      | None =>
          fst r = Died (lit "build succeeded but wasm file not found")
          /\ files (snd r) = fs
          /\ written (trace (snd r)) = written (trace w)
      | Some bytes =>
          fst r = Ok (changed ++ [wasm_path ROOT])
          /\ files (snd r) (wasm_path ROOT) = Some bytes
          /\ (forall q, q <> wasm_path ROOT -> files (snd r) q = fs q)
          /\ written (trace (snd r)) = written (trace w) ++ [wasm_path ROOT]
      end
  end.
Proof.
  intros Hb r.
  assert (Q : r = (build_wasm ROOT ;;;
                   ex <- path_exists (wasm_path ROOT) ;;
                   ret (if ex then changed ++ [wasm_path ROOT] else changed)) w).
  { subst r. unfold build_step. now rewrite Hb. }
  clearbody r. unfold build_wasm in Q.
  change (run _) with (run cargo_build_cmd) in Q.
  destruct (exec w cargo_build_cmd (files w)) as [fs|] eqn:E.
  2:{ rewrite Q. unfold bind. now rewrite (@Commands.run_fails _ _ E). }
  unfold bind at 1 2 in Q. rewrite (@Commands.run_ok _ _ _ E) in Q.
  cbn [files] in Q.
  change (fs (path_join ROOT _)) with (fs (built_path ROOT)) in Q.
  destruct (fs (built_path ROOT)) as [bytes|].
  - unfold write_text, bind, path_exists, ret in Q. cbn [files] in Q.
    change (path_join ROOT (lit "extension.wasm")) with (wasm_path ROOT) in Q.
    rewrite str_eqb_refl in Q. rewrite Q. cbn [fst snd files trace].
    split; [reflexivity|]. split; [now rewrite str_eqb_refl|]. split.
    + intros q Hq. apply str_eqb_neq in Hq. now rewrite Hq.
    + rewrite !written_app. cbn. now rewrite app_nil_r.
  - unfold die, bind, log, lift in Q. rewrite Q. cbn [fst snd files trace].
    repeat split. rewrite !written_app. cbn. now rewrite !app_nil_r.
Qed.

Lemma build_step_copies_module_witness :
  let args := {| version := lit "0.0.9"; note := []; notes_file := None;
                 allow_empty_notes := false; build := true;
                 run_tests_flag := false; commit := false; tag := false;
                 push := false; remote := lit "origin"; allow_dirty := false |} in
  build args = true
  /\ fst (build_step (lit "/repo") args [] clean_world)
     = Died (lit "build succeeded but wasm file not found").
Proof.
  intros args. split; [reflexivity|].
  exact (proj1 (@build_step_copies_module (lit "/repo") args [] clean_world
                  eq_refl)).
Defined.


(** ** What the updaters return *)

Module Returned.
Import Re.

Lemma split_unique (p : ascii -> bool) u u' r r' :
  all p u -> all p u' -> stops p r -> stops p r' ->
  u ++ r = u' ++ r' -> u = u' /\ r = r'.
Proof.
  intros Hu Hu' Hr Hr' E. split.
  - rewrite <- (@take_while_app p u r Hu Hr), E. now apply take_while_app.
  - rewrite <- (@drop_while_app p u r Hu Hr), E. now apply drop_while_app.
Qed.

Lemma app_split_lt {A} (u u' r r' : list A) :
  u ++ r = u' ++ r' -> length u' < length u ->
  exists p2, u = u' ++ p2 /\ p2 <> [] /\ r' = p2 ++ r.
Proof.
  revert u'. induction u as [|c u IH]; intros u' E L; [cbn in L; lia|].
  destruct u' as [|c' u'].
  - exists (c :: u). cbn in E. repeat split; [discriminate | now symmetry].
  - cbn in E. injection E as -> E. cbn in L.
    destruct (IH u' E) as (p2 & -> & N & ->); [lia|].
    exists p2. now repeat split.
Qed.

(** The leftmost match of the manifest pattern is the first version line. *)
Lemma first_line_of_search text m :
  search version_re text = Some m ->
  exists pre ws1 ws2 cur post, first_version_line text pre ws1 ws2 cur post.
Proof.
  intros S. apply SearchFacts.search_some in S as (pre & suf & E & _ & Hm & Hb).
  destruct (@Manifest.version_at_inv (lastc None pre) suf (length pre) no_caps)
    as (Hbol & ws1 & ws2 & cur & post & Es & H1 & H2 & Hc & Hq).
  { eexists. exact Hm. }
  exists pre, ws1, ws2, cur, post. split; [|split].
  - rewrite E, Es. reflexivity.
  - repeat split; assumption.
  - intros pre' ws1' ws2' cur' post' E' Hok'.
    destruct (Nat.le_gt_cases (length pre) (length pre')) as [L|L]; [exact L|].
    exfalso. rewrite E in E'. unfold version_line in E'.
    destruct (app_split_lt _ _ _ _ E' L) as (p2 & Ep & N & Er).
    specialize (Hb pre' p2 Ep N). unfold no_match_at in Hb.
    pose proof (Manifest.version_at post' Hok') as M.
    unfold matches_at in M. cbv zeta in M. rewrite Er in M. congruence.
Qed.

Lemma new_line_differs ws1 ws2 cur V post :
  all is_space ws1 -> all is_space ws2 ->
  all not_dquote cur -> all not_dquote V ->
  new_version_line V ++ post
  = lit "version" ++ ws1 ++ lit "=" ++ ws2 ++ [DQUOTE] ++ cur ++ [DQUOTE] ++ post ->
  cur = V.
Proof.
  intros H1 H2 Hc HV E. unfold new_version_line in E.
  change (lit "version = " ++ [DQUOTE] ++ V ++ [DQUOTE])
    with (lit "version" ++ [" "%char] ++ "="%char :: [" "%char]
          ++ DQUOTE :: V ++ [DQUOTE]) in E.
  rewrite <- !app_assoc in E. apply app_inv_head in E.
  cbn [lit list_ascii_of_string app] in E.
  change (" "%char :: "="%char :: " "%char :: DQUOTE :: (V ++ [DQUOTE]) ++ post)
    with ([" "%char] ++ "="%char :: " "%char :: DQUOTE :: (V ++ [DQUOTE]) ++ post)
    in E.
  apply (@split_unique is_space) in E as [_ E];
    [|reflexivity | exact H1 | reflexivity | reflexivity].
  injection E as E.
  change (" "%char :: DQUOTE :: (V ++ [DQUOTE]) ++ post)
    with ([" "%char] ++ DQUOTE :: (V ++ [DQUOTE]) ++ post) in E.
  apply (@split_unique is_space) in E as [_ E];
    [|reflexivity | exact H2 | reflexivity | reflexivity].
  injection E as E. rewrite <- app_assoc in E.
  apply (@split_unique not_dquote) in E as [E _];
    [congruence | exact HV | exact Hc | reflexivity | reflexivity].
Qed.

Lemma lstrip_split s : exists ws, s = ws ++ lstrip s /\ all is_space ws.
Proof.
  induction s as [|c s (ws & E & H)]; [now exists []|]. cbn [lstrip].
  destruct (is_space c) eqn:Hc.
  - exists (c :: ws). split; [cbn; now f_equal|]. unfold all in *. cbn.
    now rewrite Hc.
  - now exists [].
Qed.

Lemma rstrip_split s : exists ws, s = rstrip s ++ ws /\ all is_space ws.
Proof.
  destruct (lstrip_split (rev s)) as (ws & E & H). exists (rev ws). split.
  - unfold rstrip. rewrite <- rev_app_distr, <- E. symmetry. apply rev_involutive.
  - unfold all in *. rewrite forallb_forall in *. intros x Hx.
    apply H. now apply in_rev.
Qed.

Lemma section_length V notes : 0 < length (changelog_section V notes).
Proof. unfold changelog_section. cbn. lia. Qed.

End Returned.

(** The manifest updater returns only with a changed text. *)
Lemma manifest_returns_change text V before after :
  version3 V ->
  update_extension_toml_text text V = Ok (before, after) ->
  before = text /\ after <> text
  /\ exists pre ws1 ws2 cur post,
       first_version_line text pre ws1 ws2 cur post
       /\ cur <> V /\ after = pre ++ new_version_line V ++ post.
Proof.
  intros HV R.
  destruct (Re.search version_re text) as [m|] eqn:S.
  2:{ unfold update_extension_toml_text in R. rewrite S in R. discriminate. }
  destruct (Returned.first_line_of_search _ S) as (pre & ws1 & ws2 & cur & post & F).
  pose proof (@ManifestUpdate.update_at text pre ws1 ws2 cur post V HV
                (proj1 F) (Manifest.search_first F)) as U.
  rewrite U in R. destruct (str_eqb cur V) eqn:Q; [discriminate|].
  injection R as <- <-. apply str_eqb_neq in Q.
  split; [reflexivity|]. split.
  - intros E. destruct F as (Et & (_ & H1 & H2 & _ & Hc) & _).
    rewrite Et in E. unfold version_line in E.
    apply app_inv_head in E. apply Q.
    apply (@Returned.new_line_differs ws1 ws2 cur V post); auto.
    now apply ManifestUpdate.version3_not_dquote.
  - exists pre, ws1, ws2, cur, post. split; [exact F|]. now split.
Qed.

(** X8.  When the manifest updater returns for a version [V], the text has
    a first version line, the value of that line is not [V], the updated
    text is the original with that line replaced by [version = QVQ] (Q the
    double quote), and it differs from the original. *)
Theorem update_extension_toml_returns_change text V before after :
  version3 V ->
  update_extension_toml_text text V = Ok (before, after) ->
  before = text /\ after <> text
  /\ exists pre ws1 ws2 cur post,
       first_version_line text pre ws1 ws2 cur post
       /\ cur <> V /\ after = pre ++ new_version_line V ++ post.
Proof. apply manifest_returns_change. Qed.

Lemma update_extension_toml_returns_change_witness :
  version3 (lit "0.0.9")
  /\ update_extension_toml_text sample_manifest (lit "0.0.9")
     = Ok (sample_manifest,
           lit "id = " ++ quoted "css-variables" ++ [NL]
           ++ lit "version = " ++ quoted "0.0.9" ++ [NL])
  /\ lit "id = " ++ quoted "css-variables" ++ [NL]
     ++ lit "version = " ++ quoted "0.0.9" ++ [NL] <> sample_manifest.
Proof.
  split; [exact version3_sample|]. split; [reflexivity|].
  exact (proj1 (proj2 (@update_extension_toml_returns_change
                         sample_manifest (lit "0.0.9") _ _ version3_sample
                         eq_refl))).
Defined.

(** So does the changelog updater. *)
Lemma changelog_returns_change text V notes before after :
  insert_changelog_text text V notes = Ok (before, after) ->
  before = text /\ after <> text.
Proof.
  unfold insert_changelog_text.
  destruct (Re.search (changelog_version_re V) text); [discriminate|].
  intros [= <- <-]. split; [reflexivity|].
  destruct (Re.search heading_re text) as [m|].
  - intros E. apply (f_equal (@length ascii)) in E.
    rewrite !length_app in E.
    pose proof (Returned.section_length V notes) as L.
    assert (T : length (firstn (Re.m_start m) text)
                + length (skipn (Re.m_start m) text) = length text)
      by (now rewrite <- length_app, firstn_skipn).
    cbn [length] in E. rewrite !length_app in E. cbn [length] in E. lia.
  - intros E. destruct (Returned.rstrip_split text) as (ws & Et & Hws).
    rewrite Et in E at 2. apply app_inv_head in E.
    assert (I : In "#"%char ws).
    { rewrite <- E. unfold changelog_section. cbn. right. now left. }
    unfold all in Hws. rewrite forallb_forall in Hws.
    specialize (Hws _ I). discriminate.
Qed.

(** X9.  When the changelog updater returns, the updated text differs from
    the original, whatever the notes. *)
Theorem insert_changelog_returns_change text V notes before after :
  insert_changelog_text text V notes = Ok (before, after) ->
  before = text /\ after <> text.
Proof. apply changelog_returns_change. Qed.

Lemma insert_changelog_returns_change_witness :
  exists after,
    insert_changelog_text sample_changelog (lit "0.0.9") [lit "Fix crash"]
    = Ok (sample_changelog, after)
    /\ after <> sample_changelog.
Proof.
  eexists. split; [reflexivity|].
  exact (proj2 (@insert_changelog_returns_change sample_changelog (lit "0.0.9")
                  [lit "Fix crash"] _ _ eq_refl)).
Defined.


(** ** The replacement template of the test scripts *)

Module TemplateFacts.
Import Template.





End TemplateFacts.




(** ** The first two edits of a run *)

Module FirstEdits.

Lemma edit_manifest_eq ROOT args ch w text :
  files w (ext_path ROOT) = Some text ->
  edit_manifest ROOT args ch w
  = match update_extension_toml_text text (version args) with
    | Ok (b, a) => write_if (negb (str_eqb b a)) (ext_path ROOT) a ch w
    | Died msg => die msg w
    | Raised e => (Raised e, w)
    end.
Proof.
  intros F. unfold edit_manifest, update_extension_toml.
  unfold bind at 1. unfold bind at 1. unfold read_text. rewrite F.
  destruct (update_extension_toml_text text (version args)) as [[b a]|msg|e];
    reflexivity.
Qed.

Lemma edit_changelog_eq ROOT args notes ch w text :
  files w (changelog_path ROOT) = Some text ->
  edit_changelog ROOT args notes ch w
  = match insert_changelog_text text (version args) notes with
    | Ok (b, a) => write_if (negb (str_eqb b a)) (changelog_path ROOT) a ch w
    | Died msg => die msg w
    | Raised e => (Raised e, w)
    end.
Proof.
  intros F. unfold edit_changelog, insert_changelog.
  unfold bind at 1. unfold bind at 1. unfold read_text. rewrite F.
  destruct (insert_changelog_text text (version args) notes) as [[b a]|msg|e];
    reflexivity.
Qed.

Lemma write_if_true p a ch w :
  write_if true p a ch w = (Ok (ch ++ [p]), wrote p a w).
Proof. reflexivity. Qed.


(** A manifest edit that returns has written the manifest. *)
Lemma manifest_step ROOT args ch w ch' w' :
  version3 (version args) ->
  edit_manifest ROOT args ch w = (Ok ch', w') ->
  exists text after,
    files w (ext_path ROOT) = Some text
    /\ update_extension_toml_text text (version args) = Ok (text, after)
    /\ ch' = ch ++ [ext_path ROOT] /\ w' = wrote (ext_path ROOT) after w.
Proof.
  intros HV R. destruct (files w (ext_path ROOT)) as [text|] eqn:F.
  2:{ unfold edit_manifest, update_extension_toml in R.
      unfold bind at 1 in R. unfold bind at 1 in R. unfold read_text in R.
      rewrite F in R. unfold die, bind, log, lift in R. discriminate. }
  rewrite (edit_manifest_eq _ _ _ _ F) in R.
  destruct (update_extension_toml_text text (version args))
    as [[b a]|msg|e] eqn:U; try discriminate.
  destruct (manifest_returns_change _ HV U) as (-> & Hne & _).
  assert (Q : str_eqb text a = false) by (apply str_eqb_neq; congruence).
  rewrite Q in R. cbn [negb] in R. rewrite write_if_true in R.
  injection R as <- <-. now exists text, a.
Qed.

Lemma changelog_step ROOT args notes ch w ch' w' :
  edit_changelog ROOT args notes ch w = (Ok ch', w') ->
  exists text after,
    files w (changelog_path ROOT) = Some text
    /\ insert_changelog_text text (version args) notes = Ok (text, after)
    /\ ch' = ch ++ [changelog_path ROOT]
    /\ w' = wrote (changelog_path ROOT) after w.
Proof.
  intros R. destruct (files w (changelog_path ROOT)) as [text|] eqn:F.
  2:{ unfold edit_changelog, insert_changelog in R.
      unfold bind at 1 in R. unfold bind at 1 in R. unfold read_text in R.
      rewrite F in R. unfold die, bind, log, lift in R. discriminate. }
  rewrite (edit_changelog_eq _ _ _ _ _ F) in R.
  destruct (insert_changelog_text text (version args) notes)
    as [[b a]|msg|e] eqn:U; try discriminate.
  destruct (changelog_returns_change _ _ _ U) as (-> & Hne).
  assert (Q : str_eqb text a = false) by (apply str_eqb_neq; congruence).
  rewrite Q in R. cbn [negb] in R. rewrite write_if_true in R.
  injection R as <- <-. now exists text, a.
Qed.

Lemma later_edits_extend ROOT args ch w :
  (exists evs, trace (snd (later_edits ROOT args ch w)) = trace w ++ evs)
  /\ (forall ch', fst (later_edits ROOT args ch w) = Ok ch' ->
        exists l, ch' = ch ++ l).
Proof.
  pose proof (target_paths_distinct ROOT args []) as N.
  unfold targets in N. cbn [map fst app] in N.
  inversion N as [|? ? _ N']; subst. inversion N' as [|? ? _ N'']; subst.
  inversion N'' as [|? ? N3 N''']; subst. inversion N''' as [|? ? N4 _]; subst.
  assert (F : frame
    ([(readme_path ROOT,
       fun t => drop_flag (replace_latest_readme_text t (version args)))]
     ++ [(publishing_path ROOT,
          fun t => drop_flag (update_publishing_text t (version args)))]
     ++ map (fun p =>
               (p, fun t => drop_flag
                     (update_test_version_checks_text t (version args))))
            (test_paths ROOT))
    (later_edits ROOT args)).
  { unfold later_edits.
    apply (@frame_bind [_] _ (edit_readme ROOT args)).
    { apply frame_readme. }
    2: { intros q Hq [<-|[]]. apply N3. exact Hq. }
    apply (@frame_bind [_] _ (edit_publishing ROOT args)).
    { apply frame_publishing. }
    2: { intros q Hq [<-|[]]. apply N4. exact Hq. }
    apply frame_tests. apply test_paths_distinct. }
  destruct (F ch w) as (_ & (evs & Ev & _) & C). split.
  - now exists evs.
  - intros ch' R. destruct (C ch' R) as (l & -> & _). now exists l.
Qed.

Lemma edit_files_eq ROOT args notes w :
  edit_files ROOT args notes w
  = (ch1 <- edit_manifest ROOT args [] ;;
     ch2 <- edit_changelog ROOT args notes ch1 ;;
     later_edits ROOT args ch2) w.
Proof. reflexivity. Qed.

Lemma bind_ok_inv {A B} (m : M A) (f : A -> M B) w b :
  fst (bind m f w) = Ok b ->
  exists a w1, m w = (Ok a, w1) /\ bind m f w = f a w1.
Proof.
  unfold bind. destruct (m w) as [[a|msg|e] w1]; try discriminate.
  intros _. now exists a, w1.
Qed.

Lemma paths_differ ROOT : changelog_path ROOT <> ext_path ROOT.
Proof.
  unfold changelog_path, ext_path. intros H. apply path_join_inj in H.
  discriminate.
Qed.

End FirstEdits.

(** X11.  For a version [a.b.c], whenever the file edits of [main] return,
    [extension.toml] and [CHANGELOG.md] are the first two changed files and
    the first two files written, in this order. *)
Theorem edit_files_first_two ROOT args notes w changed :
  version3 (version args) ->
  fst (edit_files ROOT args notes w) = Ok changed ->
  exists rest later,
    changed = ext_path ROOT :: changelog_path ROOT :: rest
    /\ written (trace (snd (edit_files ROOT args notes w)))
       = written (trace w) ++ ext_path ROOT :: changelog_path ROOT :: later.
Proof.
  intros HV R. rewrite FirstEdits.edit_files_eq in *.
  destruct (FirstEdits.bind_ok_inv _ _ _ R) as (ch1 & w1 & E1 & Q1).
  rewrite Q1 in *. clear Q1.
  apply FirstEdits.manifest_step in E1 as (t1 & a1 & _ & _ & -> & ->);
    [|exact HV].
  destruct (FirstEdits.bind_ok_inv _ _ _ R) as (ch2 & w2 & E2 & Q2).
  rewrite Q2 in *. clear Q2.
  apply FirstEdits.changelog_step in E2 as (t2 & a2 & _ & _ & -> & ->).
  destruct (FirstEdits.later_edits_extend ROOT args
              (([] ++ [ext_path ROOT]) ++ [changelog_path ROOT])
              (wrote (changelog_path ROOT) a2 (wrote (ext_path ROOT) a1 w)))
    as ((evs & Ev) & C).
  destruct (C _ R) as (l & ->). exists l, (written evs). split; [reflexivity|].
  rewrite Ev. cbn [wrote trace]. rewrite !written_app.
  cbn. rewrite <- !app_assoc. reflexivity.
Qed.

Lemma edit_files_first_two_witness :
  version3 (version sample_args)
  /\ exists changed rest,
       fst (edit_files (lit "/repo") sample_args (note sample_args) sample_world)
       = Ok changed
       /\ changed = lit "/repo/extension.toml" :: lit "/repo/CHANGELOG.md" :: rest.
Proof.
  split; [exact version3_sample|].
  exists [lit "/repo/extension.toml"; lit "/repo/CHANGELOG.md"].
  assert (R : fst (edit_files (lit "/repo") sample_args (note sample_args)
                     sample_world)
              = Ok [lit "/repo/extension.toml"; lit "/repo/CHANGELOG.md"])
    by (vm_compute; reflexivity).
  destruct (@edit_files_first_two (lit "/repo") sample_args (note sample_args)
              sample_world _ version3_sample R) as (rest & later & E & _).
  exists rest. split; [exact R | exact E].
Defined.


(** ** A run that stops between two edits *)

Lemma parse_notes_leaves_world args w notes :
  fst (parse_notes args w) = Ok notes -> parse_notes args w = (Ok notes, w).
Proof.
  intros H. destruct (combined_notes args w) as [l|] eqn:E.
  - rewrite (parse_notes_cleaned _ _ E) in *. destruct l as [|c l].
    + destruct (negb (allow_empty_notes args)); [discriminate|].
      cbn [fst] in H. congruence.
    + cbn [fst] in H. congruence.
  - apply parse_notes_missing_file in E as [msg E]. congruence.
Qed.

(** X12.  The edits are not undone when a later one fails.  For a version
    [a.b.c], when the manifest updater returns an updated text and the
    changelog has a heading for the version already, [main] stops with the
    fatal error of the changelog, after it has written the updated manifest:
    [extension.toml] is the one file written, and no command is run. *)
Theorem main_stops_after_manifest_write ROOT args w mtext after ctext notes :
  version3 (version args) ->
  files w (ext_path ROOT) = Some mtext ->
  files w (changelog_path ROOT) = Some ctext ->
  fst (parse_notes args w) = Ok notes ->
  update_extension_toml_text mtext (version args) = Ok (mtext, after) ->
  version_heading (version args) ctext ->
  fst (main ROOT args w)
  = Died (lit "CHANGELOG already contains version " ++ version args)
  /\ files (snd (main ROOT args w)) (ext_path ROOT) = Some after
  /\ (forall q, q <> ext_path ROOT -> files (snd (main ROOT args w)) q = files w q)
  /\ written (trace (snd (main ROOT args w)))
     = written (trace w) ++ [ext_path ROOT]
  /\ ran (trace (snd (main ROOT args w))) = ran (trace w).
Proof.
  intros HV Fm Fc Hn Um Hh.
  set (msg := lit "CHANGELOG already contains version " ++ version args).
  assert (Q : main ROOT args w = die msg (wrote (ext_path ROOT) after w)).
  { unfold main. unfold bind at 1.
    rewrite Checks.ensure_ok by congruence.
    unfold bind at 1. rewrite (parse_notes_leaves_world _ _ Hn).
    unfold bind at 1. rewrite FirstEdits.edit_files_eq.
    unfold bind at 1. rewrite (FirstEdits.edit_manifest_eq _ _ _ _ Fm), Um.
    destruct (manifest_returns_change _ HV Um) as (_ & Hne & _).
    assert (E : str_eqb mtext after = false) by (apply str_eqb_neq; congruence).
    rewrite E. cbn [negb]. rewrite FirstEdits.write_if_true.
    assert (Fc' : files (wrote (ext_path ROOT) after w) (changelog_path ROOT)
                  = Some ctext).
    { cbn [wrote files].
      pose proof (FirstEdits.paths_differ ROOT) as D.
      apply str_eqb_neq in D. now rewrite D. }
    unfold bind at 1. rewrite (FirstEdits.edit_changelog_eq _ _ _ _ _ Fc').
    apply ChangelogGuard.search_guard in Hh as [m Hm].
    unfold insert_changelog_text. rewrite Hm. reflexivity. }
  rewrite Q. unfold die, bind, log, lift. cbn [fst snd wrote files trace].
  split; [reflexivity|]. split; [now rewrite str_eqb_refl|]. split.
  - intros q Hq. apply str_eqb_neq in Hq. now rewrite Hq.
  - rewrite !written_app, !ran_app. cbn. now rewrite !app_nil_r.
Qed.

Lemma main_stops_after_manifest_write_witness :
  let args := sample_args in
  let ROOT := lit "/repo" in
  version3 (version args)
  /\ fst (main ROOT args stale_world)
     = Died (lit "CHANGELOG already contains version 0.0.9")
  /\ files (snd (main ROOT args stale_world)) (ext_path ROOT)
     = Some (lit "id = " ++ quoted "css-variables" ++ [NL]
             ++ lit "version = " ++ quoted "0.0.9" ++ [NL])
  /\ written (trace (snd (main ROOT args stale_world))) = [ext_path ROOT].
Proof.
  intros args ROOT. split; [exact version3_sample|].
  assert (Hh : version_heading (version args)
                 (text_of ["# Changelog"; ""; "## 0.0.9"; ""; "- Fix crash"]%string)).
  { exists (text_of ["# Changelog"; ""]%string), (lit " "),
      (NL :: text_of [""; "- Fix crash"]%string).
    repeat split; try reflexivity. discriminate. }
  destruct (@main_stops_after_manifest_write ROOT args stale_world
              sample_manifest
              (lit "id = " ++ quoted "css-variables" ++ [NL]
               ++ lit "version = " ++ quoted "0.0.9" ++ [NL])
              (text_of ["# Changelog"; ""; "## 0.0.9"; ""; "- Fix crash"]%string)
              [lit "Fix crash"]
              version3_sample eq_refl eq_refl eq_refl eq_refl Hh)
    as (R & F & _ & W & _).
  split; [exact R|]. split; [exact F | exact W].
Defined.


(** ** The line that [replace_latest_readme] replaces *)

(** X13.  For a version [a.b.c], [replace_latest_readme] either finds no
    match and returns the text unchanged with the flag unset, or replaces
    one span by [### Latest: v<version>] and sets the flag: the span starts
    at the start of a line with [### Latest:] and ends at the end of a line
    or of the text; what is before and after the span stays as it is. *)
Theorem replace_latest_readme_span text V :
  version3 V ->
  (found latest_re text = false
   /\ replace_latest_readme_text text V = Ok (text, text, false))
  \/ (exists pre old post,
        text = pre ++ latest_prefix ++ old ++ post
        /\ line_start pre /\ line_end post
        /\ found latest_re text = true
        /\ replace_latest_readme_text text V
           = Ok (text, pre ++ (lit "### Latest: v" ++ V) ++ post, true)).
Proof.
  intros HV. rewrite (LatestIdem.replace_latest_once text HV). unfold found.
  destruct (Re.search latest_re text) as [m|] eqn:S; [right | now left].
  rewrite Latest.latest_re_eq in S.
  destruct (@Replace.first_match_line _ _ _ _ _ LatestIdem.latest_lands S)
    as (pre & rest & n & E & Hpre & Hs & He & Hn & HT & _).
  exists pre, (firstn n rest), (skipn n rest).
  split; [now rewrite firstn_skipn|]. split; [exact Hpre|].
  split; [now apply Landing.trail_zero_eol|]. split; [reflexivity|].
  rewrite Hs, He, E.
  now destruct (Replace.splice pre latest_prefix rest n) as [-> ->].
Qed.

Lemma replace_latest_readme_span_witness :
  let text := text_of ["# CSS variables"; "### Latest: v0.0.8"; "Usage"]%string in
  version3 (lit "0.0.9")
  /\ ((found latest_re text = false
       /\ replace_latest_readme_text text (lit "0.0.9") = Ok (text, text, false))
      \/ (exists pre old post,
            text = pre ++ latest_prefix ++ old ++ post
            /\ line_start pre /\ line_end post
            /\ found latest_re text = true
            /\ replace_latest_readme_text text (lit "0.0.9")
               = Ok (text, pre ++ (lit "### Latest: v" ++ lit "0.0.9") ++ post,
                     true))).
Proof.
  intros text. split; [exact version3_sample|].
  exact (@replace_latest_readme_span text (lit "0.0.9") version3_sample).
Defined.


(** ** Reading the status of the working tree *)

Module Status.

Lemma space_not_linebreak c : is_space c = false -> is_linebreak c = false.
Proof. clear. each_char c. Qed.

Lemma splitlines_line l rest :
  forallb (fun c => negb (is_linebreak c)) l = true ->
  splitlines (l ++ NL :: rest) = l :: splitlines rest.
Proof.
  induction l as [|c l IH]; intros H.
  - reflexivity.
  - cbn [forallb] in H. apply andb_true_iff in H as [Hc H].
    apply negb_true_iff in Hc. cbn [app splitlines]. rewrite Hc.
    now rewrite (IH H).
Qed.

Lemma splitlines_lines (ls : list str) :
  Forall (fun l => forallb (fun c => negb (is_linebreak c)) l = true) ls ->
  splitlines (flat_map (fun l => l ++ [NL]) ls) = ls.
Proof.
  induction 1 as [|l ls H _ IH]; [reflexivity|].
  cbn [flat_map]. rewrite <- app_assoc. cbn [app].
  now rewrite splitlines_line, IH.
Qed.

Lemma lstrip_app_nonempty u v : lstrip u <> [] -> lstrip (u ++ v) = lstrip u ++ v.
Proof.
  induction u as [|c u IH]; [intros H; now contradiction H|]. cbn [lstrip app].
  destruct (is_space c); [exact IH | reflexivity].
Qed.

Lemma rstrip_cons_nonempty c s : rstrip s <> [] -> rstrip (c :: s) = c :: rstrip s.
Proof.
  intros H. unfold rstrip in *. cbn [rev].
  rewrite lstrip_app_nonempty.
  - now rewrite rev_app_distr.
  - intros E. apply H. now rewrite E.
Qed.

(** A trimmed, non-empty string starts with a visible character and is its
    own right trim. *)
Lemma trimmed_ends p :
  p <> [] -> strip p = p ->
  rstrip p = p /\ exists c t, p = c :: t /\ is_space c = false.
Proof.
  intros N E. split.
  - rewrite <- E at 1. unfold strip. rewrite rstrip_idem. exact E.
  - unfold strip in E. pose proof (lstrip_stops p) as H.
    destruct (lstrip p) as [|c t].
    + cbn in E. congruence.
    + cbn in H. rewrite rstrip_cons in E by assumption.
      exists c, (rstrip t). now split.
Qed.

Lemma strip_line e :
  status_entry_ok e ->
  strip (status_line e)
  = if is_space (st_x e) then st_y e :: " "%char :: st_path e
    else status_line e.
Proof.
  intros (Hx & Hy & Hxy & _ & N & E).
  destruct (trimmed_ends N E) as (R & c & t & Ep & Hc).
  assert (R1 : rstrip (" "%char :: st_path e) = " "%char :: st_path e).
  { rewrite rstrip_cons_nonempty; rewrite R; congruence. }
  assert (R2 : rstrip (st_y e :: " "%char :: st_path e)
               = st_y e :: " "%char :: st_path e).
  { rewrite rstrip_cons_nonempty; rewrite R1; [reflexivity | discriminate]. }
  unfold strip, status_line. destruct Hx as [Hx|Hx]; rewrite Hx.
  - cbn [lstrip]. change (is_space " ") with true. cbv iota.
    rewrite (Hxy Hx). exact R2.
  - cbn [lstrip]. rewrite Hx.
    rewrite rstrip_cons_nonempty; rewrite R2; [reflexivity | discriminate].
Qed.

Lemma ok_no_linebreak e :
  status_entry_ok e ->
  forallb (fun c => negb (is_linebreak c)) (status_line e) = true.
Proof.
  intros (Hx & Hy & _ & Hp & _). unfold status_line. cbn [forallb].
  rewrite Hp.
  assert (X : is_linebreak (st_x e) = false)
    by (destruct Hx as [->|Hx]; [reflexivity | now apply space_not_linebreak]).
  assert (Y : is_linebreak (st_y e) = false)
    by (destruct Hy as [->|Hy]; [reflexivity | now apply space_not_linebreak]).
  now rewrite X, Y.
Qed.

(** What the script reads from the output. *)
Lemma status_files_of_output entries :
  Forall status_entry_ok entries ->
  status_files_of (status_output entries) = flat_map status_read entries.
Proof.
  intros H. unfold status_files_of, status_output.
  replace (flat_map (fun e => status_line e ++ [NL]) entries)
    with (flat_map (fun l => l ++ [NL]) (map status_line entries))
    by (clear H; induction entries as [|e es IH];
        [reflexivity | cbn [map flat_map]; now rewrite IH]).
  rewrite splitlines_lines.
  2:{ apply Forall_map. revert H. apply Forall_impl. apply ok_no_linebreak. }
  induction H as [|e es He _ IH]; [reflexivity|].
  cbn [map flat_map]. rewrite (strip_line He).
  destruct He as (Hx & Hy & Hxy & _ & N & E).
  destruct (trimmed_ends N E) as (_ & c & t & Ep & Hc).
  unfold status_read, status_line. rewrite Ep.
  destruct (is_space (st_x e)); cbn [filter nonempty].
  - destruct t as [|c' t']; simpl; [exact IH | f_equal; exact IH].
  - simpl. f_equal. exact IH.
Qed.

End Status.

(** X14.  On an output of [git status --porcelain] with one entry per line,
    status characters, a blank and the path, [git_status_files] returns the
    paths of the entries whose first status character is visible; of an
    entry whose first status character is a blank (a change that is not
    staged) it returns the path without its first character, or nothing
    when the path has one character. *)
Theorem git_status_files_reads_entries w entries :
  capture w status_cmd = Some (status_output entries) ->
  Forall status_entry_ok entries ->
  git_status_files w = (Ok (flat_map status_read entries), w).
Proof.
  intros C H. unfold git_status_files, bind, run_stdout.
  change (capture w _) with (capture w status_cmd). rewrite C.
  unfold ret. f_equal. f_equal. now apply Status.status_files_of_output.
Qed.

Lemma git_status_files_reads_entries_witness :
  let entries :=
    [ {| st_x := "M"; st_y := " "; st_path := lit "CHANGELOG.md" |};
      {| st_x := " "; st_y := "M"; st_path := lit "extension.toml" |};
      {| st_x := "?"; st_y := "?"; st_path := lit "notes.txt" |} ] in
  let w := {| files := sample_files; exec := fun _ fs => Some fs;
              capture := fun _ => Some (status_output entries);
              trace := [] |} in
  Forall status_entry_ok entries
  /\ git_status_files w
     = (Ok [lit "CHANGELOG.md"; lit "xtension.toml"; lit "notes.txt"], w).
Proof.
  intros entries w.
  assert (H : Forall status_entry_ok entries).
  { repeat apply Forall_cons; try apply Forall_nil;
      (split; [|split; [|split; [|split; [|split]]]]); cbn;
      try reflexivity; try discriminate; auto. }
  split; [exact H|].
  exact (@git_status_files_reads_entries w entries eq_refl H).
Defined.


(** ** The place of the new changelog section *)

Lemma heading_re_at prev s pos cs :
  Re.matcher heading_re prev s pos cs = None <-> ~ heading_start s.
Proof.
  unfold heading_re, heading_start. cbn [Re.matcher]. unfold Re.one.
  destruct s as [|a [|b [|c [|d post]]]];
    try (split; [intros _ (x & y & E & _); discriminate | reflexivity]).
  - destruct (Ascii.eqb a NL);
      (split; [intros _ (x & y & E & _); discriminate | reflexivity]).
  - destruct (Ascii.eqb a NL); [destruct (Ascii.eqb b "#")|];
      (split; [intros _ (x & y & E & _); discriminate | reflexivity]).
  - destruct (Ascii.eqb a NL); [destruct (Ascii.eqb b "#");
                                [destruct (Ascii.eqb c "#")|]|];
      (split; [intros _ (x & y & E & _); discriminate | reflexivity]).
  - destruct (Ascii.eqb_spec a NL) as [->|Na].
    2:{ split; [intros _ (x & y & E & _); congruence | reflexivity]. }
    destruct (Ascii.eqb_spec b "#") as [->|Nb].
    2:{ split; [intros _ (x & y & E & _); congruence | reflexivity]. }
    destruct (Ascii.eqb_spec c "#") as [->|Nc].
    2:{ split; [intros _ (x & y & E & _); congruence | reflexivity]. }
    change (Re.cls_has Re.Space d) with (is_space d).
    destruct (is_space d) eqn:Hd.
    + split; [discriminate|]. intros H. exfalso. apply H. now exists d, post.
    + split; [|reflexivity]. intros _ (x & y & E & Hx). congruence.
Qed.

(** X15.  When the changelog has no heading for the version, the new
    section is put in front of the first newline that is followed by [##]
    and a white space character, the text before and from that newline on
    staying as it is; when there is no such newline, the section and a
    newline are put after the text without its trailing white space. *)
Theorem insert_changelog_placement text V notes :
  ~ version_heading V text ->
  (forall pre suf,
     first_heading_start text pre suf ->
     insert_changelog_text text V notes
     = Ok (text, pre ++ changelog_section V notes ++ suf))
  /\ ((forall pre suf, text = pre ++ suf -> ~ heading_start suf) ->
      insert_changelog_text text V notes
      = Ok (text, rstrip text ++ changelog_section V notes ++ [NL])).
Proof.
  intros N. split.
  - intros pre suf (E & (c & post & -> & Hc) & Hb).
    apply insert_changelog_before_heading; auto.
    intros p1 p2 Ep Hp. unfold no_match_at. apply heading_re_at.
    exact (Hb p1 p2 Ep Hp).
  - intros H. apply insert_changelog_at_end; [exact N|].
    intros pre suf E. unfold no_match_at. apply heading_re_at.
    exact (H pre suf E).
Qed.

Lemma insert_changelog_placement_witness :
  ~ version_heading (lit "0.0.9") sample_changelog
  /\ insert_changelog_text sample_changelog (lit "0.0.9") [lit "Fix crash"]
     = Ok (sample_changelog,
           text_of ["# Changelog"; ""; "## 0.0.9"; ""; "- Fix crash"; "";
                    "## 0.0.8"; ""; "- Initial release"]%string).
Proof.
  assert (N : ~ version_heading (lit "0.0.9") sample_changelog).
  { intros H. apply ChangelogGuard.search_guard in H as [m H].
    assert (S : Re.search (changelog_version_re (lit "0.0.9")) sample_changelog
                = None) by (vm_compute; reflexivity).
    rewrite S in H. discriminate H. }
  split; [exact N|].
  refine (proj1 (@insert_changelog_placement sample_changelog (lit "0.0.9")
                   [lit "Fix crash"] N)
            (lit "# Changelog" ++ [NL])
            (NL :: text_of ["## 0.0.8"; ""; "- Initial release"]%string) _).
  split; [reflexivity|]. split.
  - exists " "%char,
      (lit "0.0.8" ++ NL :: text_of [""; "- Initial release"]%string).
    split; reflexivity.
  - intros p1 p2 Ep Hp (c & post & E & _).
    cbn in Ep.
    do 12 (destruct p1 as [|? p1];
           [ cbn in Ep; subst p2; cbn in E; discriminate E
           | cbn in Ep; injection Ep as _ Ep ]).
    destruct p1; cbn in Ep; [subst p2; now apply Hp | discriminate Ep].
Defined.


(** ** The commands of a run that returns *)

Module Order.












End Order.




(** ** Fatal errors are reported *)

Module Fatal.

Lemma nd_ok {A} (a : A) : never_dies (Ok a).
Proof. intros msg. discriminate. Qed.

Lemma nd_raised {A} e : never_dies (@Raised A e).
Proof. intros msg. discriminate. Qed.

Lemma nd_obind {A B} (o : outcome A) (f : A -> outcome B) :
  never_dies o -> (forall a, never_dies (f a)) -> never_dies (obind o f).
Proof.
  intros Ho Hf. destruct o as [a|msg|e]; cbn [obind].
  - apply Hf.
  - now destruct (Ho msg).
  - apply nd_raised.
Qed.

Lemma nd_emit c k : never_dies k -> never_dies (Template.emit c k).
Proof. intros H. apply nd_obind; [exact H | intros ps; apply nd_ok]. Qed.

Lemma nd_addgroup g i k : never_dies k -> never_dies (Template.addgroup g i k).
Proof.
  intros H. unfold Template.addgroup. destruct (g <? i); [apply nd_raised|].
  apply nd_obind; [exact H | intros ps; apply nd_ok].
Qed.

(** The template parser fails with an exception only. *)
Lemma nd_parse_template fuel groups : forall s,
  never_dies (Template.parse_template fuel groups s).
Proof.
  induction fuel as [|fuel IH]; intros s; [apply nd_ok|].
  cbv beta iota delta [Template.parse_template]. fold Template.parse_template.
  cbv beta iota zeta.
  repeat first
    [ apply nd_ok | apply nd_raised | apply IH
    | apply nd_emit | apply nd_addgroup
    | match goal with
      | |- never_dies (match ?x with _ => _ end) => destruct x
      end ].
Qed.

Lemma nd_subn r repl text count : never_dies (Sub.subn r repl text count).
Proof.
  unfold Sub.subn. apply nd_obind; [|intros ps; apply nd_ok].
  unfold Sub.compile_repl. destruct (existsb _ _); [|apply nd_ok].
  apply nd_parse_template.
Qed.

Lemma nd_readme text V : never_dies (replace_latest_readme_text text V).
Proof.
  unfold replace_latest_readme_text. apply nd_obind; [apply nd_subn|].
  intros [u c]. apply nd_ok.
Qed.

Lemma nd_tests text V : never_dies (update_test_version_checks_text text V).
Proof.
  unfold update_test_version_checks_text. apply nd_obind; [apply nd_subn|].
  intros [u c]. apply nd_ok.
Qed.

Lemma nd_publishing text V : never_dies (update_publishing_text text V).
Proof.
  unfold update_publishing_text.
  apply nd_obind; [apply nd_subn | intros [u1 c1]].
  apply nd_obind; [apply nd_subn | intros [u2 c2]].
  apply nd_obind; [apply nd_subn | intros [u3 c3]].
  apply nd_ok.
Qed.

(** *** The script *)

Lemma rf_ret {A} (a : A) : reports_fatal (ret a).
Proof. intros w msg H. discriminate. Qed.

Lemma rf_lift {A} (o : outcome A) : never_dies o -> reports_fatal (lift o).
Proof. intros N w msg H. cbn in H. now destruct (N msg). Qed.

Lemma rf_log e : reports_fatal (log e).
Proof. intros w msg H. discriminate. Qed.

Lemma rf_die {A} message : reports_fatal (@die A message).
Proof.
  intros w msg H. unfold die, bind, log, lift in *. cbn [fst snd trace] in *.
  injection H as <-. now exists (trace w).
Qed.

Lemma rf_bind {A B} (m : M A) (f : A -> M B) :
  reports_fatal m -> (forall a, reports_fatal (f a)) -> reports_fatal (bind m f).
Proof.
  intros Hm Hf w msg. specialize (Hm w). unfold bind.
  destruct (m w) as [[a|msg'|e] w1]; cbn [fst snd] in *.
  - apply Hf.
  - intros [= <-]. now apply Hm.
  - discriminate.
Qed.

Lemma rf_path_exists p : reports_fatal (path_exists p).
Proof. intros w msg H. discriminate. Qed.

Lemma rf_read_text p : reports_fatal (read_text p).
Proof.
  intros w msg. unfold read_text. destruct (files w p); [discriminate|].
  apply rf_die.
Qed.

Lemma rf_write_text p c : reports_fatal (write_text p c).
Proof. intros w msg H. discriminate. Qed.

Lemma rf_run cmd : reports_fatal (run cmd).
Proof.
  intros w msg. unfold run. destruct (exec w cmd (files w)); discriminate.
Qed.

Lemma rf_run_stdout cmd : reports_fatal (run_stdout cmd).
Proof.
  intros w msg. unfold run_stdout. destruct (capture w cmd); discriminate.
Qed.

Lemma rf_when b m : reports_fatal m -> reports_fatal (when b m).
Proof. intros H. destruct b; [exact H | apply rf_ret]. Qed.

Lemma rf_for_each {A} (l : list A) body :
  (forall a, reports_fatal (body a)) -> reports_fatal (for_each l body).
Proof.
  intros H. induction l as [|a l IH]; cbn [for_each].
  - apply rf_ret.
  - apply rf_bind; [apply H | intros _; exact IH].
Qed.

Lemma rf_write_if cond p a ch : reports_fatal (write_if cond p a ch).
Proof.
  unfold write_if. destruct cond; [|apply rf_ret].
  apply rf_bind; [apply rf_write_text | intros _; apply rf_ret].
Qed.

Ltac rf :=
  repeat first
    [ apply rf_ret | apply rf_die | apply rf_log | apply rf_path_exists
    | apply rf_read_text | apply rf_write_text | apply rf_run
    | apply rf_run_stdout | apply rf_write_if
    | apply rf_when | apply rf_for_each; intros ?
    | apply rf_bind; [|intros ?] ].

Lemma rf_ensure ROOT : reports_fatal (ensure_repo_files ROOT).
Proof.
  unfold ensure_repo_files. rf.
Qed.

Lemma rf_parse_notes args : reports_fatal (parse_notes args).
Proof.
  unfold parse_notes. apply rf_bind.
  - destruct (notes_file args) as [[|c f]|]; rf.
    match goal with a : bool |- _ => destruct a end; rf.
  - intros notes.
    destruct (map strip (filter (fun n => nonempty (strip n)) notes)); rf.
    destruct (negb (allow_empty_notes args)); rf.
Qed.

Lemma rf_edit_files ROOT args notes : reports_fatal (edit_files ROOT args notes).
Proof.
  unfold edit_files.
  apply rf_bind.
  { unfold edit_manifest, update_extension_toml. rf.
    - match goal with t : str |- _ =>
        destruct (update_extension_toml_text t (version args)) as [x|m|e]
      end; [apply rf_lift, nd_ok | apply rf_die | apply rf_lift, nd_raised].
    - match goal with x : (str * str)%type |- _ => destruct x end. rf. }
  intros ch1. apply rf_bind.
  { unfold edit_changelog, insert_changelog. rf.
    - match goal with t : str |- _ =>
        destruct (insert_changelog_text t (version args) notes) as [x|m|e]
      end; [apply rf_lift, nd_ok | apply rf_die | apply rf_lift, nd_raised].
    - match goal with x : (str * str)%type |- _ => destruct x end. rf. }
  intros ch2. apply rf_bind.
  { unfold edit_readme, replace_latest_readme. rf.
    match goal with a : bool |- _ => destruct a end; rf.
    - apply rf_lift, nd_readme.
    - match goal with x : (str * str * bool)%type |- _ =>
        destruct x as [[? ?] ?] end. rf. }
  intros ch3. apply rf_bind.
  { unfold edit_publishing, update_publishing. rf.
    match goal with a : bool |- _ => destruct a end; rf.
    - apply rf_lift, nd_publishing.
    - match goal with x : (str * str * list str)%type |- _ =>
        destruct x as [[? ?] ?] end. rf. }
  intros ch4. induction (test_paths ROOT) as [|p ps IH] in ch4 |- *;
    cbn [edit_tests]; [apply rf_ret|].
  apply rf_bind; [|intros ch; apply IH].
  unfold edit_test, update_test_version_checks. rf.
  match goal with a : bool |- _ => destruct a end; rf.
  - apply rf_lift, nd_tests.
  - match goal with x : (str * str * bool)%type |- _ =>
      destruct x as [[? ?] ?] end. rf.
Qed.

Lemma rf_build_step ROOT args ch : reports_fatal (build_step ROOT args ch).
Proof.
  unfold build_step. destruct (build args); [|apply rf_ret].
  unfold build_wasm. rf.
  intros w msg. destruct (files w _); [apply rf_write_text | apply rf_die].
Qed.

Lemma rf_main ROOT args : reports_fatal (main ROOT args).
Proof.
  unfold main.
  apply rf_bind; [apply rf_ensure | intros _].
  apply rf_bind; [apply rf_parse_notes | intros notes].
  apply rf_bind; [apply rf_edit_files | intros ch].
  apply rf_bind; [apply rf_build_step | intros ch'].
  apply rf_bind; [apply rf_when; unfold run_tests; rf | intros _].
  apply rf_bind.
  { unfold commit_step, git_status_files, git_add, git_commit. rf. }
  intros _. apply rf_bind.
  { unfold tag_step, git_tag. rf.
    match goal with |- reports_fatal (if ?b then _ else _) => destruct b end; rf. }
  intros _. apply rf_bind; [|intros _; apply rf_log].
  unfold push_step, git_push. rf.
Qed.

End Fatal.

(** X17.  When [main] ends with a fatal error, the last thing the script
    has written is the line [error: <message>] on the standard error; when
    it returns, the last thing it has written is [done] on the standard
    output. *)
Theorem main_last_line ROOT args w :
  (forall msg, fst (main ROOT args w) = Died msg ->
     exists evs, trace (snd (main ROOT args w))
                 = evs ++ [Stderr (lit "error: " ++ msg)])
  /\ (fst (main ROOT args w) = Ok tt ->
      exists evs, trace (snd (main ROOT args w)) = evs ++ [Stdout (lit "done")]).
Proof.
  split; [intros msg; apply Fatal.rf_main|].
  intros R. unfold main in *.
  repeat match type of R with
         | fst (bind _ _ _) = Ok _ =>
             let Q := fresh "Q" in
             destruct (FirstEdits.bind_ok_inv _ _ _ R) as (? & ? & _ & Q);
             rewrite Q in *; clear Q
         end.
  cbn [log snd trace]. eexists. reflexivity.
Qed.

Lemma main_last_line_witness :
  fst (main (lit "/repo") sample_args stale_world)
  = Died (lit "CHANGELOG already contains version 0.0.9")
  /\ exists evs,
       trace (snd (main (lit "/repo") sample_args stale_world))
       = evs ++ [Stderr (lit "error: "
                         ++ lit "CHANGELOG already contains version 0.0.9")].
Proof.
  split; [vm_compute; reflexivity|].
  apply (proj1 (@main_last_line (lit "/repo") sample_args stale_world)).
  vm_compute. reflexivity.
Defined.
